(** * Merkle tree of go-principals: construction, inclusion proofs, verification

    A shallow embedding of [merkle/merke_tree.go]: [Transaction.Hash],
    [NewMerkleNode], [NewMerkleTree], [GenerateProof] and [VerifyProof],
    together with the two library functions they call, [sha256.Sum256] and
    [hex.EncodeToString].

    Conventions of the embedding
    - a Go [[]byte] is a [list byte]; a Go [string] is a [string] (both are
      byte sequences); slices are values, so two slices never share a
      backing array, as is the case of the slices the code itself makes
      (the module [Mem] gives [VerifyProof] on slices that do, and relates
      the two);
    - a Go [int] is a [Z]; no index in this program comes near 2^63, so the
      wrap-around of [int] is not reached;
    - a pointer that the code tests against [nil], or that a caller may pass
      as [nil] to a function under study, is an [option]; the receiver of a
      method and the elements of a slice of pointers ([transactions],
      [Leaves], the working slice [nodes]) are non-nil and are plain values
      (the module [Ptr] gives [GenerateProof] on trees that hold nil
      pointers, and relates the two);
    - a function that can return an [error], panic, or loop lives in
      [outcome]; a loop whose bound is not structural takes fuel, and every
      caller passes enough of it (proved below: no run ends in [OutOfFuel]). *)

From Stdlib Require Import ZArith String Ascii Strings.Byte Bool List Lia ZifyNat.
Import ListNotations.

Local Open Scope Z_scope.

(** ** Outcomes of a call *)

Inductive outcome (A : Type) : Type :=
| Ret (a : A)          (* the call returns normally, with a nil error *)
| Err (msg : string)   (* the call returns errors.New(msg) and a nil result *)
| Panic (msg : string) (* a run-time panic unwinds the call *)
| OutOfFuel.           (* the model's loop bound was reached *)

Arguments Ret {A} a.
Arguments Err {A} msg.
Arguments Panic {A} msg.
Arguments OutOfFuel {A}.

Definition bind {A B : Type} (m : outcome A) (k : A -> outcome B) : outcome B :=
  match m with
  | Ret a => k a
  | Err msg => Err msg
  | Panic msg => Panic msg
  | OutOfFuel => OutOfFuel
  end.

Notation "x <- m ;; k" := (bind m (fun x => k))
  (at level 61, m at next level, right associativity).
Notation "' pat <- m ;; k" := (bind m (fun x => match x with pat => k end))
  (at level 61, pat pattern, m at next level, right associativity).

(** [len(s)] and [s[i]] of a Go slice. *)
Definition len {A : Type} (s : list A) : Z := Z.of_nat (length s).

Definition index {A : Type} (s : list A) (i : Z) : outcome A :=
  if (i <? 0) || (len s <=? i) then Panic "index out of range"
  else match nth_error s (Z.to_nat i) with
       | Some a => Ret a
       | None => Panic "index out of range"
       end.

(** ** crypto/sha256 *)

Module SHA256.

Definition mask32 : Z := 0xffffffff.
Definition u32 (x : Z) : Z := Z.land x mask32.
Definition add32 (x y : Z) : Z := u32 (x + y).

(** [bits.RotateLeft32(x, -k)]. *)
Definition rotr (x k : Z) : Z :=
  Z.lor (Z.shiftr x k) (u32 (Z.shiftl x (32 - k))).

Definition not32 (x : Z) : Z := Z.lxor x mask32.

Definition primes : list Z :=
  [2; 3; 5; 7; 11; 13; 17; 19; 23; 29; 31; 37; 41; 43; 47; 53;
   59; 61; 67; 71; 73; 79; 83; 89; 97; 101; 103; 107; 109; 113; 127; 131;
   137; 139; 149; 151; 157; 163; 167; 173; 179; 181; 191; 193; 197; 199;
   211; 223; 227; 229; 233; 239; 241; 251; 257; 263; 269; 271; 277; 281;
   283; 293; 307; 311].

(** Integer cube root, one bit at a time from bit [b - 1] downwards. *)
Fixpoint icbrt (b : nat) (n r : Z) : Z :=
  match b with
  | O => r
  | S b' =>
      let r' := r + 2 ^ Z.of_nat b' in
      icbrt b' n (if r' * r' * r' <=? n then r' else r)
  end.

(** The table [_K]: the first 32 bits of the fractional parts of the cube
    roots of the first 64 primes. *)
Definition _K : list Z :=
  Eval vm_compute in map (fun p => u32 (icbrt 36 (p * 2 ^ 96) 0)) primes.

(** [init0 .. init7]: the same for the square roots of the first 8 primes. *)
Definition init : list Z :=
  Eval vm_compute in map (fun p => u32 (Z.sqrt (p * 2 ^ 64))) (firstn 8 primes).

Record digest : Type :=
  mkDigest { h0 : Z; h1 : Z; h2 : Z; h3 : Z; h4 : Z; h5 : Z; h6 : Z; h7 : Z }.

Definition initial : digest :=
  match init with
  | [a; b; c; d; e; f; g; h] => mkDigest a b c d e f g h
  | _ => mkDigest 0 0 0 0 0 0 0 0
  end.

Definition byteZ (b : byte) : Z := Z.of_N (Byte.to_N b).

Definition Zbyte (z : Z) : byte :=
  match Byte.of_N (Z.to_N (Z.land z 0xff)) with
  | Some b => b
  | None => x00
  end.

(** [w[i] = uint32(p[j])<<24 | uint32(p[j+1])<<16 | uint32(p[j+2])<<8 | uint32(p[j+3])] *)
Fixpoint words (p : list byte) : list Z :=
  match p with
  | b0 :: b1 :: b2 :: b3 :: rest =>
      Z.lor (Z.lor (Z.lor (Z.shiftl (byteZ b0) 24) (Z.shiftl (byteZ b1) 16))
                   (Z.shiftl (byteZ b2) 8)) (byteZ b3)
      :: words rest
  | _ => []
  end.

(** The message schedule, kept newest word first: with [w[i-1]] at the
    head, [w[i-2]], [w[i-7]], [w[i-15]] and [w[i-16]] sit at offsets 1, 6,
    14 and 15. *)
Fixpoint schedule (n : nat) (wrev : list Z) : list Z :=
  match n with
  | O => wrev
  | S n' =>
      let v1 := nth 1 wrev 0 in
      let t1 := Z.lxor (Z.lxor (rotr v1 17) (rotr v1 19)) (Z.shiftr v1 10) in
      let v2 := nth 14 wrev 0 in
      let t2 := Z.lxor (Z.lxor (rotr v2 7) (rotr v2 18)) (Z.shiftr v2 3) in
      schedule n' (add32 (add32 (add32 t1 (nth 6 wrev 0)) t2) (nth 15 wrev 0) :: wrev)
  end.

Definition round (s : digest) (kw : Z * Z) : digest :=
  let '(mkDigest a b c d e f g h) := s in
  let t1 := add32 (add32 (add32 (add32 h
              (Z.lxor (Z.lxor (rotr e 6) (rotr e 11)) (rotr e 25)))
              (Z.lxor (Z.land e f) (Z.land (not32 e) g))) (fst kw)) (snd kw) in
  let t2 := add32 (Z.lxor (Z.lxor (rotr a 2) (rotr a 13)) (rotr a 22))
                  (Z.lxor (Z.lxor (Z.land a b) (Z.land a c)) (Z.land b c)) in
  mkDigest (add32 t1 t2) a b c (add32 d t1) e f g.

(** One 64-byte chunk of [blockGeneric]. *)
Definition block (dig : digest) (chunk : list byte) : digest :=
  let w := rev (schedule 48 (rev (words chunk))) in
  let '(mkDigest a b c d e f g h) := fold_left round (combine _K w) dig in
  mkDigest (add32 (h0 dig) a) (add32 (h1 dig) b) (add32 (h2 dig) c)
           (add32 (h3 dig) d) (add32 (h4 dig) e) (add32 (h5 dig) f)
           (add32 (h6 dig) g) (add32 (h7 dig) h).

Fixpoint blocks (n : nat) (dig : digest) (p : list byte) : digest :=
  match n with
  | O => dig
  | S n' => blocks n' (block dig (firstn 64 p)) (skipn 64 p)
  end.

(** Big-endian bytes of a word of [8 * n] bits. *)
Fixpoint bigEndian (n : nat) (x : Z) : list byte :=
  match n with
  | O => []
  | S n' => Zbyte (Z.shiftr x (8 * Z.of_nat n')) :: bigEndian n' x
  end.

(** The padding of [checkSum]: 0x80, zeros up to 56 mod 64, then the
    length in bits as 8 big-endian bytes. *)
Definition padded (data : list byte) : list byte :=
  data ++ [x80]
       ++ repeat x00 (Z.to_nat ((55 - len data) mod 64))
       ++ bigEndian 8 (8 * len data).

Definition Sum256 (data : list byte) : list byte :=
  let p := padded data in
  let '(mkDigest a b c d e f g h) := blocks (length p / 64) initial p in
  bigEndian 4 a ++ bigEndian 4 b ++ bigEndian 4 c ++ bigEndian 4 d ++
  bigEndian 4 e ++ bigEndian 4 f ++ bigEndian 4 g ++ bigEndian 4 h.

End SHA256.

(** ** encoding/hex *)

Module Hex.

Definition hextable : list ascii := list_ascii_of_string "0123456789abcdef".

Definition digit (v : N) : ascii := nth (N.to_nat v) hextable "0"%char.

(** [dst[j] = hextable[v>>4]; dst[j+1] = hextable[v&0x0f]] for each byte. *)
Fixpoint EncodeToString (src : list byte) : string :=
  match src with
  | [] => EmptyString
  | v :: rest =>
      String (digit (N.shiftr (Byte.to_N v) 4))
        (String (digit (N.land (Byte.to_N v) 0x0f)) (EncodeToString rest))
  end.

End Hex.

(** [[]byte(s)]. *)
Definition bytes (s : string) : list byte := list_byte_of_string s.

Abbreviation Sum256 := SHA256.Sum256.

Arguments SHA256.Sum256 : simpl never.
Opaque SHA256.Sum256.

(** ** merke_tree.go *)

(** [MerkleNode]: [Left] and [Right] are pointers, nil at a leaf. *)
#[warnings="-register-all"]
Inductive MerkleNode : Type :=
  mkNode { Left : option MerkleNode; Right : option MerkleNode; Hash : list byte }.

(** [MerkleProof]: in [Positions], true = right, false = left. *)
Record MerkleProof : Type :=
  mkProof { Hashes : list (list byte); Positions : list bool }.

(** [NewMerkleNode(left, right, data)]. *)
Definition NewMerkleNode (left right : option MerkleNode) (data : list byte)
  : MerkleNode :=
  let hash :=
    match left, right with
    | None, None =>
        (* Leaf node - data is already hashed *)
        data
    | _, _ =>
        (* Internal node - hash the concatenation of children *)
        let prevHashes := [] in
        let prevHashes :=
          match left with Some l => prevHashes ++ Hash l | None => prevHashes end in
        let prevHashes :=
          match right with Some r => prevHashes ++ Hash r | None => prevHashes end in
        Sum256 prevHashes
    end in
  {| Left := left; Right := right; Hash := hash |}.

(** [if len(nodes)%2 != 0 { nodes = append(nodes, nodes[len(nodes)-1]) }]:
    the statement after the leaf loop of [NewMerkleTree] and after the copy
    in [GenerateProof]. *)
Definition padLeaves (nodes : list MerkleNode) : outcome (list MerkleNode) :=
  if negb (Z.rem (len nodes) 2 =? 0) then
    last <- index nodes (len nodes - 1) ;;
    Ret (nodes ++ [last])
  else Ret nodes.

(** [if len(level)%2 != 0 && len(level) > 1 { level = append(level, level[len(level)-1]) }]:
    the statement that ends the body of the level loop in both functions. *)
Definition padLevel (level : list MerkleNode) : outcome (list MerkleNode) :=
  if negb (Z.rem (len level) 2 =? 0) && (1 <? len level) then
    last <- index level (len level - 1) ;;
    Ret (level ++ [last])
  else Ret level.

(** The inner loop of [NewMerkleTree]:
    [for i := 0; i < len(nodes); i += 2 { level = append(level, NewMerkleNode(nodes[i], nodes[i+1], nil)) }]. *)
Fixpoint pairLoop (fuel : nat) (nodes : list MerkleNode) (i : Z)
  (level : list MerkleNode) : outcome (list MerkleNode) :=
  if i <? len nodes then
    match fuel with
    | O => OutOfFuel
    | S fuel' =>
        l <- index nodes i ;;
        r <- index nodes (i + 1) ;;
        let node := NewMerkleNode (Some l) (Some r) [] in
        pairLoop fuel' nodes (i + 2) (level ++ [node])
    end
  else Ret level.

(** The level loop of [NewMerkleTree]: [for len(nodes) > 1 { ... nodes = level }]. *)
Fixpoint buildLoop (fuel : nat) (nodes : list MerkleNode)
  : outcome (list MerkleNode) :=
  if 1 <? len nodes then
    match fuel with
    | O => OutOfFuel
    | S fuel' =>
        level <- pairLoop (length nodes) nodes 0 [] ;;
        level <- padLevel level ;;
        buildLoop fuel' level
    end
  else Ret nodes.

(** The inner loop of [GenerateProof]; [proof] and [currentIndex] are
    updated in the middle of the iteration that meets the current node. *)
Fixpoint proofPairLoop (fuel : nat) (nodes : list MerkleNode) (i : Z)
  (proof : MerkleProof) (currentIndex : Z) (level : list MerkleNode)
  : outcome (MerkleProof * Z * list MerkleNode) :=
  if i <? len nodes then
    match fuel with
    | O => OutOfFuel
    | S fuel' =>
        '(proof, currentIndex) <-
          (if (i =? currentIndex) || (i + 1 =? currentIndex) then
             (* Found our node - add sibling to proof *)
             if i =? currentIndex then
               (* Current node is left, add right sibling *)
               sibling <- index nodes (i + 1) ;;
               Ret ({| Hashes := Hashes proof ++ [Hash sibling];
                       Positions := Positions proof ++ [true] |},
                    Z.quot i 2)
             else
               (* Current node is right, add left sibling *)
               sibling <- index nodes i ;;
               Ret ({| Hashes := Hashes proof ++ [Hash sibling];
                       Positions := Positions proof ++ [false] |},
                    Z.quot i 2)
           else Ret (proof, currentIndex)) ;;
        (* Build parent node *)
        l <- index nodes i ;;
        r <- index nodes (i + 1) ;;
        let node := NewMerkleNode (Some l) (Some r) [] in
        proofPairLoop fuel' nodes (i + 2) proof currentIndex (level ++ [node])
    end
  else Ret (proof, currentIndex, level).

(** The level loop of [GenerateProof]. *)
Fixpoint proofLoop (fuel : nat) (nodes : list MerkleNode)
  (proof : MerkleProof) (currentIndex : Z) : outcome MerkleProof :=
  if 1 <? len nodes then
    match fuel with
    | O => OutOfFuel
    | S fuel' =>
        '(proof, currentIndex, level) <-
          proofPairLoop (length nodes) nodes 0 proof currentIndex [] ;;
        level <- padLevel level ;;
        proofLoop fuel' level proof currentIndex
    end
  else Ret proof.

(** The loop of [VerifyProof]: [for i, siblingHash := range proof.Hashes]. *)
Fixpoint verifyLoop (positions : list bool) (i : Z) (hashes : list (list byte))
  (currentHash : list byte) : outcome (list byte) :=
  match hashes with
  | [] => Ret currentHash
  | siblingHash :: rest =>
      p <- index positions i ;;
      let combined :=
        if p then
          (* Sibling is on the right *)
          currentHash ++ siblingHash
        else
          (* Sibling is on the left *)
          siblingHash ++ currentHash in
      verifyLoop positions (i + 1) rest (Sum256 combined)
  end.

(** [VerifyProof(txHash, proof, rootHash)]; [proof] is a pointer. *)
Definition VerifyProof (txHash : list byte) (proof : option MerkleProof)
  (rootHash : list byte) : outcome bool :=
  match proof with
  | None => Panic "invalid memory address or nil pointer dereference"
  | Some proof =>
      currentHash <- verifyLoop (Positions proof) 0 (Hashes proof) txHash ;;
      Ret (String.eqb (Hex.EncodeToString currentHash)
                      (Hex.EncodeToString rootHash))
  end.

Section Transactions.

(** [fmt]'s rendering of a [float64] under the verb [%.2f] is taken as given. *)
Variable float64 : Type.
Variable format2f : float64 -> string.

(** [Transaction]. *)
Record Transaction : Type :=
  mkTransaction { ID : string; From : string; To : string; Amount : float64 }.

(** [fmt.Sprintf("%s:%s->%s:%.2f", t.ID, t.From, t.To, t.Amount)] *)
Definition Transaction_String (t : Transaction) : string :=
  (ID t ++ ":" ++ From t ++ "->" ++ To t ++ ":" ++ format2f (Amount t))%string.

(** [Transaction.Hash]. *)
Definition Transaction_Hash (t : Transaction) : list byte :=
  let data := bytes (Transaction_String t) in
  Sum256 data.

(** [MerkleTree]: [Root] is a pointer, tested against nil by [GetRootHash]. *)
Record MerkleTree : Type :=
  mkTree { Root : option MerkleNode;
           Transactions : list Transaction;
           Leaves : list MerkleNode }.

(** The leaf loop of [NewMerkleTree]: [for _, tx := range transactions]. *)
Definition leafLoop (transactions : list Transaction)
  : list MerkleNode * list MerkleNode :=
  fold_left
    (fun '(nodes, leaves) tx =>
       let node := NewMerkleNode None None (Transaction_Hash tx) in
       (nodes ++ [node], leaves ++ [node]))
    transactions ([], []).

(** [NewMerkleTree(transactions)]. *)
Definition NewMerkleTree (transactions : list Transaction) : outcome MerkleTree :=
  if len transactions =? 0 then
    Err "cannot create Merkle tree with no transactions"
  else
    let '(nodes, leaves) := leafLoop transactions in
    (* If odd number of nodes, duplicate the last one *)
    nodes <- padLeaves nodes ;;
    (* Build the tree level by level *)
    nodes <- buildLoop (length nodes) nodes ;;
    root <- index nodes 0 ;;
    Ret {| Root := Some root; Transactions := transactions; Leaves := leaves |}.

(** [GetRootHash]. *)
Definition GetRootHash (mt : MerkleTree) : string :=
  match Root mt with
  | None => EmptyString
  | Some root => Hex.EncodeToString (Hash root)
  end.

(** [mt.GenerateProof(txIndex)]; [nodes] starts as a copy of [mt.Leaves]. *)
Definition GenerateProof (mt : MerkleTree) (txIndex : Z) : outcome MerkleProof :=
  if (txIndex <? 0) || (len (Transactions mt) <=? txIndex) then
    Err "transaction index out of bounds"
  else
    let proof := {| Hashes := []; Positions := [] |} in
    (* Start from the leaf level *)
    let nodes := Leaves mt in
    let currentIndex := txIndex in
    (* Handle odd number of leaves *)
    nodes <- padLeaves nodes ;;
    (* Traverse up the tree *)
    proofLoop (length nodes) nodes proof currentIndex.

(** The receiver of [GenerateProof] after the call, with what the call
    returns: the method assigns to no field of [mt], and its working slice
    is a copy of [mt.Leaves] made with [make] and [copy]. *)
Definition GenerateProof_on (mt : MerkleTree) (txIndex : Z)
  : MerkleTree * outcome MerkleProof :=
  (mt, GenerateProof mt txIndex).

(** The leaf node of a transaction, as the leaf loop makes it. *)
Definition leafOf (tx : Transaction) : MerkleNode :=
  NewMerkleNode None None (Transaction_Hash tx).

End Transactions.

Arguments mkTransaction {float64}.
Arguments ID {float64}.
Arguments From {float64}.
Arguments To {float64}.
Arguments Amount {float64}.
Arguments Transaction_String {float64}.
Arguments Transaction_Hash {float64}.
Arguments mkTree {float64}.
Arguments Root {float64}.
Arguments Transactions {float64}.
Arguments Leaves {float64}.
Arguments leafLoop {float64}.
Arguments NewMerkleTree {float64}.
Arguments GetRootHash {float64}.
Arguments GenerateProof {float64}.
Arguments GenerateProof_on {float64}.
Arguments leafOf {float64}.

(** ** Transactions of the examples *)

(** In the examples an amount is carried by the text that [%.2f] prints for
    it: the [float64] 100.0 of examples/basic.go is ["100.00"]. *)
Definition printed (s : string) : string := s.

(** The four transactions of examples/basic.go. *)
Definition tx1 := mkTransaction "tx1" "Alice" "Bob" "100.00"%string.
Definition tx2 := mkTransaction "tx2" "Bob" "Charlie" "50.00"%string.
Definition tx3 := mkTransaction "tx3" "Charlie" "Dave" "75.00"%string.
Definition tx4 := mkTransaction "tx4" "Dave" "Eve" "25.00"%string.

(** ** Levels, paths and trees *)

(** [append(s, s[len(s)-1])]. *)
Definition dupLast (s : list MerkleNode) : list MerkleNode :=
  match rev s with
  | [] => s
  | a :: _ => s ++ [a]
  end.

(** What [padLeaves] returns: the last node once more when the count is odd. *)
Definition paddedLeaves (nodes : list MerkleNode) : list MerkleNode :=
  if Nat.odd (length nodes) then dupLast nodes else nodes.

(** What [padLevel] returns: the last node once more when the count is odd
    and above one. *)
Definition paddedLevel (level : list MerkleNode) : list MerkleNode :=
  if Nat.odd (length level) && (1 <? length level)%nat then dupLast level
  else level.

(** The parents of a level, pair by pair. *)
Fixpoint pairs (nodes : list MerkleNode) : list MerkleNode :=
  match nodes with
  | l :: r :: rest => NewMerkleNode (Some l) (Some r) [] :: pairs rest
  | _ => []
  end.

(** One turn of the level loop. *)
Definition nextLevel (nodes : list MerkleNode) : list MerkleNode :=
  paddedLevel (pairs nodes).

(** Arithmetic with [/], [mod], [Z.quot] and [Z.rem]. *)
Ltac elia := zify; Z.to_euclidean_division_equations; lia.

(** What the level loops keep true of [nodes]: it is the root alone, or an
    even number of nodes. *)
Definition level_ok (nodes : list MerkleNode) : Prop :=
  length nodes = 1%nat
  \/ (Nat.even (length nodes) = true /\ (2 <= length nodes)%nat).

(** [Path nodes c hs ps root]: climbing from position [c] of the level
    [nodes] to the single node [root], [hs] lists the hash of the sibling
    met at each level and [ps] its side; a node at an even position is a
    left child and has its sibling on the right. *)
Inductive Path : list MerkleNode -> nat -> list (list byte) -> list bool
                 -> MerkleNode -> Prop :=
| Path_root (root : MerkleNode) : Path [root] 0 [] [] root
| Path_step (nodes : list MerkleNode) (c : nat) (sib : MerkleNode)
    (hs : list (list byte)) (ps : list bool) (root : MerkleNode) :
    (1 < length nodes)%nat ->
    nth_error nodes (if Nat.even c then c + 1 else c - 1)%nat = Some sib ->
    Path (nextLevel nodes) (c / 2) hs ps root ->
    Path nodes c (Hash sib :: hs) (Nat.even c :: ps) root.

(** What the loop of [VerifyProof] computes when [positions] is long enough. *)
Fixpoint climb (currentHash : list byte) (hashes : list (list byte))
  (positions : list bool) : list byte :=
  match hashes, positions with
  | siblingHash :: hashes, p :: positions =>
      climb (Sum256 (if p then currentHash ++ siblingHash
                     else siblingHash ++ currentHash)) hashes positions
  | _, _ => currentHash
  end.

(** [TreeOver leaves n]: [n] is one of [leaves], or an internal node with two
    children of that kind whose hash is the hash of their hashes, left then
    right. *)
Inductive TreeOver (leaves : list MerkleNode) : MerkleNode -> Prop :=
| TreeOver_leaf (n : MerkleNode) : In n leaves -> TreeOver leaves n
| TreeOver_internal (l r : MerkleNode) (h : list byte) :
    TreeOver leaves l -> TreeOver leaves r ->
    h = Sum256 (Hash l ++ Hash r) ->
    TreeOver leaves {| Left := Some l; Right := Some r; Hash := h |}.

(** The value of a hexadecimal digit, 0 for any other character. *)
Definition undigit (c : ascii) : N :=
  match find (fun v => Ascii.eqb (Hex.digit v) c)
             (map N.of_nat (seq 0 16)) with
  | Some v => v
  | None => 0%N
  end.

(** The construction of a root from a level, as [NewMerkleTree] runs it: a
    level of one node is the root; a longer level is paired, the row of
    parents padded by the rule of [paddedLevel], and the construction goes
    on from there. *)
Inductive Builds : list MerkleNode -> MerkleNode -> Prop :=
| Builds_root (root : MerkleNode) : Builds [root] root
| Builds_level (nodes : list MerkleNode) (root : MerkleNode) :
    (1 < length nodes)%nat ->
    Builds (paddedLevel (pairs nodes)) root ->
    Builds nodes root.

(** Two inputs that SHA-256 sends to one digest. *)
Definition collide (x y : list byte) : Prop := x <> y /\ Sum256 x = Sum256 y.

(** The tree and the proof of a run on printed amounts, for the examples. *)
Definition treeOf (transactions : list (Transaction string)) : MerkleTree string :=
  match NewMerkleTree printed transactions with
  | Ret mt => mt
  | _ => {| Root := None; Transactions := []; Leaves := [] |}
  end.

Definition proofOf (mt : MerkleTree string) (i : Z) : MerkleProof :=
  match GenerateProof mt i with
  | Ret proof => proof
  | _ => {| Hashes := []; Positions := [] |}
  end.

Definition rootHashOf (mt : MerkleTree string) : list byte :=
  match Root mt with
  | Some root => Hash root
  | None => []
  end.

(** ** Sizes *)

(** [sha256.Size]. *)
Definition Size : nat := 32.

(** A node whose hash has the size of a SHA-256 digest. *)
Definition sized (n : MerkleNode) : Prop := length (Hash n) = Size.

(** A character of [hextable]. *)
Definition isHexDigit (c : ascii) : bool := existsb (Ascii.eqb c) Hex.hextable.

(** ** Printing a tree *)

(** The line feed that ends a printed line. *)
Definition nl : string := String (ascii_of_nat 10) EmptyString.

(** [s[:n]] of a Go string. *)
Definition sliceTo (s : string) (n : nat) : outcome string :=
  if (n <=? String.length s)%nat then Ret (substring 0 n s)
  else Panic "slice bounds out of range".

(** [printNode] on a non-nil node; the result is the text written to the
    standard output. The right child is printed before the left one. *)
Fixpoint printNode (node : MerkleNode) (prefix : string) (isLast : bool)
  : outcome string :=
  match node with
  | mkNode nodeLeft nodeRight hash =>
      let out := prefix in
      let '(out, prefix) :=
        if isLast then ((out ++ "└── ")%string, (prefix ++ "    ")%string)
        else ((out ++ "├── ")%string, (prefix ++ "│   ")%string) in
      short <- sliceTo (Hex.EncodeToString hash) 16 ;;
      let out := (out ++ (short ++ "...") ++ nl)%string in
      match nodeLeft, nodeRight with
      | None, None => Ret out
      | _, _ =>
          outRight <- match nodeRight with
                      | Some r => printNode r prefix false
                      | None => Ret EmptyString
                      end ;;
          outLeft <- match nodeLeft with
                     | Some l => printNode l prefix true
                     | None => Ret EmptyString
                     end ;;
          Ret (out ++ outRight ++ outLeft)%string
      end
  end.

(** [PrintTree]: two header lines, the nodes, an empty line and the root
    hash. *)
Definition PrintTree {float64 : Type} (mt : MerkleTree float64) : outcome string :=
  let out := ("Merkle Tree Structure:" ++ nl ++ "=====================" ++ nl)%string in
  body <- match Root mt with
          | None => Ret EmptyString
          | Some root => printNode root EmptyString true
          end ;;
  Ret (out ++ body ++ nl ++ "Root Hash: " ++ GetRootHash mt ++ nl)%string.

(** The number of line feeds in a text. *)
Fixpoint countLines (s : string) : nat :=
  match s with
  | EmptyString => 0
  | String c rest =>
      ((if Ascii.eqb c (ascii_of_nat 10) then 1 else 0) + countLines rest)%nat
  end.

(** [Perfect d n]: every leaf under [n] is [d] steps down, every other node
    has two children, and a leaf has none. *)
Inductive Perfect : nat -> MerkleNode -> Prop :=
| Perfect_leaf (h : list byte) :
    Perfect 0 {| Left := None; Right := None; Hash := h |}
| Perfect_node (d : nat) (l r : MerkleNode) (h : list byte) :
    Perfect d l -> Perfect d r ->
    Perfect (S d) {| Left := Some l; Right := Some r; Hash := h |}.

(** [Printable n]: the hash of [n] and of every node under it has at least
    8 bytes, the 16 hexadecimal characters [printNode] cuts out. *)
Inductive Printable : MerkleNode -> Prop :=
| Printable_node (l r : option MerkleNode) (h : list byte) :
    (8 <= length h)%nat ->
    (forall n, l = Some n -> Printable n) ->
    (forall n, r = Some n -> Printable n) ->
    Printable {| Left := l; Right := r; Hash := h |}.

(** [Under root n k]: [n] is reached from [root] in [k] steps to a left or
    right child. *)
Inductive Under (root : MerkleNode) : MerkleNode -> nat -> Prop :=
| Under_self : Under root root 0
| Under_left (n l : MerkleNode) (k : nat) :
    Under root n k -> Left n = Some l -> Under root l (S k)
| Under_right (n r : MerkleNode) (k : nat) :
    Under root n k -> Right n = Some r -> Under root r (S k).

(** The root node of a tree of the examples. *)
Definition rootNodeOf (mt : MerkleTree string) : MerkleNode :=
  match Root mt with
  | Some root => root
  | None => NewMerkleNode None None []
  end.

(** ** VerifyProof on slices that share memory

    In [VerifyProof], [append(currentHash, siblingHash...)] and
    [append(siblingHash, currentHash...)] write behind their first argument
    when its capacity has room, so what the call returns can depend on where
    the slices of the caller lie. In [Mem] a byte slice is a window of a
    backing array: the array, the offset of its first byte, its length and
    its capacity; the memory lists the backing arrays. A slice of booleans
    or of slices cannot lie over bytes, so [Positions] and the slice
    headers of [Hashes] stay values. *)

Module Mem.

Record slice : Type :=
  mkSlice { array : nat; off : nat; slen : nat; scap : nat }.

Definition memory : Type := list (list byte).

(** The bytes of a backing array; an array that does not exist has none. *)
Definition content (m : memory) (a : nat) : list byte := nth a m [].

(** The bytes a slice shows. *)
Definition load (m : memory) (s : slice) : list byte :=
  firstn (slen s) (skipn (off s) (content m (array s))).

(** [l[n] = x]. *)
Fixpoint update {A : Type} (l : list A) (n : nat) (x : A) : list A :=
  match l, n with
  | [], _ => []
  | _ :: rest, O => x :: rest
  | y :: rest, S n' => y :: update rest n' x
  end.

(** [copy(a[o:], bs)] on the backing array [a]. *)
Definition store (m : memory) (a o : nat) (bs : list byte) : memory :=
  let old := content m a in
  update m a (firstn o old ++ bs ++ skipn (o + length bs) old).

(** A new backing array that holds [bs], and the slice of all of it. *)
Definition alloc (m : memory) (bs : list byte) : memory * slice :=
  (m ++ [bs],
   {| array := length m; off := 0; slen := length bs; scap := length bs |}).

(** [append(s, t...)]: in place when [len(s) + len(t) <= cap(s)], the bytes
    of [t] read before any is written; in a new array otherwise. The
    capacity of the new array is the choice of the runtime; [VerifyProof]
    appends nothing to it. *)
Definition append (m : memory) (s t : slice) : memory * slice :=
  let added := load m t in
  if (slen s + slen t <=? scap s)%nat then
    (store m (array s) (off s + slen s) added,
     {| array := array s; off := off s; slen := slen s + slen t;
        scap := scap s |})
  else alloc m (load m s ++ added).

(** [MerkleProof] with its hashes in memory. *)
Record MerkleProof : Type :=
  mkProof { Hashes : list slice; Positions : list bool }.

(** The loop of [VerifyProof]; [hash := sha256.Sum256(combined)] is a new
    array of 32 bytes at each turn, and [hash[:]] the slice of all of it. *)
Fixpoint verifyLoop (m : memory) (positions : list bool) (i : Z)
  (hashes : list slice) (currentHash : slice) : outcome (memory * slice) :=
  match hashes with
  | [] => Ret (m, currentHash)
  | siblingHash :: rest =>
      p <- index positions i ;;
      let '(m, combined) :=
        if p then
          (* Sibling is on the right *)
          append m currentHash siblingHash
        else
          (* Sibling is on the left *)
          append m siblingHash currentHash in
      let '(m, hash) := alloc m (Sum256 (load m combined)) in
      verifyLoop m positions (i + 1) rest hash
  end.

(** [VerifyProof(txHash, proof, rootHash)] with the memory it leaves. *)
Definition VerifyProof_on (m : memory) (txHash : slice)
  (proof : option MerkleProof) (rootHash : slice) : outcome (memory * bool) :=
  match proof with
  | None => Panic "invalid memory address or nil pointer dereference"
  | Some proof =>
      '(m, currentHash) <- verifyLoop m (Positions proof) 0 (Hashes proof) txHash ;;
      Ret (m, String.eqb (Hex.EncodeToString (load m currentHash))
                         (Hex.EncodeToString (load m rootHash)))
  end.

(** [VerifyProof(txHash, proof, rootHash)]. *)
Definition VerifyProof (m : memory) (txHash : slice)
  (proof : option MerkleProof) (rootHash : slice) : outcome bool :=
  '(_, ok) <- VerifyProof_on m txHash proof rootHash ;;
  Ret ok.

(** A slice lies within its backing array. *)
Definition valid (m : memory) (s : slice) : Prop :=
  (slen s <= scap s)%nat
  /\ (off s + scap s <= length (content m (array s)))%nat.

(** [apart x y]: the room behind [x], from its length up to its capacity,
    holds no byte of [y]. *)
Definition apart (x y : slice) : Prop :=
  array x <> array y
  \/ (scap x <= slen x)%nat
  \/ slen y = 0%nat
  \/ (off x + scap x <= off y)%nat
  \/ (off y + slen y <= off x + slen x)%nat.

(** The room behind the digest under test and behind each sibling hash
    holds no byte of a sibling hash or of the root. *)
Definition quiet (txHash : slice) (hashes : list slice) (rootHash : slice)
  : Prop :=
  Forall (fun x => Forall (apart x) (rootHash :: hashes)) (txHash :: hashes).

(** The slices of a call are well placed: each within its array, and
    [quiet]. Slices without room behind them, as [sha256.Sum256] and
    [Transaction.Hash] make them, are. *)
Definition placed (m : memory) (txHash : slice) (hashes : list slice)
  (rootHash : slice) : Prop :=
  valid m txHash /\ Forall (valid m) hashes /\ valid m rootHash
  /\ quiet txHash hashes rootHash.

(** A slice without room behind it. *)
Definition tight (s : slice) : Prop := scap s = slen s.

(** The slice of all of the backing array [a]. *)
Definition whole (m : memory) (a : nat) : slice :=
  {| array := a; off := 0; slen := length (content m a);
     scap := length (content m a) |}.

End Mem.

(** The inputs that the loop of [VerifyProof] passes to [sha256.Sum256],
    first to last, when [positions] is long enough. *)
Fixpoint combinedOf (currentHash : list byte) (hashes : list (list byte))
  (positions : list bool) : list (list byte) :=
  match hashes, positions with
  | siblingHash :: hashes, p :: positions =>
      let combined :=
        if p then currentHash ++ siblingHash else siblingHash ++ currentHash in
      combined :: combinedOf (Sum256 combined) hashes positions
  | _, _ => []
  end.

(** ** GenerateProof on a tree that may hold nil pointers

    [Leaves] and [Transactions] are slices of pointers, and a tree made by
    hand can hold nil in them. In [Ptr] the working slice of [GenerateProof]
    is a list of [option]s, and reading [.Hash] through nil panics;
    [NewMerkleNode] takes nil children as it does in the source. *)

Module Ptr.

(** Reading through a pointer. *)
Definition deref {A : Type} (p : option A) : outcome A :=
  match p with
  | Some x => Ret x
  | None => Panic "invalid memory address or nil pointer dereference"
  end.

(** [if len(nodes)%2 != 0 { nodes = append(nodes, nodes[len(nodes)-1]) }]. *)
Definition padLeaves (nodes : list (option MerkleNode))
  : outcome (list (option MerkleNode)) :=
  if negb (Z.rem (len nodes) 2 =? 0) then
    last <- index nodes (len nodes - 1) ;;
    Ret (nodes ++ [last])
  else Ret nodes.

(** [if len(level)%2 != 0 && len(level) > 1 { level = append(level, level[len(level)-1]) }]. *)
Definition padLevel (level : list (option MerkleNode))
  : outcome (list (option MerkleNode)) :=
  if negb (Z.rem (len level) 2 =? 0) && (1 <? len level) then
    last <- index level (len level - 1) ;;
    Ret (level ++ [last])
  else Ret level.

(** The inner loop of [GenerateProof]: [nodes[i+1].Hash] and
    [nodes[i].Hash] read through the pointer. *)
Fixpoint proofPairLoop (fuel : nat) (nodes : list (option MerkleNode)) (i : Z)
  (proof : MerkleProof) (currentIndex : Z) (level : list (option MerkleNode))
  : outcome (MerkleProof * Z * list (option MerkleNode)) :=
  if i <? len nodes then
    match fuel with
    | O => OutOfFuel
    | S fuel' =>
        '(proof, currentIndex) <-
          (if (i =? currentIndex) || (i + 1 =? currentIndex) then
             (* Found our node - add sibling to proof *)
             if i =? currentIndex then
               (* Current node is left, add right sibling *)
               sibling <- index nodes (i + 1) ;;
               sibling <- deref sibling ;;
               Ret ({| Hashes := Hashes proof ++ [Hash sibling];
                       Positions := Positions proof ++ [true] |},
                    Z.quot i 2)
             else
               (* Current node is right, add left sibling *)
               sibling <- index nodes i ;;
               sibling <- deref sibling ;;
               Ret ({| Hashes := Hashes proof ++ [Hash sibling];
                       Positions := Positions proof ++ [false] |},
                    Z.quot i 2)
           else Ret (proof, currentIndex)) ;;
        (* Build parent node *)
        l <- index nodes i ;;
        r <- index nodes (i + 1) ;;
        let node := NewMerkleNode l r [] in
        proofPairLoop fuel' nodes (i + 2) proof currentIndex
          (level ++ [Some node])
    end
  else Ret (proof, currentIndex, level).

(** The level loop of [GenerateProof]. *)
Fixpoint proofLoop (fuel : nat) (nodes : list (option MerkleNode))
  (proof : MerkleProof) (currentIndex : Z) : outcome MerkleProof :=
  if 1 <? len nodes then
    match fuel with
    | O => OutOfFuel
    | S fuel' =>
        '(proof, currentIndex, level) <-
          proofPairLoop (length nodes) nodes 0 proof currentIndex [] ;;
        level <- padLevel level ;;
        proofLoop fuel' level proof currentIndex
    end
  else Ret proof.

Section Transactions.

Variable float64 : Type.

(** [MerkleTree] with its slices of pointers. *)
Record MerkleTree : Type :=
  mkTree { Root : option MerkleNode;
           Transactions : list (option (Transaction float64));
           Leaves : list (option MerkleNode) }.

(** [mt.GenerateProof(txIndex)]; [mt] is read only when [txIndex < 0] is
    false. *)
Definition GenerateProof (mt : option MerkleTree) (txIndex : Z)
  : outcome MerkleProof :=
  if txIndex <? 0 then Err "transaction index out of bounds"
  else
    mt <- deref mt ;;
    if len (Transactions mt) <=? txIndex then
      Err "transaction index out of bounds"
    else
      let proof := {| Hashes := []; Positions := [] |} in
      (* Start from the leaf level *)
      let nodes := Leaves mt in
      let currentIndex := txIndex in
      (* Handle odd number of leaves *)
      nodes <- padLeaves nodes ;;
      (* Traverse up the tree *)
      proofLoop (length nodes) nodes proof currentIndex.

End Transactions.

Arguments mkTree {float64}.
Arguments Root {float64}.
Arguments Transactions {float64}.
Arguments Leaves {float64}.
Arguments GenerateProof {float64}.

(** The parents of a level, pair by pair, nil children or not. *)
Fixpoint parents (nodes : list (option MerkleNode)) : list MerkleNode :=
  match nodes with
  | l :: r :: rest => NewMerkleNode l r [] :: parents rest
  | _ => []
  end.

(** What [padLeaves] returns: the last pointer once more when the count is
    odd. *)
Definition padded (nodes : list (option MerkleNode)) : list (option MerkleNode) :=
  if Nat.odd (length nodes) then nodes ++ [last nodes None] else nodes.

End Ptr.

(** A tree of values as a tree of pointers, none of them nil. *)
Definition withPointers {float64 : Type} (mt : MerkleTree float64)
  : Ptr.MerkleTree float64 :=
  {| Ptr.Root := Root mt;
     Ptr.Transactions := map Some (Transactions mt);
     Ptr.Leaves := map Some (Leaves mt) |}.

(** ** The ledger and the block chain of the account demo

    [Transaction], [Account.ApplyTransaction], [computeTxHash], [hashBlock],
    [MineBlock], [NewGenesisBlock], [NewBlock], [printChain],
    [PrintStatement] and the replay loop of [main]. The arithmetic and the
    [%f] and [%.2f] texts of [float64], and the two RFC 3339 texts of
    [time.Time], are taken as given; [time.Now()] is an argument.
    [Account.Transactions], [Block.Hash] and [Block.Transactions] carry the
    name of their struct, since [Transaction] has fields of these names. A
    [uint64] is a [Z] reduced modulo 2^64, an [int] that is incremented a
    [Z] wrapped to 64 bits. *)

From Stdlib Require DecimalString.

Module Ledger.

Section WithFloatAndTime.

Variable float64 : Type.
Variable fadd : float64 -> float64 -> float64.
Variable fsub : float64 -> float64 -> float64.
Variable fgt : float64 -> float64 -> bool.
Variable formatf : float64 -> string.
Variable format2f : float64 -> string.
Variable time_Time : Type.
Variable formatRFC3339Nano : time_Time -> string.
Variable formatRFC3339 : time_Time -> string.

Definition TransactionType : Type := string.
Definition Credit : TransactionType := "credit"%string.
Definition Debit : TransactionType := "debit"%string.

Record Transaction : Type :=
  mkTransaction
    { ID : Z; Hash : string; From : string; To : string; Time : time_Time;
      Description : string; Amount : float64; Type_ : TransactionType }.

Record Account : Type :=
  mkAccount
    { Address : string; Owner : string; Balance : float64;
      Account_Transactions : list Transaction }.

(** [fmt.Sprintf("%d", z)]. *)
Definition itoa (z : Z) : string := DecimalString.NilZero.string_of_int (Z.to_int z).

(** [a.ApplyTransaction(t)]: the account after the call and the error, nil
    as [None]. *)
Definition ApplyTransaction (a : Account) (t : Transaction)
  : Account * option string :=
  let switch : Account + string :=
    if String.eqb (Type_ t) Credit then
      inl {| Address := Address a; Owner := Owner a;
             Balance := fadd (Balance a) (Amount t);
             Account_Transactions := Account_Transactions a |}
    else if String.eqb (Type_ t) Debit then
      if fgt (Amount t) (Balance a) then
        inr ("insufficient funds for tx " ++ itoa (ID t))%string
      else
        inl {| Address := Address a; Owner := Owner a;
               Balance := fsub (Balance a) (Amount t);
               Account_Transactions := Account_Transactions a |}
    else inr ("unknown transaction type: " ++ Type_ t)%string in
  match switch with
  | inr err => (a, Some err)
  | inl a =>
      ({| Address := Address a; Owner := Owner a; Balance := Balance a;
          Account_Transactions := Account_Transactions a ++ [t] |}, None)
  end.

Record Block : Type :=
  mkBlock
    { Index : Z; Timestamp : time_Time; Nonce : Z; PrevHash : string;
      Block_Hash : string; Block_Transactions : list Transaction }.

(** [computeTxHash]: the writes to the hash, in order, then ["0x"] and the
    hexadecimal text of the sum. *)
Definition computeTxHash (t : Transaction) : string :=
  let h := [] in
  let h := h ++ bytes (itoa (ID t)) in
  let h := h ++ bytes (From t) in
  let h := h ++ bytes (To t) in
  let h := h ++ bytes (formatRFC3339Nano (Time t)) in
  let h := h ++ bytes (Description t) in
  let h := h ++ bytes (formatf (Amount t)) in
  let h := h ++ bytes (Type_ t) in
  ("0x" ++ Hex.EncodeToString (Sum256 h))%string.

(** [hashBlock]: index, nonce, previous hash, timestamp, then the hash of
    each transaction. *)
Definition hashBlock (b : Block) : string :=
  let h := [] in
  let h := h ++ bytes (itoa (Index b)) in
  let h := h ++ bytes (itoa (Nonce b)) in
  let h := h ++ bytes (PrevHash b) in
  let h := h ++ bytes (formatRFC3339Nano (Timestamp b)) in
  let h := fold_left (fun h tx => h ++ bytes (Hash tx)) (Block_Transactions b) h in
  ("0x" ++ Hex.EncodeToString (Sum256 h))%string.

(** [strings.Repeat(s, count)]. *)
Definition Repeat (s : string) (count : Z) : outcome string :=
  if count <? 0 then Panic "strings: negative Repeat count"
  else Ret (String.concat EmptyString (repeat s (Z.to_nat count))).

(** [b.Hash = hash] and [b.Nonce++] on a block. *)
Definition setHash (b : Block) (hash : string) : Block :=
  {| Index := Index b; Timestamp := Timestamp b; Nonce := Nonce b;
     PrevHash := PrevHash b; Block_Hash := hash;
     Block_Transactions := Block_Transactions b |}.

Definition setNonce (b : Block) (nonce : Z) : Block :=
  {| Index := Index b; Timestamp := Timestamp b; Nonce := nonce;
     PrevHash := PrevHash b; Block_Hash := Block_Hash b;
     Block_Transactions := Block_Transactions b |}.

(** The loop of [MineBlock]; the block is the one [b] points to. *)
Fixpoint mineLoop (fuel : nat) (b : Block) (target : string) : outcome Block :=
  match fuel with
  | O => OutOfFuel
  | S fuel' =>
      let hash := hashBlock b in
      if String.prefix target hash then Ret (setHash b hash)
      else mineLoop fuel' (setNonce b ((Nonce b + 1) mod 2 ^ 64)) target
  end.

(** [MineBlock(b, difficulty)]. *)
Definition MineBlock (fuel : nat) (b : Block) (difficulty : Z) : outcome Block :=
  zeros <- Repeat "0"%string difficulty ;;
  let target := ("0x" ++ zeros)%string in
  mineLoop fuel b target.

(** An [int] after an addition. *)
Definition wrapInt (z : Z) : Z := (z + 2 ^ 63) mod 2 ^ 64 - 2 ^ 63.

(** [NewGenesisBlock(difficulty)], [now] the value of [time.Now()]. *)
Definition NewGenesisBlock (fuel : nat) (now : time_Time) (difficulty : Z)
  : outcome Block :=
  let b :=
    {| Index := 0; Timestamp := now; Nonce := 0;
       PrevHash := "0x0000000000000000000000000000000000000000000000000000000000000000"%string;
       Block_Hash := EmptyString; Block_Transactions := [] |} in
  MineBlock fuel b difficulty.

(** [NewBlock(prev, txs, difficulty)]. *)
Definition NewBlock (fuel : nat) (now : time_Time) (prev : Block)
  (txs : list Transaction) (difficulty : Z) : outcome Block :=
  let b :=
    {| Index := wrapInt (Index prev + 1); Timestamp := now; Nonce := 0;
       PrevHash := Block_Hash prev; Block_Hash := EmptyString;
       Block_Transactions := txs |} in
  MineBlock fuel b difficulty.

(** The loop of [main] that applies the transactions of the chain to the
    account, with the lines it prints. *)
Definition applyChain (a : Account) (chain : list Block)
  : Account * list string :=
  fold_left
    (fun st b =>
       fold_left
         (fun '(a, out) tx =>
            match ApplyTransaction a tx with
            | (a, Some err) => (a, out ++ [("error applying tx: " ++ err)%string])
            | (a, None) => (a, out)
            end)
         (Block_Transactions b) st)
    chain (a, []).

(** One transaction line of [printChain]; the slices are taken, left to
    right, before anything of the line is written. *)
Definition printChainTx (tx : Transaction) : outcome string :=
  from <- sliceTo (From tx) 10 ;;
  to <- sliceTo (To tx) 10 ;;
  Ret ("    - Tx " ++ itoa (ID tx) ++ ": " ++ (from ++ "...") ++ " -> "
       ++ (to ++ "...") ++ " | " ++ format2f (Amount tx)
       ++ " (" ++ Type_ tx ++ ")" ++ nl)%string.

(** The loops of [printChain], [out] the text written so far. *)
Fixpoint printChainTxs (txs : list Transaction) (out : string) : outcome string :=
  match txs with
  | [] => Ret out
  | tx :: rest =>
      line <- printChainTx tx ;;
      printChainTxs rest (out ++ line)
  end.

Fixpoint printChainBlocks (chain : list Block) (out : string) : outcome string :=
  match chain with
  | [] => Ret out
  | b :: rest =>
      let out := (out ++ "Block #" ++ itoa (Index b) ++ nl)%string in
      let out := (out ++ "  Timestamp : " ++ formatRFC3339 (Timestamp b) ++ nl)%string in
      let out := (out ++ "  Nonce     : " ++ itoa (Nonce b) ++ nl)%string in
      prev <- sliceTo (PrevHash b) 20 ;;
      let out := (out ++ "  PrevHash  : " ++ (prev ++ "...") ++ nl)%string in
      hash <- sliceTo (Block_Hash b) 20 ;;
      let out := (out ++ "  Hash      : " ++ (hash ++ "...") ++ nl)%string in
      let out := (out ++ "  Tx count  : " ++ itoa (len (Block_Transactions b)) ++ nl)%string in
      out <- printChainTxs (Block_Transactions b) out ;;
      printChainBlocks rest (out ++ nl)
  end.

(** [printChain(chain)]: the text written to the standard output. *)
Definition printChain (chain : list Block) : outcome string :=
  let out := ("=== Blockchain ============================================" ++ nl)%string in
  out <- printChainBlocks chain out ;;
  Ret (out ++ "===========================================================" ++ nl)%string.

(** The loop of [PrintStatement]. *)
Fixpoint printStatementTxs (txs : list Transaction) (out : string) : outcome string :=
  match txs with
  | [] => Ret out
  | t :: rest =>
      let sign := if String.eqb (Type_ t) Debit then "-"%string else "+"%string in
      hash <- sliceTo (Hash t) 16 ;;
      let out := (out ++ "Tx " ++ itoa (ID t) ++ " (" ++ (hash ++ "...") ++ ")" ++ nl)%string in
      let out := (out ++ "  Time   : " ++ formatRFC3339 (Time t) ++ nl)%string in
      let out := (out ++ "  From   : " ++ From t ++ nl)%string in
      let out := (out ++ "  To     : " ++ To t ++ nl)%string in
      let out := (out ++ "  Type   : " ++ Type_ t ++ nl)%string in
      let out := (out ++ "  Amount : " ++ sign ++ format2f (Amount t) ++ nl)%string in
      let out := (out ++ "  Note   : " ++ Description t ++ nl ++ nl)%string in
      printStatementTxs rest out
  end.

(** [a.PrintStatement()]: the text written to the standard output. *)
Definition PrintStatement (a : Account) : outcome string :=
  let out := (nl ++ "=== Account Statement =====================================" ++ nl)%string in
  let out := (out ++ "Owner   : " ++ Owner a ++ nl)%string in
  let out := (out ++ "Address : " ++ Address a ++ nl ++ nl)%string in
  out <- printStatementTxs (Account_Transactions a) out ;;
  let out := (out ++ "Final balance: " ++ format2f (Balance a) ++ nl)%string in
  Ret (out ++ "===========================================================" ++ nl ++ nl)%string.

End WithFloatAndTime.

Arguments Transaction : clear implicits.
Arguments Account : clear implicits.
Arguments Block : clear implicits.
Arguments mkTransaction {float64 time_Time}.
Arguments ID {float64 time_Time}.
Arguments Hash {float64 time_Time}.
Arguments From {float64 time_Time}.
Arguments To {float64 time_Time}.
Arguments Time {float64 time_Time}.
Arguments Description {float64 time_Time}.
Arguments Amount {float64 time_Time}.
Arguments Type_ {float64 time_Time}.
Arguments mkAccount {float64 time_Time}.
Arguments Address {float64 time_Time}.
Arguments Owner {float64 time_Time}.
Arguments Balance {float64 time_Time}.
Arguments Account_Transactions {float64 time_Time}.
Arguments mkBlock {float64 time_Time}.
Arguments Index {float64 time_Time}.
Arguments Timestamp {float64 time_Time}.
Arguments Nonce {float64 time_Time}.
Arguments PrevHash {float64 time_Time}.
Arguments Block_Hash {float64 time_Time}.
Arguments Block_Transactions {float64 time_Time}.
Arguments ApplyTransaction {float64} fadd fsub fgt {time_Time}.
Arguments computeTxHash {float64} formatf {time_Time} formatRFC3339Nano.
Arguments hashBlock {float64 time_Time} formatRFC3339Nano.
Arguments setHash {float64 time_Time}.
Arguments setNonce {float64 time_Time}.
Arguments mineLoop {float64 time_Time} formatRFC3339Nano.
Arguments MineBlock {float64 time_Time} formatRFC3339Nano.
Arguments NewGenesisBlock {float64 time_Time} formatRFC3339Nano.
Arguments NewBlock {float64 time_Time} formatRFC3339Nano.
Arguments applyChain {float64} fadd fsub fgt {time_Time}.
Arguments printChainTx {float64} format2f {time_Time}.
Arguments printChainTxs {float64} format2f {time_Time}.
Arguments printChainBlocks {float64} format2f {time_Time} formatRFC3339.
Arguments printChain {float64} format2f {time_Time} formatRFC3339.
Arguments printStatementTxs {float64} format2f {time_Time} formatRFC3339.
Arguments PrintStatement {float64} format2f {time_Time} formatRFC3339.

End Ledger.

(** ** The signing demo *)

Module Sign.

Section WithFloat.

Variable float64 : Type.
Variable formatf : float64 -> string.

Record Transaction : Type :=
  mkTransaction { From : string; To : string; Amount : float64 }.

(** [hashTransaction]: the hash of [fmt.Sprintf("%s%s%f", tx.From, tx.To, tx.Amount)]. *)
Definition hashTransaction (tx : Transaction) : list byte :=
  let data := (From tx ++ To tx ++ formatf (Amount tx))%string in
  Sum256 (bytes data).

End WithFloat.

Arguments mkTransaction {float64}.
Arguments From {float64}.
Arguments To {float64}.
Arguments Amount {float64}.
Arguments hashTransaction {float64}.

End Sign.

(** [Subseq s t]: [s] is [t] with some elements left out, the order kept. *)
Inductive Subseq {A : Type} : list A -> list A -> Prop :=
| Subseq_nil : Subseq [] []
| Subseq_skip (x : A) (s t : list A) : Subseq s t -> Subseq s (x :: t)
| Subseq_keep (x : A) (s t : list A) : Subseq s t -> Subseq (x :: s) (x :: t).

(** The times of the examples are carried by their RFC 3339 text. *)
Definition stamped (s : string) : string := s.

(** A block to mine: the shape [NewGenesisBlock] starts from, at a fixed
    time. *)
Definition block0 : Ledger.Block string string :=
  Ledger.mkBlock 0 "2024-01-01T00:00:00Z"%string 0
    "0x0000000000000000000000000000000000000000000000000000000000000000"%string
    EmptyString [].

(** The block a run of [MineBlock] returns, for the examples. *)
Definition mined (fuel : nat) (b : Ledger.Block string string) (difficulty : Z)
  : Ledger.Block string string :=
  match Ledger.MineBlock stamped fuel b difficulty with
  | Ret b' => b'
  | _ => b
  end.

(** The genesis block and a block after it, as the runs return them, for
    the examples. *)
Definition genesis1 : Ledger.Block string string :=
  match Ledger.NewGenesisBlock stamped 200 "2024-01-01T00:00:00Z"%string 1 with
  | Ret b => b
  | _ => block0
  end.

Definition block1 : Ledger.Block string string :=
  match Ledger.NewBlock stamped 200 "2024-01-01T01:00:00Z"%string genesis1 [] 1 with
  | Ret b => b
  | _ => block0
  end.

(** A deposit with its hash set as [main] does, and the block after
    [block1] that holds it. *)
Definition deposit : Ledger.Transaction string string :=
  let raw :=
    Ledger.mkTransaction 1 EmptyString
      "0xA1cE000000000000000000000000000000000001"%string
      "0xAbC1234567890defABC1234567890defABC12345"%string
      "2024-01-01T00:30:00Z"%string "Initial deposit"%string
      "1000.000000"%string Ledger.Credit in
  Ledger.mkTransaction (Ledger.ID raw) (Ledger.computeTxHash printed stamped raw)
    (Ledger.From raw) (Ledger.To raw) (Ledger.Time raw)
    (Ledger.Description raw) (Ledger.Amount raw) (Ledger.Type_ raw).

Definition block2 : Ledger.Block string string :=
  match Ledger.NewBlock stamped 200 "2024-01-01T02:00:00Z"%string block1 [deposit] 1 with
  | Ret b => b
  | _ => block0
  end.

(** Whole amounts, which a [float64] holds exactly up to 2^53, with their
    [%f] and [%.2f] texts. *)
Definition wholef (z : Z) : string := (Ledger.itoa z ++ ".000000")%string.

Definition whole2f (z : Z) : string := (Ledger.itoa z ++ ".00")%string.

(** An account, a deposit and a payment in whole amounts, hashes set as
    [main] does, and a chain of two hand-made blocks that holds them. *)
Definition devon : Ledger.Account Z string :=
  Ledger.mkAccount "0xAbC1234567890defABC1234567890defABC12345"%string
    "Devon"%string 0 [].

Definition hashed (raw : Ledger.Transaction Z string) : Ledger.Transaction Z string :=
  Ledger.mkTransaction (Ledger.ID raw) (Ledger.computeTxHash wholef stamped raw)
    (Ledger.From raw) (Ledger.To raw) (Ledger.Time raw)
    (Ledger.Description raw) (Ledger.Amount raw) (Ledger.Type_ raw).

Definition paidIn : Ledger.Transaction Z string :=
  hashed (Ledger.mkTransaction 1 EmptyString
            "0xA1cE000000000000000000000000000000000001"%string
            "0xAbC1234567890defABC1234567890defABC12345"%string
            "2024-01-01T00:30:00Z"%string "Initial deposit"%string
            1000 Ledger.Credit).

Definition paidOut : Ledger.Transaction Z string :=
  hashed (Ledger.mkTransaction 2 EmptyString
            "0xAbC1234567890defABC1234567890defABC12345"%string
            "0xB00k000000000000000000000000000000000004"%string
            "2024-01-01T01:30:00Z"%string "Book"%string
            25 Ledger.Debit).

Definition handMade : list (Ledger.Block Z string) :=
  [ Ledger.mkBlock 0 "2024-01-01T00:00:00Z"%string 0 EmptyString EmptyString [];
    Ledger.mkBlock 1 "2024-01-01T02:00:00Z"%string 0 EmptyString EmptyString
      [paidIn; paidOut] ].

(** [deposit] with another amount and the hash text left as it was. *)
Definition depositAltered : Ledger.Transaction string string :=
  Ledger.mkTransaction (Ledger.ID deposit) (Ledger.Hash deposit)
    (Ledger.From deposit) (Ledger.To deposit) (Ledger.Time deposit)
    (Ledger.Description deposit) "9000.000000"%string (Ledger.Type_ deposit).

(** ** Slices and trees of the examples *)

(** The digest of [tx2] among [tx1], [tx2] and [tx3], the root hash and the
    hashes of its proof, each in an array of its own, and the slices of the
    hashes. *)
Definition provenMemory : Mem.memory :=
  Transaction_Hash printed tx2
  :: rootHashOf (treeOf [tx1; tx2; tx3])
  :: Hashes (proofOf (treeOf [tx1; tx2; tx3]) 1).

Definition provenHashes : list Mem.slice :=
  [Mem.whole provenMemory 2; Mem.whole provenMemory 3].

(** The same with room for 32 more bytes behind the digest. *)
Definition roomyMemory : Mem.memory :=
  (Transaction_Hash printed tx2 ++ repeat x00 32)
  :: rootHashOf (treeOf [tx1; tx2; tx3])
  :: Hashes (proofOf (treeOf [tx1; tx2; tx3]) 1).

Definition roomyDigest : Mem.slice :=
  {| Mem.array := 0; Mem.off := 0; Mem.slen := 32; Mem.scap := 64 |}.

Definition roomyHashes : list Mem.slice :=
  [Mem.whole roomyMemory 2; Mem.whole roomyMemory 3].

(** Four transactions: the digests of [tx1] and [tx2], the hash of the node
    over them, the hash of the node over [tx3] and [tx4], and the root
    hash. *)
Definition splitMemory : Mem.memory :=
  [ Transaction_Hash printed tx1;
    Transaction_Hash printed tx2;
    Sum256 (Transaction_Hash printed tx1 ++ Transaction_Hash printed tx2);
    Sum256 (Transaction_Hash printed tx3 ++ Transaction_Hash printed tx4);
    rootHashOf (treeOf [tx1; tx2; tx3; tx4]) ].

(** Two transactions: the digest of [tx1], its first half, the digest of
    [tx2], the second half of the first digest followed by the second
    digest, and the root hash. *)
Definition resplitMemory : Mem.memory :=
  [ Transaction_Hash printed tx1;
    firstn 16 (Transaction_Hash printed tx1);
    Transaction_Hash printed tx2;
    skipn 16 (Transaction_Hash printed tx1) ++ Transaction_Hash printed tx2;
    rootHashOf (treeOf [tx1; tx2]) ].

(** Two transactions: one buffer that holds the digest of [tx1] and, behind
    it, the root hash; the digest of [tx2] in an array of its own. The
    slice of the digest has the whole buffer as its capacity. *)
Definition aliasedMemory : Mem.memory :=
  [ Transaction_Hash printed tx1 ++ rootHashOf (treeOf [tx1; tx2]);
    Transaction_Hash printed tx2 ].

Definition aliasedDigest : Mem.slice :=
  {| Mem.array := 0; Mem.off := 0; Mem.slen := 32; Mem.scap := 64 |}.

Definition aliasedRoot : Mem.slice :=
  {| Mem.array := 0; Mem.off := 32; Mem.slen := 32; Mem.scap := 32 |}.

(** Two transactions with the same text: a colon in [ID], or in [From]. *)
Definition colonInID := mkTransaction "a:b" "c" "Bob" "1.00"%string.
Definition colonInFrom := mkTransaction "a" "b:c" "Bob" "1.00"%string.

(** A tree made by hand whose second leaf is nil. *)
Definition nilLeafTree : Ptr.MerkleTree string :=
  {| Ptr.Root := None;
     Ptr.Transactions := [Some tx1; Some tx2; None];
     Ptr.Leaves := [Some (leafOf printed tx1); None; Some (leafOf printed tx3)] |}.

(** * Properties *)

(** ** Known digests *)

Example Sum256_abc :
  Hex.EncodeToString (SHA256.Sum256 (bytes "abc"))
  = "ba7816bf8f01cfea414140de5dae2223b00361a396177a9cb410ff61f20015ad"%string.
Proof. vm_compute. reflexivity. Qed.

Example Sum256_empty :
  Hex.EncodeToString (SHA256.Sum256 [])
  = "e3b0c44298fc1c149afbf4c8996fb92427ae41e4649b934ca495991b7852b855"%string.
Proof. vm_compute. reflexivity. Qed.

Example Sum256_two_blocks :
  Hex.EncodeToString (SHA256.Sum256
    (bytes "abcdbcdecdefdefgefghfghighijhijkijkljklmklmnlmnomnopnopq"))
  = "248d6a61d20638b8e5c026930c3e6039a33ce45964ff2167f6ecedd419db06c1"%string.
Proof. vm_compute. reflexivity. Qed.

Example tx1_hash :
  Hex.EncodeToString (Transaction_Hash printed tx1)
  = "3b98bd713328d58a15bd49610dd3c5fc07cdc242341e0c2b429d3fd57b65e3df"%string.
Proof. vm_compute. reflexivity. Qed.

Example three_transactions_root :
  GetRootHash (treeOf [tx1; tx2; tx3])
  = "fabf54c59fc50623d7a92061aff2b87140ce3aa0fef4f659c25b4c20793461ce"%string.
Proof. vm_compute. reflexivity. Qed.

(** ** Slices *)

Lemma len_app {A : Type} (s t : list A) : len (s ++ t) = len s + len t.
Proof. unfold len. rewrite length_app. lia. Qed.

Lemma len_nonneg {A : Type} (s : list A) : 0 <= len s.
Proof. unfold len. lia. Qed.

Lemma index_nth_error {A : Type} (s : list A) (n : nat) (a : A) :
  nth_error s n = Some a -> index s (Z.of_nat n) = Ret a.
Proof.
  intros E. unfold index, len.
  assert (n < length s)%nat by (apply nth_error_Some; congruence).
  replace (Z.of_nat n <? 0) with false by (symmetry; apply Z.ltb_ge; lia).
  replace (Z.of_nat (length s) <=? Z.of_nat n) with false
    by (symmetry; apply Z.leb_gt; lia).
  simpl. rewrite Nat2Z.id, E. reflexivity.
Qed.

Lemma index_Ret_inv {A : Type} (s : list A) (i : Z) (a : A) :
  index s i = Ret a -> 0 <= i < len s /\ nth_error s (Z.to_nat i) = Some a.
Proof.
  unfold index. destruct (i <? 0) eqn:E1; [discriminate |].
  destruct (len s <=? i) eqn:E2; [discriminate |]. simpl.
  destruct (nth_error s (Z.to_nat i)) eqn:E3; [| discriminate].
  intros [= ->]. apply Z.ltb_ge in E1. apply Z.leb_gt in E2. auto.
Qed.

Lemma index_out_of_range {A : Type} (s : list A) (i : Z) :
  i < 0 \/ len s <= i -> index s i = Panic "index out of range".
Proof.
  intros H. unfold index.
  destruct (i <? 0) eqn:E1; [reflexivity |].
  destruct (len s <=? i) eqn:E2; [reflexivity |].
  apply Z.ltb_ge in E1. apply Z.leb_gt in E2. lia.
Qed.

Lemma nth_error_middle {A : Type} (pre suf : list A) (a : A) :
  nth_error (pre ++ a :: suf) (length pre) = Some a.
Proof. induction pre; simpl; auto. Qed.

Lemma index_middle {A : Type} (pre suf : list A) (a : A) :
  index (pre ++ a :: suf) (len pre) = Ret a.
Proof. apply index_nth_error, nth_error_middle. Qed.

Lemma index_last {A : Type} (s : list A) (a : A) :
  index (s ++ [a]) (len (s ++ [a]) - 1) = Ret a.
Proof.
  replace (len (s ++ [a]) - 1) with (len s).
  - apply index_middle.
  - rewrite len_app. unfold len. simpl. lia.
Qed.

(** Parity of a length, as the code tests it. *)
Lemma rem2_of_nat (n : nat) : (Z.rem (Z.of_nat n) 2 =? 0) = Nat.even n.
Proof.
  rewrite Z.rem_mod_nonneg by lia.
  destruct (Nat.even n) eqn:E.
  - apply Nat.even_spec in E. destruct E as [k ->].
    apply Z.eqb_eq. rewrite Nat2Z.inj_mul. simpl (Z.of_nat 2).
    rewrite Z.mul_comm. apply Z.mod_mul. lia.
  - apply Z.eqb_neq. intros H.
    assert (Nat.odd n = true) as O by (rewrite <- Nat.negb_even, E; reflexivity).
    apply Nat.odd_spec in O. destruct O as [k ->].
    revert H. Z.to_euclidean_division_equations. lia.
Qed.

Lemma len_zero {A : Type} (s : list A) : (len s =? 0) = false <-> s <> [].
Proof.
  rewrite Z.eqb_neq. unfold len. destruct s; cbn [length]; split;
    intros; try congruence; lia.
Qed.

(** ** The padding statements and the inner loops *)

Lemma dupLast_snoc (s : list MerkleNode) (a : MerkleNode) :
  dupLast (s ++ [a]) = s ++ [a; a].
Proof.
  unfold dupLast. rewrite rev_unit, <- app_assoc. reflexivity.
Qed.

Lemma index_last_dup (s : list MerkleNode) :
  s <> [] -> exists a, index s (len s - 1) = Ret a /\ dupLast s = s ++ [a].
Proof.
  intros H. destruct (exists_last H) as (s' & a & ->).
  exists a. split; [apply index_last |].
  rewrite dupLast_snoc, <- app_assoc. reflexivity.
Qed.

Lemma padLeaves_eq (nodes : list MerkleNode) :
  padLeaves nodes = Ret (paddedLeaves nodes).
Proof.
  unfold padLeaves, paddedLeaves, len.
  rewrite rem2_of_nat, Nat.negb_even.
  destruct (Nat.odd (length nodes)) eqn:O; [| reflexivity].
  destruct (index_last_dup nodes) as (a & E & ->).
  - intros ->. discriminate.
  - unfold len in E. rewrite E. reflexivity.
Qed.

Lemma padLevel_eq (level : list MerkleNode) :
  padLevel level = Ret (paddedLevel level).
Proof.
  unfold padLevel, paddedLevel, len.
  rewrite rem2_of_nat, Nat.negb_even.
  replace (1 <? Z.of_nat (length level)) with (1 <? length level)%nat.
  2: { destruct (Nat.ltb_spec 1 (length level));
       [symmetry; apply Z.ltb_lt | symmetry; apply Z.ltb_ge]; lia. }
  destruct (Nat.odd (length level) && (1 <? length level)%nat) eqn:O;
    [| reflexivity].
  destruct (index_last_dup level) as (a & E & ->).
  - intros ->. discriminate.
  - unfold len in E. rewrite E. reflexivity.
Qed.

Lemma pairLoop_from (fuel : nat) :
  forall (pre suf level : list MerkleNode) (b : nat),
    length suf = (2 * b)%nat -> (b <= fuel)%nat ->
    pairLoop fuel (pre ++ suf) (len pre) level = Ret (level ++ pairs suf).
Proof.
  induction fuel as [| fuel IH]; intros pre suf level b Hsuf Hb.
  - assert (b = 0%nat) by lia. subst b. destruct suf; [| discriminate].
    simpl. rewrite app_nil_r, Z.ltb_irrefl, app_nil_r. reflexivity.
  - destruct suf as [| l [| r suf]]; simpl in Hsuf.
    + simpl. rewrite !app_nil_r, Z.ltb_irrefl. reflexivity.
    + lia.
    + cbn [pairLoop].
      replace (len pre <? len (pre ++ l :: r :: suf)) with true.
      2: { symmetry. apply Z.ltb_lt. rewrite len_app. unfold len.
           cbn [length]. lia. }
      rewrite index_middle.
      replace (pre ++ l :: r :: suf) with ((pre ++ [l]) ++ r :: suf)
        by (rewrite <- app_assoc; reflexivity).
      replace (len pre + 1) with (len (pre ++ [l]))
        by (rewrite len_app; reflexivity).
      rewrite index_middle. cbn [bind].
      replace ((pre ++ [l]) ++ r :: suf) with ((pre ++ [l; r]) ++ suf)
        by (rewrite <- !app_assoc; reflexivity).
      replace (len pre + 2) with (len (pre ++ [l; r]))
        by (rewrite len_app; reflexivity).
      rewrite (IH _ suf _ (b - 1)%nat) by lia.
      simpl. rewrite <- app_assoc. reflexivity.
Qed.

Lemma pairLoop_eq (nodes : list MerkleNode) :
  Nat.even (length nodes) = true ->
  pairLoop (length nodes) nodes 0 [] = Ret (pairs nodes).
Proof.
  intros E. apply Nat.even_spec in E. destruct E as [b E].
  apply (pairLoop_from (length nodes) [] nodes [] b); lia.
Qed.

(** The facts one iteration at offset [len pre] needs. *)
Lemma pair_step (pre suf : list MerkleNode) (l r : MerkleNode) :
  (len pre <? len (pre ++ l :: r :: suf)) = true
  /\ index (pre ++ l :: r :: suf) (len pre) = Ret l
  /\ index (pre ++ l :: r :: suf) (len pre + 1) = Ret r
  /\ pre ++ l :: r :: suf = (pre ++ [l; r]) ++ suf
  /\ len pre + 2 = len (pre ++ [l; r]).
Proof.
  repeat split.
  - apply Z.ltb_lt. rewrite len_app. unfold len. cbn [length]. lia.
  - apply index_middle.
  - replace (pre ++ l :: r :: suf) with ((pre ++ [l]) ++ r :: suf)
      by (rewrite <- app_assoc; reflexivity).
    replace (len pre + 1) with (len (pre ++ [l]))
      by (rewrite len_app; reflexivity).
    apply index_middle.
  - rewrite <- app_assoc. reflexivity.
  - rewrite len_app. reflexivity.
Qed.

(** Once the current node lies behind the loop index, the rest of the inner
    loop of [GenerateProof] only builds parents. *)
Lemma proofPairLoop_passed (fuel : nat) :
  forall (pre suf level : list MerkleNode) (proof : MerkleProof) (cur : Z) (b : nat),
    length suf = (2 * b)%nat -> (b <= fuel)%nat -> cur < len pre ->
    proofPairLoop fuel (pre ++ suf) (len pre) proof cur level
    = Ret (proof, cur, level ++ pairs suf).
Proof.
  induction fuel as [| fuel IH]; intros pre suf level proof cur b Hsuf Hb Hcur.
  - assert (b = 0%nat) by lia. subst b. destruct suf; [| discriminate].
    simpl. rewrite app_nil_r, Z.ltb_irrefl, app_nil_r. reflexivity.
  - destruct suf as [| l [| r suf]]; simpl in Hsuf.
    + simpl. rewrite !app_nil_r, Z.ltb_irrefl. reflexivity.
    + lia.
    + destruct (pair_step pre suf l r) as (Hlt & Hl & Hr & Hsh & Hlen).
      cbn [proofPairLoop]. rewrite Hlt.
      replace (len pre =? cur) with false by (symmetry; apply Z.eqb_neq; lia).
      replace (len pre + 1 =? cur) with false by (symmetry; apply Z.eqb_neq; lia).
      cbn [orb bind]. rewrite Hl, Hr. cbn [bind].
      rewrite Hsh, Hlen, (IH _ suf _ _ _ (b - 1)%nat).
      * simpl. rewrite <- app_assoc. reflexivity.
      * lia.
      * lia.
      * rewrite <- Hlen. lia.
Qed.

(** The iteration that meets the current node records its sibling and moves
    the current index to the parent. *)
Lemma proofPairLoop_found (fuel : nat) :
  forall (pre suf level : list MerkleNode) (proof : MerkleProof) (c a b : nat),
    length pre = (2 * a)%nat -> length suf = (2 * b)%nat -> (b <= fuel)%nat ->
    (2 * a <= c < 2 * a + 2 * b)%nat ->
    exists sib,
      nth_error (pre ++ suf) (if Nat.even c then c + 1 else c - 1)%nat = Some sib
      /\ proofPairLoop fuel (pre ++ suf) (len pre) proof (Z.of_nat c) level
         = Ret ({| Hashes := Hashes proof ++ [Hash sib];
                   Positions := Positions proof ++ [Nat.even c] |},
                Z.of_nat (c / 2), level ++ pairs suf).
Proof.
  induction fuel as [| fuel IH]; intros pre suf level proof c a b Hpre Hsuf Hb Hc.
  - lia.
  - destruct suf as [| l [| r suf]]; cbn [length] in Hsuf; try lia.
    destruct (pair_step pre suf l r) as (Hlt & Hl & Hr & Hsh & Hlen).
    assert (Hq : Z.quot (len pre) 2 = Z.of_nat a) by (unfold len; elia).
    cbn [proofPairLoop]. rewrite Hlt.
    destruct (Nat.eq_dec c (2 * a)) as [E | NE];
      [| destruct (Nat.eq_dec c (2 * a + 1)) as [E | NE']].
    + (* the current node is the left one of this pair *)
      subst c. exists r.
      assert (Nat.even (2 * a) = true) as Ev
          by (apply Nat.even_spec; exists a; reflexivity).
      rewrite Ev. split.
      * rewrite Hsh, nth_error_app1 by (rewrite length_app; cbn [length]; lia).
        replace (2 * a + 1)%nat with (length (pre ++ [l])) 
          by (rewrite length_app; cbn [length]; lia).
        replace (pre ++ [l; r]) with ((pre ++ [l]) ++ r :: [])
          by (rewrite <- app_assoc; reflexivity).
        apply nth_error_middle.
      * replace (len pre =? Z.of_nat (2 * a)) with true
          by (symmetry; apply Z.eqb_eq; unfold len; lia).
        cbn [orb]. rewrite Hl, Hr. cbn [bind].
        rewrite Hsh, Hlen, Hq.
        rewrite (proofPairLoop_passed fuel _ suf _ _ _ (b - 1)%nat)
          by (try rewrite <- Hlen; unfold len; lia).
        replace (2 * a / 2)%nat with a by elia.
        rewrite <- app_assoc. reflexivity.
    + (* the current node is the right one of this pair *)
      subst c. exists l.
      assert (Nat.even (2 * a + 1) = false) as Ev.
      { rewrite <- Nat.negb_odd.
        replace (Nat.odd (2 * a + 1)) with true; [reflexivity |].
        symmetry. apply Nat.odd_spec. exists a. reflexivity. }
      rewrite Ev. split.
      * replace (2 * a + 1 - 1)%nat with (length pre) by lia.
        apply nth_error_middle.
      * replace (len pre =? Z.of_nat (2 * a + 1)) with false
          by (symmetry; apply Z.eqb_neq; unfold len; lia).
        replace (len pre + 1 =? Z.of_nat (2 * a + 1)) with true
          by (symmetry; apply Z.eqb_eq; unfold len; lia).
        cbn [orb]. rewrite Hl, Hr. cbn [bind].
        rewrite Hsh, Hlen, Hq.
        rewrite (proofPairLoop_passed fuel _ suf _ _ _ (b - 1)%nat)
          by (try rewrite <- Hlen; unfold len; lia).
        replace ((2 * a + 1) / 2)%nat with a by elia.
        rewrite <- app_assoc. reflexivity.
    + (* the current node lies further right *)
      replace (len pre =? Z.of_nat c) with false
        by (symmetry; apply Z.eqb_neq; unfold len; lia).
      replace (len pre + 1 =? Z.of_nat c) with false
        by (symmetry; apply Z.eqb_neq; unfold len; lia).
      cbn [orb bind]. rewrite Hl, Hr. cbn [bind].
      rewrite Hsh, Hlen.
      destruct (IH (pre ++ [l; r]) suf
                   (level ++ [NewMerkleNode (Some l) (Some r) []]) proof c
                   (a + 1)%nat (b - 1)%nat) as (sib & Hsib & Hrun).
      * rewrite length_app. cbn [length]. lia.
      * lia.
      * lia.
      * lia.
      * exists sib. split; [exact Hsib |].
        rewrite Hrun. cbn [pairs]. rewrite <- app_assoc. reflexivity.
Qed.

(** Whatever the current index, the inner loop of [GenerateProof] runs to
    its end on an even number of nodes and builds the row of parents. *)
Lemma proofPairLoop_returns (fuel : nat) :
  forall (pre suf level : list MerkleNode) (proof : MerkleProof) (cur : Z) (b : nat),
    length suf = (2 * b)%nat -> (b <= fuel)%nat ->
    exists proof' cur',
      proofPairLoop fuel (pre ++ suf) (len pre) proof cur level
      = Ret (proof', cur', level ++ pairs suf).
Proof.
  induction fuel as [| fuel IH]; intros pre suf level proof cur b Hsuf Hb.
  - assert (b = 0%nat) by lia. subst b. destruct suf; [| discriminate].
    exists proof, cur. simpl.
    rewrite app_nil_r, Z.ltb_irrefl, app_nil_r. reflexivity.
  - destruct suf as [| l [| r suf]]; cbn [length] in Hsuf.
    + exists proof, cur. simpl. rewrite !app_nil_r, Z.ltb_irrefl. reflexivity.
    + lia.
    + destruct (pair_step pre suf l r) as (Hlt & Hl & Hr & Hsh & Hlen).
      cbn [proofPairLoop]. rewrite Hlt, Hl, Hr.
      destruct ((len pre =? cur) || (len pre + 1 =? cur));
        [destruct (len pre =? cur) |]; cbn [bind]; rewrite Hsh, Hlen;
        match goal with
        | |- context [proofPairLoop fuel _ _ ?p ?c ?lv] =>
            destruct (IH (pre ++ [l; r]) suf lv p c (b - 1)%nat)
              as (proof' & cur' & E); [lia | lia |]
        end;
        exists proof', cur'; rewrite E; cbn [pairs];
        rewrite <- app_assoc; reflexivity.
Qed.

(** Both lists of the proof grow together in the inner loop. *)
Lemma proofPairLoop_lengths (fuel : nat) :
  forall nodes i proof cur level proof' cur' level',
    proofPairLoop fuel nodes i proof cur level = Ret (proof', cur', level') ->
    length (Hashes proof) = length (Positions proof) ->
    length (Hashes proof') = length (Positions proof').
Proof.
  induction fuel as [| fuel IH];
    intros nodes i proof cur level proof' cur' level' H L;
    cbn [proofPairLoop] in H; destruct (i <? len nodes);
    try discriminate; try (injection H as <- <- <-; exact L).
  destruct (index nodes i) as [l | | |]; cbn [bind] in H;
    try (destruct ((i =? cur) || (i + 1 =? cur)), (i =? cur),
           (index nodes (i + 1)); discriminate).
  destruct (index nodes (i + 1)) as [r | | |]; cbn [bind] in H;
    try (destruct ((i =? cur) || (i + 1 =? cur)), (i =? cur); discriminate).
  destruct ((i =? cur) || (i + 1 =? cur)); [destruct (i =? cur) |];
    cbn [bind] in H; apply IH in H; try exact H;
    cbn [Hashes Positions]; rewrite ?length_app; cbn [length]; lia.
Qed.

Lemma proofLoop_lengths (fuel : nat) :
  forall nodes proof cur proof',
    proofLoop fuel nodes proof cur = Ret proof' ->
    length (Hashes proof) = length (Positions proof) ->
    length (Hashes proof') = length (Positions proof').
Proof.
  induction fuel as [| fuel IH]; intros nodes proof cur proof' H L;
    cbn [proofLoop] in H; destruct (1 <? len nodes);
    try discriminate; try (injection H as <-; exact L).
  destruct (proofPairLoop (length nodes) nodes 0 proof cur [])
    as [[[p c] lv] | | |] eqn:E; cbn [bind] in H; try discriminate.
  rewrite padLevel_eq in H. cbn [bind] in H.
  apply IH in H; [exact H |].
  exact (proofPairLoop_lengths _ _ _ _ _ _ _ _ _ E L).
Qed.

(** ** The shape of the levels *)

Lemma list_pair_ind {A : Type} (P : list A -> Prop) :
  P [] -> (forall a, P [a]) -> (forall a b l, P l -> P (a :: b :: l)) ->
  forall l, P l.
Proof.
  intros H0 H1 H2.
  assert (forall l, P l /\ forall a, P (a :: l)) as H.
  { induction l as [| b l [IH1 IH2]]; split; auto. }
  intros l. apply H.
Qed.

Lemma length_pairs (nodes : list MerkleNode) :
  length (pairs nodes) = (length nodes / 2)%nat.
Proof.
  induction nodes as [| a | a b l IH] using list_pair_ind; try reflexivity.
  cbn [pairs length]. rewrite IH. elia.
Qed.

Lemma dupLast_cases (s : list MerkleNode) :
  s <> [] -> exists a, In a s /\ dupLast s = s ++ [a].
Proof.
  intros H. destruct (exists_last H) as (s' & a & ->).
  exists a. split.
  - apply in_or_app. right. left. reflexivity.
  - rewrite dupLast_snoc, <- app_assoc. reflexivity.
Qed.

Lemma paddedLevel_cases (level : list MerkleNode) :
  (paddedLevel level = level
   /\ (Nat.odd (length level) && (1 <? length level)%nat) = false)
  \/ (exists a, In a level /\ paddedLevel level = level ++ [a]
      /\ Nat.odd (length level) = true /\ (1 < length level)%nat).
Proof.
  unfold paddedLevel.
  destruct (Nat.odd (length level) && (1 <? length level)%nat) eqn:E.
  - right. apply andb_prop in E. destruct E as [O L].
    apply Nat.ltb_lt in L.
    destruct (dupLast_cases level) as (a & Ha & ->).
    + intros ->. simpl in L. lia.
    + exists a. auto.
  - left. auto.
Qed.

Lemma paddedLeaves_cases (nodes : list MerkleNode) :
  (paddedLeaves nodes = nodes /\ Nat.odd (length nodes) = false)
  \/ (exists a, In a nodes /\ paddedLeaves nodes = nodes ++ [a]
      /\ Nat.odd (length nodes) = true).
Proof.
  unfold paddedLeaves. destruct (Nat.odd (length nodes)) eqn:O.
  - right. destruct (dupLast_cases nodes) as (a & Ha & ->).
    + intros ->. discriminate.
    + exists a. auto.
  - left. auto.
Qed.

Lemma odd_even_nat (n : nat) : Nat.odd n = negb (Nat.even n).
Proof. symmetry. apply Nat.negb_even. Qed.

Lemma even_succ_odd (n : nat) : Nat.odd n = true -> Nat.even (n + 1) = true.
Proof.
  intros O. replace (n + 1)%nat with (S n) by lia.
  rewrite Nat.even_succ. exact O.
Qed.

Lemma level_ok_paddedLeaves (nodes : list MerkleNode) :
  nodes <> [] -> level_ok (paddedLeaves nodes).
Proof.
  intros H. right.
  destruct (paddedLeaves_cases nodes) as [[-> O] | (a & _ & -> & O)].
  - rewrite odd_even_nat in O. apply negb_false_iff in O. split; [exact O |].
    destruct nodes as [| x [| y l]]; simpl in *; try congruence; lia.
  - rewrite length_app. cbn [length]. split; [apply even_succ_odd, O |].
    destruct nodes; [congruence | cbn [length]; lia].
Qed.

Lemma level_ok_nextLevel (nodes : list MerkleNode) :
  level_ok nodes -> (1 < length nodes)%nat ->
  level_ok (nextLevel nodes)
  /\ (length (nextLevel nodes) < length nodes)%nat
  /\ (length nodes / 2 <= length (nextLevel nodes))%nat.
Proof.
  intros [H | [Ev H]] L; [lia |].
  unfold nextLevel.
  pose proof (length_pairs nodes) as Lp.
  apply Nat.even_spec in Ev. destruct Ev as [k Ek].
  destruct (paddedLevel_cases (pairs nodes))
    as [[-> O] | (a & _ & -> & O & G)].
  - repeat split; try elia.
    apply andb_false_iff in O. destruct O as [O | O].
    + rewrite odd_even_nat in O. apply negb_false_iff in O.
      destruct (Nat.eq_dec (length (pairs nodes)) 1) as [E1 | N1];
        [left; exact E1 | right].
      split; [exact O | elia].
    + apply Nat.ltb_ge in O. left. elia.
  - unfold level_ok. rewrite length_app. cbn [length].
    repeat split; try elia.
    right. split; [apply even_succ_odd, O | lia].
Qed.

Lemma nth_error_paddedLevel (level : list MerkleNode) (k : nat) :
  (k < length level)%nat -> nth_error (paddedLevel level) k = nth_error level k.
Proof.
  intros H.
  destruct (paddedLevel_cases level) as [[-> _] | (a & _ & -> & _)];
    [reflexivity | apply nth_error_app1, H].
Qed.

Lemma nth_error_paddedLeaves (nodes : list MerkleNode) (k : nat) :
  (k < length nodes)%nat ->
  nth_error (paddedLeaves nodes) k = nth_error nodes k.
Proof.
  intros H.
  destruct (paddedLeaves_cases nodes) as [[-> _] | (a & _ & -> & _)];
    [reflexivity | apply nth_error_app1, H].
Qed.

Lemma pairs_nth (k : nat) :
  forall (nodes : list MerkleNode) (x y : MerkleNode),
    nth_error nodes (2 * k) = Some x -> nth_error nodes (2 * k + 1) = Some y ->
    nth_error (pairs nodes) k = Some (NewMerkleNode (Some x) (Some y) []).
Proof.
  induction k as [| k IH]; intros nodes x y Hx Hy.
  - destruct nodes as [| a [| b l]]; simpl in *; try discriminate.
    congruence.
  - replace (2 * S k)%nat with (S (S (2 * k))) in Hx by lia.
    replace (2 * S k + 1)%nat with (S (S (2 * k + 1))) in Hy by lia.
    destruct nodes as [| a [| b l]]; simpl in Hx, Hy; try discriminate.
    cbn [pairs nth_error]. apply IH; assumption.
Qed.

Lemma Hash_parent (x y : MerkleNode) (data : list byte) :
  Hash (NewMerkleNode (Some x) (Some y) data) = Sum256 (Hash x ++ Hash y).
Proof. reflexivity. Qed.

(** ** The loop of VerifyProof *)

Lemma verifyLoop_eq (hashes : list (list byte)) :
  forall (pre positions : list bool) (currentHash : list byte),
    (length hashes <= length positions)%nat ->
    verifyLoop (pre ++ positions) (len pre) hashes currentHash
    = Ret (climb currentHash hashes positions).
Proof.
  induction hashes as [| s hashes IH]; intros pre positions h L.
  - reflexivity.
  - destruct positions as [| p positions]; cbn [length] in L; [lia |].
    cbn [verifyLoop climb]. rewrite index_middle. cbn [bind].
    replace (pre ++ p :: positions) with ((pre ++ [p]) ++ positions)
      by (rewrite <- app_assoc; reflexivity).
    replace (len pre + 1) with (len (pre ++ [p]))
      by (rewrite len_app; reflexivity).
    apply IH. lia.
Qed.

Lemma verifyLoop_short (hashes : list (list byte)) :
  forall (pre positions : list bool) (currentHash : list byte),
    (length positions < length hashes)%nat ->
    verifyLoop (pre ++ positions) (len pre) hashes currentHash
    = Panic "index out of range".
Proof.
  induction hashes as [| s hashes IH]; intros pre positions h L;
    cbn [length] in L; [lia |].
  destruct positions as [| p positions]; cbn [verifyLoop].
  - rewrite index_out_of_range; [reflexivity |].
    right. rewrite app_nil_r. lia.
  - rewrite index_middle. cbn [bind].
    replace (pre ++ p :: positions) with ((pre ++ [p]) ++ positions)
      by (rewrite <- app_assoc; reflexivity).
    replace (len pre + 1) with (len (pre ++ [p]))
      by (rewrite len_app; reflexivity).
    apply IH. cbn [length] in L. lia.
Qed.

Lemma decode_byte (v : byte) :
  Byte.of_N (16 * undigit (Hex.digit (N.shiftr (Byte.to_N v) 4))
             + undigit (Hex.digit (N.land (Byte.to_N v) 0x0f)))%N = Some v.
Proof. destruct v; vm_compute; reflexivity. Qed.

Lemma EncodeToString_inj (a b : list byte) :
  Hex.EncodeToString a = Hex.EncodeToString b -> a = b.
Proof.
  revert b. induction a as [| v a IH]; intros [| w b] E;
    cbn [Hex.EncodeToString] in E; try discriminate; [reflexivity |].
  pose proof (decode_byte v) as Dv. pose proof (decode_byte w) as Dw.
  remember (Hex.digit (N.shiftr (Byte.to_N v) 4)) as v1.
  remember (Hex.digit (N.land (Byte.to_N v) 0x0f)) as v0.
  remember (Hex.digit (N.shiftr (Byte.to_N w) 4)) as w1.
  remember (Hex.digit (N.land (Byte.to_N w) 0x0f)) as w0.
  injection E as E1 E2 E3. rewrite E1, E2, Dw in Dv. injection Dv as ->.
  f_equal. apply IH, E3.
Qed.

Lemma hex_eqb_true (a b : list byte) :
  String.eqb (Hex.EncodeToString a) (Hex.EncodeToString b) = true <-> a = b.
Proof.
  rewrite String.eqb_eq. split; [apply EncodeToString_inj | congruence].
Qed.

(** [VerifyProof] on a proof with enough positions. *)
Lemma VerifyProof_eq (txHash rootHash : list byte) (p : MerkleProof) :
  (length (Hashes p) <= length (Positions p))%nat ->
  VerifyProof txHash (Some p) rootHash
  = Ret (String.eqb
           (Hex.EncodeToString (climb txHash (Hashes p) (Positions p)))
           (Hex.EncodeToString rootHash)).
Proof.
  intros L. unfold VerifyProof.
  pose proof (verifyLoop_eq (Hashes p) [] (Positions p) txHash L) as E.
  cbn [app] in E. change (len (@nil bool)) with 0 in E.
  rewrite E. reflexivity.
Qed.

Lemma VerifyProof_true (txHash rootHash : list byte) (p : MerkleProof) :
  (length (Hashes p) <= length (Positions p))%nat ->
  climb txHash (Hashes p) (Positions p) = rootHash ->
  VerifyProof txHash (Some p) rootHash = Ret true.
Proof.
  intros L E. rewrite VerifyProof_eq by exact L. f_equal.
  apply hex_eqb_true, E.
Qed.

(** ** The level loops *)

(** Run on the same level with the same fuel, the loop of [NewMerkleTree]
    ends on a single node and the loop of [GenerateProof] appends to the
    proof the path from the current node to that node. *)
Lemma loops_spec (fuel : nat) :
  forall (nodes : list MerkleNode) (proof : MerkleProof) (c : nat),
    level_ok nodes -> (c < length nodes)%nat -> (length nodes <= fuel)%nat ->
    exists root hs ps,
      buildLoop fuel nodes = Ret [root]
      /\ proofLoop fuel nodes proof (Z.of_nat c)
         = Ret {| Hashes := Hashes proof ++ hs;
                  Positions := Positions proof ++ ps |}
      /\ Path nodes c hs ps root.
Proof.
  induction fuel as [| fuel IH]; intros nodes proof c Hok Hc Hfuel; [lia |].
  destruct (Nat.eq_dec (length nodes) 1) as [E1 | N1].
  - (* the root *)
    destruct nodes as [| root [| ? ?]]; try discriminate.
    assert (c = 0%nat) by (simpl in Hc; lia). subst c.
    exists root, [], []. repeat split.
    + rewrite !app_nil_r. destruct proof. reflexivity.
    + constructor.
  - destruct Hok as [? | [Ev G]]; [contradiction |].
    assert ((1 <? len nodes) = true) as Hlt by (apply Z.ltb_lt; unfold len; lia).
    pose proof Ev as Ev'. apply Nat.even_spec in Ev'. destruct Ev' as [b Eb].
    destruct (proofPairLoop_found (length nodes) [] nodes [] proof c 0 b)
      as (sib & Hsib & Hrun); try (cbn [length]; lia).
    destruct (level_ok_nextLevel nodes) as (Hok' & Hdec & Hhalf);
      [right; auto | lia |].
    destruct (IH (nextLevel nodes)
                 {| Hashes := Hashes proof ++ [Hash sib];
                    Positions := Positions proof ++ [Nat.even c] |}
                 (c / 2)%nat Hok') as (root & hs & ps & Hb & Hp & Hpath);
      [elia | lia |].
    exists root, (Hash sib :: hs), (Nat.even c :: ps). repeat split.
    + cbn [buildLoop]. rewrite Hlt, (pairLoop_eq nodes Ev). cbn [bind].
      rewrite padLevel_eq. cbn [bind]. exact Hb.
    + cbn [proofLoop]. rewrite Hlt.
      change nodes with ([] ++ nodes) at 2. change 0 with (len (@nil MerkleNode)).
      rewrite Hrun. cbn [bind app]. rewrite padLevel_eq. cbn [bind].
      fold (nextLevel nodes). rewrite Hp. cbn [Hashes Positions].
      rewrite <- !app_assoc. reflexivity.
    + apply Path_step; [lia | exact Hsib | exact Hpath].
Qed.

(** The level loop of [GenerateProof] returns a proof from any level of the
    shape the loop keeps, and from the empty level, whatever the current
    index. *)
Lemma proofLoop_returns (fuel : nat) :
  forall (nodes : list MerkleNode) (proof : MerkleProof) (cur : Z),
    nodes = [] \/ level_ok nodes -> (length nodes <= fuel)%nat ->
    exists proof', proofLoop fuel nodes proof cur = Ret proof'.
Proof.
  induction fuel as [| fuel IH]; intros nodes proof cur Hok Hfuel.
  - destruct nodes; [| cbn [length] in Hfuel; lia].
    exists proof. reflexivity.
  - destruct (Nat.le_gt_cases (length nodes) 1) as [L | G].
    + exists proof. cbn [proofLoop].
      replace (1 <? len nodes) with false
        by (symmetry; apply Z.ltb_ge; unfold len; lia).
      reflexivity.
    + destruct Hok as [-> | Hok]; [cbn [length] in G; lia |].
      destruct (level_ok_nextLevel nodes Hok G) as (Hok' & Hdec & _).
      destruct Hok as [? | [Ev _]]; [lia |].
      apply Nat.even_spec in Ev. destruct Ev as [b Eb].
      destruct (proofPairLoop_returns (length nodes) [] nodes [] proof cur b)
        as (proof1 & cur1 & E1); [exact Eb | lia |].
      destruct (IH (nextLevel nodes) proof1 cur1) as (proof' & E');
        [right; exact Hok' | lia |].
      exists proof'. cbn [proofLoop].
      replace (1 <? len nodes) with true
        by (symmetry; apply Z.ltb_lt; unfold len; lia).
      change nodes with ([] ++ nodes) at 2.
      change 0 with (len (@nil MerkleNode)).
      rewrite E1. cbn [bind app]. rewrite padLevel_eq. cbn [bind].
      exact E'.
Qed.

(** [GenerateProof] returns a proof for every index within
    [mt.Transactions], on any tree. *)
Lemma GenerateProof_returns (float64 : Type) (mt : MerkleTree float64) (i : Z) :
  0 <= i < len (Transactions mt) ->
  exists proof, GenerateProof mt i = Ret proof.
Proof.
  intros Hi. unfold GenerateProof.
  replace (i <? 0) with false by (symmetry; apply Z.ltb_ge; lia).
  replace (len (Transactions mt) <=? i) with false
    by (symmetry; apply Z.leb_gt; lia).
  cbn [orb]. rewrite padLeaves_eq. cbn [bind].
  apply proofLoop_returns; [| lia].
  destruct (Leaves mt) as [| n l] eqn:E; [left; reflexivity | right].
  apply level_ok_paddedLeaves. discriminate.
Qed.

(** Following a path with [climb] rebuilds the hash of the root. *)
Lemma Path_climb (nodes : list MerkleNode) (c : nat) (hs : list (list byte))
  (ps : list bool) (root : MerkleNode) :
  Path nodes c hs ps root -> level_ok nodes -> (c < length nodes)%nat ->
  exists n, nth_error nodes c = Some n /\ climb (Hash n) hs ps = Hash root.
Proof.
  induction 1 as [root | nodes c sib hs ps root G Hsib Hpath IH];
    intros Hok Hc.
  - exists root. split; reflexivity.
  - destruct (level_ok_nextLevel nodes Hok G) as (Hok' & _ & Hhalf).
    destruct Hok as [? | [Ev _]]; [lia |].
    apply Nat.even_spec in Ev. destruct Ev as [b Eb].
    destruct (IH Hok') as (parent & Hparent & Hclimb); [elia |].
    destruct (nth_error nodes c) as [n |] eqn:Hn;
      [| apply nth_error_None in Hn; lia].
    exists n. split; [reflexivity |].
    unfold nextLevel in Hparent.
    rewrite nth_error_paddedLevel in Hparent by (rewrite length_pairs; elia).
    cbn [climb]. destruct (Nat.even c) eqn:Ec.
    + apply Nat.even_spec in Ec. destruct Ec as [k ->].
      replace (2 * k / 2)%nat with k in Hparent by elia.
      rewrite (pairs_nth k nodes n sib Hn Hsib) in Hparent.
      injection Hparent as <-. rewrite <- Hash_parent with (data := []).
      exact Hclimb.
    + assert (Nat.odd c = true) as Oc by (rewrite odd_even_nat, Ec; reflexivity).
      apply Nat.odd_spec in Oc. destruct Oc as [k ->].
      replace ((2 * k + 1) / 2)%nat with k in Hparent by elia.
      replace (2 * k + 1 - 1)%nat with (2 * k)%nat in Hsib by lia.
      rewrite (pairs_nth k nodes sib n Hsib Hn) in Hparent.
      injection Hparent as <-. rewrite <- Hash_parent with (data := []).
      exact Hclimb.
Qed.

Lemma Path_lengths (nodes : list MerkleNode) (c : nat) (hs : list (list byte))
  (ps : list bool) (root : MerkleNode) :
  Path nodes c hs ps root -> length hs = length ps.
Proof. induction 1; cbn [length]; congruence. Qed.

(** Padding an odd count above one does not add a level. *)
Lemma log2_up_succ_odd (k : Z) :
  1 < k -> Z.odd k = true -> Z.log2_up (k + 1) = Z.log2_up k.
Proof.
  intros G O.
  pose proof (Z.log2_up_spec k G) as [Lo Hi].
  pose proof (Z.log2_up_pos k G) as Pos.
  apply Z.log2_up_unique; [exact Pos |].
  split; [lia |].
  assert (k <> 2 ^ Z.log2_up k); [| lia].
  intros E. rewrite E in O.
  replace (Z.log2_up k) with (Z.succ (Z.pred (Z.log2_up k))) in O by lia.
  rewrite Z.pow_succ_r, Z.odd_mul in O by lia. discriminate.
Qed.

(** A path has one entry per halving of the level. *)
Lemma Path_log2 (nodes : list MerkleNode) (c : nat) (hs : list (list byte))
  (ps : list bool) (root : MerkleNode) :
  Path nodes c hs ps root -> level_ok nodes ->
  len hs = Z.log2_up (len nodes).
Proof.
  induction 1 as [root | nodes c sib hs ps root G Hsib Hpath IH]; intros Hok.
  - reflexivity.
  - destruct (level_ok_nextLevel nodes Hok G) as (Hok' & _ & _).
    specialize (IH Hok'). unfold len in *. cbn [length].
    rewrite Nat2Z.inj_succ, IH.
    destruct Hok as [? | [Ev _]]; [lia |].
    apply Nat.even_spec in Ev. destruct Ev as [b Eb].
    pose proof (length_pairs nodes) as Lp. rewrite Eb in Lp.
    replace (2 * b / 2)%nat with b in Lp by elia.
    rewrite Eb, Nat2Z.inj_mul. change (Z.of_nat 2) with 2.
    rewrite Z.log2_up_double by lia.
    f_equal. unfold nextLevel.
    destruct (paddedLevel_cases (pairs nodes))
      as [[-> _] | (a & _ & -> & O & G')].
    + rewrite Lp. reflexivity.
    + rewrite length_app, Lp. cbn [length]. rewrite Lp in O, G'.
      rewrite Nat2Z.inj_add. change (Z.of_nat 1) with 1.
      apply log2_up_succ_odd; [lia |].
      apply Nat.odd_spec in O. destruct O as [m ->].
      rewrite Nat2Z.inj_add, Nat2Z.inj_mul. change (Z.of_nat 2) with 2.
      change (Z.of_nat 1) with 1. rewrite Z.add_comm, Z.odd_add_mul_2.
      reflexivity.
Qed.

Lemma Path_Builds (nodes : list MerkleNode) (c : nat) (hs : list (list byte))
  (ps : list bool) (root : MerkleNode) :
  Path nodes c hs ps root -> Builds nodes root.
Proof.
  induction 1; [apply Builds_root | apply Builds_level; assumption].
Qed.

Lemma TreeOver_pairs (leaves nodes : list MerkleNode) :
  Forall (TreeOver leaves) nodes -> Forall (TreeOver leaves) (pairs nodes).
Proof.
  induction nodes as [| a | a b l IH] using list_pair_ind; intros H;
    cbn [pairs]; try constructor.
  - inversion H as [| ? ? Ha H']. inversion H' as [| ? ? Hb H''].
    apply TreeOver_internal; auto.
  - inversion H as [| ? ? Ha H']. inversion H' as [| ? ? Hb H'']. auto.
Qed.

Lemma Forall_snoc_In {A : Type} (P : A -> Prop) (s : list A) (a : A) :
  Forall P s -> In a s -> Forall P (s ++ [a]).
Proof.
  intros H Ha. apply Forall_app. split; [exact H |].
  constructor; [| constructor]. rewrite Forall_forall in H. auto.
Qed.

Lemma TreeOver_nextLevel (leaves nodes : list MerkleNode) :
  Forall (TreeOver leaves) nodes -> Forall (TreeOver leaves) (nextLevel nodes).
Proof.
  intros H. apply TreeOver_pairs in H. unfold nextLevel.
  destruct (paddedLevel_cases (pairs nodes)) as [[-> _] | (a & Ha & -> & _)];
    [exact H | apply Forall_snoc_In; assumption].
Qed.

Lemma Path_TreeOver (leaves nodes : list MerkleNode) (c : nat)
  (hs : list (list byte)) (ps : list bool) (root : MerkleNode) :
  Path nodes c hs ps root -> Forall (TreeOver leaves) nodes ->
  TreeOver leaves root.
Proof.
  induction 1 as [root | nodes c sib hs ps root G Hsib Hpath IH]; intros H.
  - inversion H. assumption.
  - apply IH, TreeOver_nextLevel, H.
Qed.

(** ** Trees built by NewMerkleTree *)

Section Built.

Variable float64 : Type.
Variable format2f : float64 -> string.

Lemma leafLoop_from (transactions : list (Transaction float64)) :
  forall nodes leaves : list MerkleNode,
    fold_left
      (fun '(nodes, leaves) tx =>
         let node := NewMerkleNode None None (Transaction_Hash format2f tx) in
         (nodes ++ [node], leaves ++ [node]))
      transactions (nodes, leaves)
    = (nodes ++ map (leafOf format2f) transactions, leaves ++ map (leafOf format2f) transactions).
Proof.
  induction transactions as [| tx txs IH]; intros nodes leaves; cbn [fold_left map].
  - rewrite !app_nil_r. reflexivity.
  - rewrite IH, <- !app_assoc. reflexivity.
Qed.

Lemma leafLoop_eq (transactions : list (Transaction float64)) :
  leafLoop format2f transactions
  = (map (leafOf format2f) transactions, map (leafOf format2f) transactions).
Proof. apply (leafLoop_from transactions [] []). Qed.

(** A non-empty list of transactions gives a tree, and that tree gives
    for every position the path from its leaf to the root. *)
Lemma NewMerkleTree_spec (transactions : list (Transaction float64)) :
  transactions <> [] ->
  exists root,
    NewMerkleTree format2f transactions
    = Ret {| Root := Some root; Transactions := transactions;
             Leaves := map (leafOf format2f) transactions |}
    /\ forall c, (c < length transactions)%nat ->
         exists hs ps,
           GenerateProof {| Root := Some root; Transactions := transactions;
                            Leaves := map (leafOf format2f) transactions |} (Z.of_nat c)
           = Ret {| Hashes := hs; Positions := ps |}
           /\ Path (paddedLeaves (map (leafOf format2f) transactions)) c hs ps root.
Proof.
  intros NE.
  set (leaves := map (leafOf format2f) transactions).
  assert (leaves <> []) as NE'.
  { subst leaves. destruct transactions; [congruence | discriminate]. }
  pose proof (level_ok_paddedLeaves leaves NE') as Hok.
  assert (forall c, (c < length transactions)%nat ->
                    (c < length (paddedLeaves leaves))%nat) as Hin.
  { intros c Hc. subst leaves.
    destruct (paddedLeaves_cases (map (leafOf format2f) transactions))
      as [[-> _] | (a & _ & -> & _)];
      rewrite ?length_app, length_map; lia. }
  destruct (loops_spec (length (paddedLeaves leaves)) (paddedLeaves leaves)
              {| Hashes := []; Positions := [] |} 0 Hok) as
    (root & _ & _ & Hbuild & _ & _).
  { apply Hin. destruct transactions; [congruence | cbn [length]; lia]. }
  { lia. }
  exists root. split.
  - unfold NewMerkleTree. apply len_zero in NE. rewrite NE, leafLoop_eq.
    fold leaves. rewrite padLeaves_eq. cbn [bind]. rewrite Hbuild.
    reflexivity.
  - intros c Hc.
    destruct (loops_spec (length (paddedLeaves leaves)) (paddedLeaves leaves)
                {| Hashes := []; Positions := [] |} c Hok (Hin c Hc))
      as (root' & hs & ps & Hbuild' & Hproof & Hpath); [lia |].
    assert (root' = root) by congruence. subst root'.
    exists hs, ps. split; [| exact Hpath].
    unfold GenerateProof. cbn [Transactions Leaves].
    replace (Z.of_nat c <? 0) with false by (symmetry; apply Z.ltb_ge; lia).
    replace (len transactions <=? Z.of_nat c) with false
      by (symmetry; apply Z.leb_gt; unfold len; lia).
    cbn [orb]. rewrite padLeaves_eq. cbn [bind]. exact Hproof.
Qed.

End Built.

Lemma built_proof (float64 : Type) (format2f : float64 -> string)
  (transactions : list (Transaction float64)) (i : Z) :
  0 <= i < len transactions ->
  exists root hs ps tx,
    NewMerkleTree format2f transactions
    = Ret {| Root := Some root; Transactions := transactions;
             Leaves := map (leafOf format2f) transactions |}
    /\ GenerateProof {| Root := Some root; Transactions := transactions;
                        Leaves := map (leafOf format2f) transactions |} i
       = Ret {| Hashes := hs; Positions := ps |}
    /\ Path (paddedLeaves (map (leafOf format2f) transactions))
            (Z.to_nat i) hs ps root
    /\ nth_error transactions (Z.to_nat i) = Some tx
    /\ nth_error (map (leafOf format2f) transactions) (Z.to_nat i)
       = Some (leafOf format2f tx).
Proof.
  intros Hi. unfold len in Hi.
  assert (transactions <> []) as NE
      by (intros ->; cbn [length] in Hi; lia).
  destruct (NewMerkleTree_spec float64 format2f transactions NE)
    as (root & Hnew & Hgen).
  destruct (Hgen (Z.to_nat i)) as (hs & ps & Hproof & Hpath); [lia |].
  rewrite Z2Nat.id in Hproof by lia.
  destruct (nth_error transactions (Z.to_nat i)) as [tx |] eqn:Htx;
    [| apply nth_error_None in Htx; lia].
  exists root, hs, ps, tx. repeat split; try assumption.
  apply map_nth_error, Htx.
Qed.

(** * The claims *)

(** C1. Round trip: for a tree built by [NewMerkleTree] from a non-empty
    sequence of transactions and every index [i] of it, [GenerateProof i]
    returns a proof, and [VerifyProof] of the [i]-th leaf digest (the hash
    of the [i]-th transaction), that proof and the root hash returns true. *)
Theorem round_trip (float64 : Type) (format2f : float64 -> string)
  (transactions : list (Transaction float64)) (i : Z) :
  0 <= i < len transactions ->
  exists mt root proof tx leaf,
    NewMerkleTree format2f transactions = Ret mt
    /\ Root mt = Some root
    /\ GenerateProof mt i = Ret proof
    /\ nth_error transactions (Z.to_nat i) = Some tx
    /\ nth_error (Leaves mt) (Z.to_nat i) = Some leaf
    /\ Hash leaf = Transaction_Hash format2f tx
    /\ VerifyProof (Hash leaf) (Some proof) (Hash root) = Ret true.
Proof.
  intros Hi.
  destruct (built_proof float64 format2f transactions i Hi)
    as (root & hs & ps & tx & Hnew & Hproof & Hpath & Htx & Hleaf).
  eexists _, root, _, tx, (leafOf format2f tx).
  split; [exact Hnew |]. split; [reflexivity |]. split; [exact Hproof |].
  split; [exact Htx |]. split; [exact Hleaf |]. split; [reflexivity |].
  assert (transactions <> []) as NE
      by (intros ->; unfold len in Hi; cbn [length] in Hi; lia).
  assert (Z.to_nat i < length (map (leafOf format2f) transactions))%nat as Hc
      by (rewrite length_map; unfold len in Hi; lia).
  destruct (Path_climb _ _ _ _ _ Hpath) as (n & Hn & Hclimb).
  - apply level_ok_paddedLeaves. destruct transactions; [congruence | discriminate].
  - rewrite <- (nth_error_paddedLeaves _ _ Hc) in Hleaf.
    apply nth_error_Some. congruence.
  - rewrite (nth_error_paddedLeaves _ _ Hc), Hleaf in Hn.
    injection Hn as <-.
    apply VerifyProof_true; cbn [Hashes Positions]; [| exact Hclimb].
    rewrite (Path_lengths _ _ _ _ _ Hpath). lia.
Qed.

Lemma round_trip_witness :
  exists mt root proof tx leaf,
    NewMerkleTree printed [tx1; tx2; tx3] = Ret mt
    /\ Root mt = Some root
    /\ GenerateProof mt 2 = Ret proof
    /\ nth_error [tx1; tx2; tx3] (Z.to_nat 2) = Some tx
    /\ nth_error (Leaves mt) (Z.to_nat 2) = Some leaf
    /\ Hash leaf = Transaction_Hash printed tx
    /\ VerifyProof (Hash leaf) (Some proof) (Hash root) = Ret true.
Proof.
  apply (round_trip string printed [tx1; tx2; tx3] 2).
  unfold len. cbn [length]. lia.
Defined.

(** C2 fails on the code: a proof with one hash and no position makes
    [VerifyProof] panic on [proof.Positions[0]]. *)
Lemma VerifyProof_panics_on_short_positions :
  VerifyProof (Transaction_Hash printed tx1)
    (Some {| Hashes := [Transaction_Hash printed tx2]; Positions := [] |})
    (Transaction_Hash printed tx1)
  = Panic "index out of range".
Proof. vm_compute. reflexivity. Qed.

(** C2, as the code has it. [VerifyProof] returns a boolean exactly when
    the proof pointer is not nil and [Positions] is at least as long as
    [Hashes]; on any other input it panics. *)
Theorem VerifyProof_returns (txHash rootHash : list byte)
  (proof : option MerkleProof) :
  ((exists b, VerifyProof txHash proof rootHash = Ret b)
   <-> (exists p, proof = Some p /\ len (Hashes p) <= len (Positions p)))
  /\ ((exists b, VerifyProof txHash proof rootHash = Ret b)
      \/ (exists msg, VerifyProof txHash proof rootHash = Panic msg)).
Proof.
  destruct proof as [p |].
  - destruct (Nat.le_gt_cases (length (Hashes p)) (length (Positions p)))
      as [L | G].
    + rewrite (VerifyProof_eq txHash rootHash p L). split.
      * split; intros _; [exists p; unfold len; split; [reflexivity | lia] |].
        eexists. reflexivity.
      * left. eexists. reflexivity.
    + assert (VerifyProof txHash (Some p) rootHash = Panic "index out of range")
        as E.
      { unfold VerifyProof.
        pose proof (verifyLoop_short (Hashes p) [] (Positions p) txHash G) as E.
        cbn [app] in E. change (len (@nil bool)) with 0 in E.
        rewrite E. reflexivity. }
      rewrite E. split.
      * split; [intros [b Hb]; discriminate |].
        intros (p' & [= <-] & Hp). unfold len in Hp. lia.
      * right. eexists. reflexivity.
  - cbn [VerifyProof]. split.
    + split; [intros [b Hb]; discriminate | intros (p & Hp & _); discriminate].
    + right. eexists. reflexivity.
Qed.

(** C3 fails on the code: the root of the tree of [tx1] alone is not the
    digest of [tx1], the proof for index 0 is not empty, and the empty proof
    does not verify the digest against the root. *)
Lemma single_leaf_root_is_not_the_leaf :
  NewMerkleTree printed [tx1] = Ret (treeOf [tx1])
  /\ rootHashOf (treeOf [tx1]) <> Transaction_Hash printed tx1
  /\ Hex.EncodeToString (rootHashOf (treeOf [tx1]))
     = "c9579dfa0306bb14f8c6c7db4c3de3606ce28a63c90c2bd77de64963963ceba2"%string
  /\ GenerateProof (treeOf [tx1]) 0
     = Ret {| Hashes := [Transaction_Hash printed tx1]; Positions := [true] |}
  /\ VerifyProof (Transaction_Hash printed tx1)
       (Some {| Hashes := []; Positions := [] |}) (rootHashOf (treeOf [tx1]))
     = Ret false.
Proof.
  split; [vm_compute; reflexivity |].
  split; [intros E; vm_compute in E; discriminate E |].
  repeat split; vm_compute; reflexivity.
Qed.

(** C3, as the code has it. A tree of one transaction with digest [d]: the
    leaf is paired with itself, the root is the internal node over the leaf
    twice with hash SHA-256 of [d ++ d]; [GenerateProof 0] returns the one
    entry ([d], sibling on the right), which verifies; the empty proof
    verifies [d] against the root only if [d] is SHA-256 of [d ++ d]. *)
Theorem single_leaf (float64 : Type) (format2f : float64 -> string)
  (tx : Transaction float64) :
  exists mt root leaf,
    NewMerkleTree format2f [tx] = Ret mt
    /\ Root mt = Some root
    /\ Leaves mt = [leaf]
    /\ leaf = {| Left := None; Right := None;
                 Hash := Transaction_Hash format2f tx |}
    /\ root = {| Left := Some leaf; Right := Some leaf;
                 Hash := Sum256 (Hash leaf ++ Hash leaf) |}
    /\ GenerateProof mt 0
       = Ret {| Hashes := [Hash leaf]; Positions := [true] |}
    /\ VerifyProof (Hash leaf)
         (Some {| Hashes := [Hash leaf]; Positions := [true] |}) (Hash root)
       = Ret true
    /\ (VerifyProof (Hash leaf)
          (Some {| Hashes := []; Positions := [] |}) (Hash root) = Ret true
        <-> Hash leaf = Sum256 (Hash leaf ++ Hash leaf)).
Proof.
  remember (Transaction_Hash format2f tx) as d eqn:Hd.
  eexists _, _, _.
  split.
  { unfold NewMerkleTree, leafLoop. cbn [fold_left len length Z.of_nat Z.eqb].
    rewrite <- Hd. cbn. reflexivity. }
  do 5 (split; [reflexivity |]).
  cbn [Hash NewMerkleNode app]. split.
  - apply VerifyProof_true; reflexivity.
  - rewrite VerifyProof_eq by reflexivity. cbn [climb Hashes Positions].
    split.
    + intros [= E]. apply hex_eqb_true, E.
    + intros E. f_equal. apply hex_eqb_true, E.
Qed.

(** C4 fails on the code: the leaf level of the tree of [tx1] alone has
    exactly one node, and it is duplicated and paired with itself; the
    root is the parent of that pair, not the leaf. *)
Lemma single_leaf_level_is_padded :
  exists leaf,
    Leaves (treeOf [tx1]) = [leaf]
    /\ NewMerkleTree printed [tx1] = Ret (treeOf [tx1])
    /\ padLeaves (Leaves (treeOf [tx1])) = Ret [leaf; leaf]
    /\ Root (treeOf [tx1]) = Some (NewMerkleNode (Some leaf) (Some leaf) [])
    /\ Root (treeOf [tx1]) <> Some leaf.
Proof.
  eexists. split; [vm_compute; reflexivity |].
  split; [vm_compute; reflexivity |].
  split; [vm_compute; reflexivity |].
  split; [vm_compute; reflexivity |].
  intros E. vm_compute in E. discriminate E.
Qed.

(** C4, as the code has it. The construction pads the leaf level whenever
    its number of nodes is odd, one included; it pads every later level
    when its number of nodes is odd and greater than one; padding appends
    the last node itself; a later level of one node is the root. The tree
    of [NewMerkleTree] is built by that rule: its root is reached from the
    padded leaves by [Builds]. *)
Theorem padding_rule (float64 : Type) (format2f : float64 -> string)
  (transactions : list (Transaction float64)) :
  transactions <> [] ->
  (forall nodes, padLeaves nodes = Ret (paddedLeaves nodes))
  /\ (forall level, padLevel level = Ret (paddedLevel level))
  /\ (forall s a,
         paddedLeaves (s ++ [a])
         = if Nat.odd (length (s ++ [a])) then s ++ [a; a] else s ++ [a])
  /\ (forall s a,
         paddedLevel (s ++ [a])
         = if Nat.odd (length (s ++ [a])) && (1 <? length (s ++ [a]))%nat
           then s ++ [a; a] else s ++ [a])
  /\ (forall fuel root, buildLoop fuel [root] = Ret [root])
  /\ exists mt root,
       NewMerkleTree format2f transactions = Ret mt
       /\ Root mt = Some root
       /\ Builds (paddedLeaves (Leaves mt)) root.
Proof.
  intros NE.
  split; [exact padLeaves_eq |]. split; [exact padLevel_eq |].
  split; [| split; [| split]].
  - intros s a. unfold paddedLeaves. rewrite dupLast_snoc. reflexivity.
  - intros s a. unfold paddedLevel. rewrite dupLast_snoc. reflexivity.
  - intros [| fuel] root; reflexivity.
  - destruct (NewMerkleTree_spec float64 format2f transactions NE)
      as (root & Hnew & Hgen).
    destruct (Hgen 0%nat) as (hs & ps & _ & Hpath).
    { destruct transactions; [congruence | cbn [length]; lia]. }
    eexists _, root. split; [exact Hnew |]. split; [reflexivity |].
    exact (Path_Builds _ _ _ _ _ Hpath).
Qed.

Lemma padding_rule_witness :
  exists mt root,
    NewMerkleTree printed [tx1; tx2; tx3] = Ret mt
    /\ Root mt = Some root
    /\ Builds (paddedLeaves (Leaves mt)) root.
Proof.
  destruct (padding_rule string printed [tx1; tx2; tx3]) as (_ & _ & _ & _ & _ & H).
  - discriminate.
  - exact H.
Defined.

(** C5. [NewMerkleNode] gives a leaf the data it is passed as its hash, and
    a node with two children the SHA-256 of the left child's hash followed
    by the right child's; in a tree built by [NewMerkleTree] the leaves
    carry the transactions' hashes verbatim, in order, and every node under
    the root is one of these leaves or an internal node with that hash. *)
Theorem node_hashes (float64 : Type) (format2f : float64 -> string)
  (transactions : list (Transaction float64)) :
  transactions <> [] ->
  (forall data, NewMerkleNode None None data
                = {| Left := None; Right := None; Hash := data |})
  /\ (forall l r data,
         NewMerkleNode (Some l) (Some r) data
         = {| Left := Some l; Right := Some r;
              Hash := Sum256 (Hash l ++ Hash r) |})
  /\ exists mt root,
       NewMerkleTree format2f transactions = Ret mt
       /\ Root mt = Some root
       /\ Leaves mt
          = map (fun tx => {| Left := None; Right := None;
                              Hash := Transaction_Hash format2f tx |})
                transactions
       /\ TreeOver (Leaves mt) root.
Proof.
  intros NE. split; [reflexivity |]. split; [reflexivity |].
  destruct (NewMerkleTree_spec float64 format2f transactions NE)
    as (root & Hnew & Hgen).
  destruct (Hgen 0%nat) as (hs & ps & _ & Hpath).
  { destruct transactions; [congruence | cbn [length]; lia]. }
  eexists _, root. split; [exact Hnew |]. split; [reflexivity |].
  split; [reflexivity |]. cbn [Leaves].
  apply (Path_TreeOver _ _ _ _ _ _ Hpath).
  apply Forall_forall. intros n Hn. apply TreeOver_leaf.
  destruct (paddedLeaves_cases (map (leafOf format2f) transactions))
    as [[E _] | (a & Ha & E & _)]; rewrite E in Hn; [exact Hn |].
  apply in_app_or in Hn. destruct Hn as [Hn | [<- | []]]; assumption.
Qed.

Lemma node_hashes_witness :
  exists mt root,
    NewMerkleTree printed [tx1; tx2; tx3] = Ret mt
    /\ Root mt = Some root
    /\ Leaves mt
       = map (fun tx => {| Left := None; Right := None;
                           Hash := Transaction_Hash printed tx |})
             [tx1; tx2; tx3]
    /\ TreeOver (Leaves mt) root.
Proof.
  destruct (node_hashes string printed [tx1; tx2; tx3]) as (_ & _ & H).
  - discriminate.
  - exact H.
Defined.

(** C6 fails on the code: when the first two of the four transactions are
    the same, [d0] is [d1] and verifies with the proof of index 1. *)
Lemma four_leaves_with_equal_digests :
  NewMerkleTree printed [tx1; tx1; tx3; tx4] = Ret (treeOf [tx1; tx1; tx3; tx4])
  /\ GenerateProof (treeOf [tx1; tx1; tx3; tx4]) 1
     = Ret {| Hashes := [Transaction_Hash printed tx1;
                         Sum256 (Transaction_Hash printed tx3
                                 ++ Transaction_Hash printed tx4)];
              Positions := [false; true] |}
  /\ VerifyProof (Transaction_Hash printed tx1)
       (Some {| Hashes := [Transaction_Hash printed tx1;
                           Sum256 (Transaction_Hash printed tx3
                                   ++ Transaction_Hash printed tx4)];
                Positions := [false; true] |})
       (rootHashOf (treeOf [tx1; tx1; tx3; tx4]))
     = Ret true.
Proof. repeat split; vm_compute; reflexivity. Qed.

(** C6, as the code has it. Four transactions with digests [d0 d1 d2 d3],
    whatever they are: the root hash is H(H(d0 ++ d1) ++ H(d2 ++ d3));
    [GenerateProof 1] returns ([d0], left), (H(d2 ++ d3), right); and [d1]
    verifies with it. Only the last part has a condition: [d0] does not
    verify, provided [d0] differs from [d1] and SHA-256 does not collide on
    the two pairs of inputs that verifying [d0] and [d1] hash. *)
Theorem four_leaves (float64 : Type) (format2f : float64 -> string)
  (t0 t1 t2 t3 : Transaction float64) :
  let d0 := Transaction_Hash format2f t0 in
  let d1 := Transaction_Hash format2f t1 in
  let d2 := Transaction_Hash format2f t2 in
  let d3 := Transaction_Hash format2f t3 in
  let proof := {| Hashes := [d0; Sum256 (d2 ++ d3)];
                  Positions := [false; true] |} in
  exists mt root,
    NewMerkleTree format2f [t0; t1; t2; t3] = Ret mt
    /\ Root mt = Some root
    /\ Hash root = Sum256 (Sum256 (d0 ++ d1) ++ Sum256 (d2 ++ d3))
    /\ GenerateProof mt 1 = Ret proof
    /\ VerifyProof d1 (Some proof) (Hash root) = Ret true
    /\ (d0 <> d1 ->
        ~ collide (d0 ++ d0) (d0 ++ d1) ->
        ~ collide (Sum256 (d0 ++ d0) ++ Sum256 (d2 ++ d3))
                  (Sum256 (d0 ++ d1) ++ Sum256 (d2 ++ d3)) ->
        VerifyProof d0 (Some proof) (Hash root) = Ret false).
Proof.
  intros d0 d1 d2 d3 proof.
  eexists _, _. split.
  { unfold NewMerkleTree, leafLoop. cbn [fold_left len length Z.of_nat Z.eqb].
    fold d0 d1 d2 d3. cbn. reflexivity. }
  do 3 (split; [reflexivity |]).
  cbn [Hash NewMerkleNode app]. split.
  - apply VerifyProof_true; reflexivity.
  - intros Hne Hc1 Hc2.
    rewrite VerifyProof_eq by reflexivity. f_equal.
    apply not_true_is_false. intros E. apply hex_eqb_true in E.
    cbn [climb proof Hashes Positions] in E.
    apply Hne.
    assert (Sum256 (d0 ++ d0) ++ Sum256 (d2 ++ d3)
            = Sum256 (d0 ++ d1) ++ Sum256 (d2 ++ d3)) as E1.
    { destruct (list_eq_dec Byte.byte_eq_dec
                  (Sum256 (d0 ++ d0) ++ Sum256 (d2 ++ d3))
                  (Sum256 (d0 ++ d1) ++ Sum256 (d2 ++ d3))) as [? | N];
        [assumption | exfalso; apply Hc2; split; assumption]. }
    apply app_inv_tail in E1.
    assert (d0 ++ d0 = d0 ++ d1) as E0.
    { destruct (list_eq_dec Byte.byte_eq_dec (d0 ++ d0) (d0 ++ d1)) as [? | N];
        [assumption | exfalso; apply Hc1; split; assumption]. }
    apply app_inv_head in E0. exact E0.
Qed.

Lemma four_leaves_witness :
  exists mt root,
    NewMerkleTree printed [tx1; tx2; tx3; tx4] = Ret mt
    /\ Root mt = Some root
    /\ Hash root
       = Sum256 (Sum256 (Transaction_Hash printed tx1 ++ Transaction_Hash printed tx2)
                 ++ Sum256 (Transaction_Hash printed tx3 ++ Transaction_Hash printed tx4))
    /\ GenerateProof mt 1
       = Ret {| Hashes := [Transaction_Hash printed tx1;
                           Sum256 (Transaction_Hash printed tx3
                                   ++ Transaction_Hash printed tx4)];
                Positions := [false; true] |}
    /\ VerifyProof (Transaction_Hash printed tx2)
         (Some {| Hashes := [Transaction_Hash printed tx1;
                             Sum256 (Transaction_Hash printed tx3
                                     ++ Transaction_Hash printed tx4)];
                  Positions := [false; true] |}) (Hash root)
       = Ret true
    /\ VerifyProof (Transaction_Hash printed tx1)
         (Some {| Hashes := [Transaction_Hash printed tx1;
                             Sum256 (Transaction_Hash printed tx3
                                     ++ Transaction_Hash printed tx4)];
                  Positions := [false; true] |}) (Hash root)
       = Ret false.
Proof.
  destruct (four_leaves string printed tx1 tx2 tx3 tx4)
    as (mt & root & Hnew & Hroot & Hhash & Hproof & Hd1 & Hd0).
  exists mt, root. do 5 (split; [assumption |]).
  apply Hd0.
  - intros E. vm_compute in E. discriminate E.
  - intros [_ E]. vm_compute in E. discriminate E.
  - intros [_ E]. vm_compute in E. discriminate E.
Defined.

(** C7 fails on the code: the proof in the tree of [tx1] alone has one
    entry, and ceil(log2(max(1, 1))) is 0. *)
Lemma single_leaf_proof_has_one_entry :
  NewMerkleTree printed [tx1] = Ret (treeOf [tx1])
  /\ GenerateProof (treeOf [tx1]) 0 = Ret (proofOf (treeOf [tx1]) 0)
  /\ len (Hashes (proofOf (treeOf [tx1]) 0)) = 1
  /\ Z.log2_up (Z.max (len [tx1]) 1) = 0
  /\ len (Hashes (proofOf (treeOf [tx1]) 0)) <> Z.log2_up (Z.max (len [tx1]) 1).
Proof.
  repeat split; try (vm_compute; reflexivity).
  vm_compute. discriminate.
Qed.

(** C7, as the code has it. For a tree built from [n >= 1] transactions
    and every index [i] of it, the proof of [GenerateProof i] has exactly
    ceil(log2(max(n, 2))) entries: ceil(log2 n) from two leaves on, and one
    entry for a single leaf. *)
Theorem proof_length (float64 : Type) (format2f : float64 -> string)
  (transactions : list (Transaction float64)) (i : Z) :
  0 <= i < len transactions ->
  exists mt proof,
    NewMerkleTree format2f transactions = Ret mt
    /\ GenerateProof mt i = Ret proof
    /\ len (Hashes proof) = Z.log2_up (Z.max (len transactions) 2).
Proof.
  intros Hi.
  destruct (built_proof float64 format2f transactions i Hi)
    as (root & hs & ps & tx & Hnew & Hproof & Hpath & _ & _).
  eexists _, _. split; [exact Hnew |]. split; [exact Hproof |].
  cbn [Hashes].
  assert (map (leafOf format2f) transactions <> []) as NE.
  { destruct transactions; [| discriminate].
    unfold len in Hi. cbn [length] in Hi. lia. }
  rewrite (Path_log2 _ _ _ _ _ Hpath (level_ok_paddedLeaves _ NE)).
  assert (length (map (leafOf format2f) transactions) = length transactions)
    as Lm by apply length_map.
  unfold len in *.
  destruct (paddedLeaves_cases (map (leafOf format2f) transactions))
    as [[-> O] | (a & _ & -> & O)].
  - rewrite Lm in *. f_equal.
    destruct (length transactions) as [| [| n]]; try lia. discriminate.
  - rewrite length_app, Lm in *. cbn [length].
    rewrite Nat2Z.inj_add. change (Z.of_nat 1) with 1.
    destruct (Nat.eq_dec (length transactions) 1) as [E | N].
    + rewrite E. reflexivity.
    + rewrite Z.max_l by lia. apply log2_up_succ_odd; [lia |].
      apply Nat.odd_spec in O. destruct O as [m ->].
      rewrite Nat2Z.inj_add, Nat2Z.inj_mul. change (Z.of_nat 2) with 2.
      change (Z.of_nat 1) with 1. rewrite Z.add_comm, Z.odd_add_mul_2.
      reflexivity.
Qed.

Lemma proof_length_witness :
  exists mt proof,
    NewMerkleTree printed [tx1; tx2; tx3] = Ret mt
    /\ GenerateProof mt 2 = Ret proof
    /\ len (Hashes proof) = Z.log2_up (Z.max (len [tx1; tx2; tx3]) 2).
Proof.
  apply (proof_length string printed [tx1; tx2; tx3] 2).
  unfold len. cbn [length]. lia.
Defined.

(** C8. [NewMerkleTree] of no transactions returns an error and no tree;
    on a built tree, [GenerateProof] of an index that is negative or not
    below the number of leaves returns an error and no proof, and leaves
    the tree as it was. *)
Theorem error_cases (float64 : Type) (format2f : float64 -> string)
  (transactions : list (Transaction float64))
  (mt : MerkleTree float64) (i : Z) :
  NewMerkleTree format2f transactions = Ret mt ->
  i < 0 \/ len (Leaves mt) <= i ->
  NewMerkleTree format2f []
  = Err "cannot create Merkle tree with no transactions"
  /\ len (Leaves mt) = len transactions
  /\ GenerateProof mt i = Err "transaction index out of bounds"
  /\ GenerateProof_on mt i = (mt, Err "transaction index out of bounds").
Proof.
  intros Hnew Hi. split; [reflexivity |].
  assert (transactions <> []) as NE by (intros ->; discriminate).
  destruct (NewMerkleTree_spec float64 format2f transactions NE)
    as (root & Hnew' & _).
  rewrite Hnew' in Hnew. injection Hnew as <-.
  cbn [Leaves] in *. unfold len in *. rewrite length_map in *.
  split; [reflexivity |].
  assert (GenerateProof
            {| Root := Some root; Transactions := transactions;
               Leaves := map (leafOf format2f) transactions |} i
          = Err "transaction index out of bounds") as E.
  { unfold GenerateProof. cbn [Transactions].
    destruct (Z.ltb_spec i 0) as [? | ?]; [reflexivity |].
    destruct (Z.leb_spec (len transactions) i) as [? | ?]; [reflexivity |].
    unfold len in *. lia. }
  split; [exact E |]. unfold GenerateProof_on. rewrite E. reflexivity.
Qed.

Lemma error_cases_witness :
  NewMerkleTree printed []
  = Err "cannot create Merkle tree with no transactions"
  /\ len (Leaves (treeOf [tx1; tx2])) = len [tx1; tx2]
  /\ GenerateProof (treeOf [tx1; tx2]) 2 = Err "transaction index out of bounds"
  /\ GenerateProof_on (treeOf [tx1; tx2]) 2
     = (treeOf [tx1; tx2], Err "transaction index out of bounds").
Proof.
  apply (error_cases string printed [tx1; tx2] (treeOf [tx1; tx2]) 2).
  - vm_compute. reflexivity.
  - right. vm_compute. discriminate.
Defined.

(** C9. On a proof with no hashes, [VerifyProof d proof r] returns true if
    [d] and [r] are the same bytes and false otherwise; so the root hash
    of any built tree verifies against itself with such a proof. *)
Theorem empty_proof (float64 : Type) (format2f : float64 -> string)
  (d r : list byte) (proof : MerkleProof) :
  Hashes proof = [] ->
  (VerifyProof d (Some proof) r = Ret true <-> d = r)
  /\ (VerifyProof d (Some proof) r = Ret false <-> d <> r)
  /\ (forall transactions mt root,
         NewMerkleTree format2f transactions = Ret mt ->
         Root mt = Some root ->
         VerifyProof (Hash root) (Some proof) (Hash root) = Ret true).
Proof.
  intros H.
  assert (forall a b, VerifyProof a (Some proof) b
                      = Ret (String.eqb (Hex.EncodeToString a)
                                        (Hex.EncodeToString b))) as E.
  { intros a b. rewrite VerifyProof_eq by (rewrite H; cbn [length]; lia).
    rewrite H. reflexivity. }
  split; [| split].
  - rewrite E. rewrite <- hex_eqb_true. split; [intros [= ->] | intros ->];
      reflexivity.
  - rewrite E. rewrite <- hex_eqb_true. split.
    + intros [= ->]. discriminate.
    + intros N. f_equal. apply not_true_is_false, N.
  - intros transactions mt root _ _. rewrite E. f_equal.
    apply hex_eqb_true. reflexivity.
Qed.

Lemma empty_proof_witness :
  (VerifyProof (Transaction_Hash printed tx1)
     (Some {| Hashes := []; Positions := [] |}) (Transaction_Hash printed tx2)
   = Ret false
   <-> Transaction_Hash printed tx1 <> Transaction_Hash printed tx2).
Proof.
  destruct (empty_proof string printed (Transaction_Hash printed tx1)
              (Transaction_Hash printed tx2)
              {| Hashes := []; Positions := [] |}) as (_ & H & _).
  - reflexivity.
  - exact H.
Defined.

(** C10. A proof returned by [GenerateProof], on any tree, has as many
    positions as hashes, so [VerifyProof] returns on it whatever the digest
    and root; on a built tree the proof is the path of the leaf: entry by
    entry the hash of the sibling, with true when the sibling is on the
    right (the path node sits at an even position) and false when it is on
    the left. *)
Theorem generated_proof_invariant (float64 : Type) (format2f : float64 -> string)
  (mt : MerkleTree float64) (i : Z)
  (proof : MerkleProof) :
  GenerateProof mt i = Ret proof ->
  len (Hashes proof) = len (Positions proof)
  /\ (forall txHash rootHash,
         exists b, VerifyProof txHash (Some proof) rootHash = Ret b)
  /\ (forall transactions root,
         NewMerkleTree format2f transactions = Ret mt ->
         Root mt = Some root ->
         Path (paddedLeaves (Leaves mt)) (Z.to_nat i)
              (Hashes proof) (Positions proof) root).
Proof.
  intros H.
  assert (length (Hashes proof) = length (Positions proof)) as L.
  { unfold GenerateProof in H.
    destruct ((i <? 0) || (len (Transactions mt) <=? i)); [discriminate |].
    rewrite padLeaves_eq in H. cbn [bind] in H.
    apply proofLoop_lengths in H; [exact H | reflexivity]. }
  split; [unfold len; congruence |]. split.
  - intros txHash rootHash. rewrite VerifyProof_eq by lia.
    eexists. reflexivity.
  - intros transactions root Hnew Hroot.
    assert (0 <= i < len transactions) as Hi.
    { assert (transactions <> []) as NE by (intros ->; discriminate).
      destruct (NewMerkleTree_spec float64 format2f transactions NE)
        as (root' & Hnew' & _).
      rewrite Hnew' in Hnew. injection Hnew as <-.
      unfold GenerateProof in H. cbn [Transactions] in H.
      destruct (Z.ltb_spec i 0); [discriminate |].
      destruct (Z.leb_spec (len transactions) i); [discriminate |]. lia. }
    destruct (built_proof float64 format2f transactions i Hi)
      as (root' & hs & ps & tx & Hnew' & Hproof & Hpath & _ & _).
    rewrite Hnew' in Hnew. injection Hnew as <-.
    cbn [Root] in Hroot. injection Hroot as <-.
    rewrite Hproof in H. injection H as <-. exact Hpath.
Qed.

Lemma generated_proof_invariant_witness :
  len (Hashes (proofOf (treeOf [tx1; tx2; tx3]) 2))
  = len (Positions (proofOf (treeOf [tx1; tx2; tx3]) 2)).
Proof.
  destruct (generated_proof_invariant string printed (treeOf [tx1; tx2; tx3]) 2
              (proofOf (treeOf [tx1; tx2; tx3]) 2)) as (H & _).
  - vm_compute. reflexivity.
  - exact H.
Defined.

(** * Further properties *)

(** ** Sizes of digests *)

Lemma length_bigEndian (n : nat) (x : Z) : length (SHA256.bigEndian n x) = n.
Proof. induction n as [| n IH]; cbn [SHA256.bigEndian length]; congruence. Qed.

Lemma length_Sum256 (data : list byte) : length (Sum256 data) = Size.
Proof.
  with_strategy transparent [SHA256.Sum256] (unfold SHA256.Sum256).
  destruct (SHA256.blocks _ _ _).
  rewrite !length_app, !length_bigEndian. reflexivity.
Qed.

Lemma length_EncodeToString (src : list byte) :
  String.length (Hex.EncodeToString src) = (2 * length src)%nat.
Proof.
  induction src as [| v src IH]; cbn [Hex.EncodeToString String.length length];
    [reflexivity | rewrite IH; lia].
Qed.

Lemma sized_pairs (nodes : list MerkleNode) : Forall sized (pairs nodes).
Proof.
  induction nodes as [| a | a b l IH] using list_pair_ind; cbn [pairs];
    constructor; [apply length_Sum256 | exact IH].
Qed.

Lemma sized_nextLevel (nodes : list MerkleNode) : Forall sized (nextLevel nodes).
Proof.
  unfold nextLevel.
  destruct (paddedLevel_cases (pairs nodes)) as [[-> _] | (a & Ha & -> & _)].
  - apply sized_pairs.
  - apply Forall_snoc_In; [apply sized_pairs | exact Ha].
Qed.

Lemma sized_paddedLeaves (nodes : list MerkleNode) :
  Forall sized nodes -> Forall sized (paddedLeaves nodes).
Proof.
  intros H.
  destruct (paddedLeaves_cases nodes) as [[-> _] | (a & Ha & -> & _)];
    [exact H | apply Forall_snoc_In; assumption].
Qed.

Lemma sized_leaves (float64 : Type) (format2f : float64 -> string)
  (transactions : list (Transaction float64)) :
  Forall sized (map (leafOf format2f) transactions).
Proof.
  apply Forall_forall. intros n Hn. apply in_map_iff in Hn.
  destruct Hn as (tx & <- & _). apply length_Sum256.
Qed.

(** On a path from nodes with digest-sized hashes, every sibling hash and
    the root hash have that size. *)
Lemma Path_sized (nodes : list MerkleNode) (c : nat) (hs : list (list byte))
  (ps : list bool) (root : MerkleNode) :
  Path nodes c hs ps root -> Forall sized nodes ->
  Forall (fun h => length h = Size) hs /\ sized root.
Proof.
  induction 1 as [root | nodes c sib hs ps root G Hsib Hpath IH]; intros H.
  - split; [constructor | inversion H; assumption].
  - destruct (IH (sized_nextLevel nodes)) as [Hhs Hroot].
    split; [| exact Hroot]. constructor; [| exact Hhs].
    rewrite Forall_forall in H. apply H. eapply nth_error_In, Hsib.
Qed.

Lemma TreeOver_sized (leaves : list MerkleNode) (n : MerkleNode) :
  TreeOver leaves n -> Forall sized leaves -> sized n.
Proof.
  intros T H. destruct T as [n Hn | l r h _ _ ->].
  - rewrite Forall_forall in H. auto.
  - apply length_Sum256.
Qed.

(** X1. Every digest the tree code handles has 32 bytes: the hash of a
    transaction, the hash of every leaf and of every node over the leaves of
    a built tree, its root hash, and every hash of a generated proof. *)
Theorem digest_sizes (float64 : Type) (format2f : float64 -> string)
  (transactions : list (Transaction float64)) (i : Z) :
  0 <= i < len transactions ->
  exists mt root proof,
    NewMerkleTree format2f transactions = Ret mt
    /\ Root mt = Some root
    /\ GenerateProof mt i = Ret proof
    /\ (forall tx, length (Transaction_Hash format2f tx) = 32%nat)
    /\ (forall n, TreeOver (Leaves mt) n -> length (Hash n) = 32%nat)
    /\ length (Hash root) = 32%nat
    /\ Forall (fun h => length h = 32%nat) (Hashes proof).
Proof.
  intros Hi.
  destruct (built_proof float64 format2f transactions i Hi)
    as (root & hs & ps & tx & Hnew & Hproof & Hpath & _ & _).
  pose proof (sized_leaves float64 format2f transactions) as Hl.
  destruct (Path_sized _ _ _ _ _ Hpath (sized_paddedLeaves _ Hl)) as [Hhs Hroot].
  eexists _, root, _. split; [exact Hnew |]. split; [reflexivity |].
  split; [exact Hproof |]. split; [intros; apply length_Sum256 |].
  split; [| split; [exact Hroot | exact Hhs]].
  intros n Hn. exact (TreeOver_sized _ _ Hn Hl).
Qed.

Lemma digest_sizes_witness :
  exists mt root proof,
    NewMerkleTree printed [tx1; tx2; tx3] = Ret mt
    /\ Root mt = Some root
    /\ GenerateProof mt 1 = Ret proof
    /\ (forall tx, length (Transaction_Hash printed tx) = 32%nat)
    /\ (forall n, TreeOver (Leaves mt) n -> length (Hash n) = 32%nat)
    /\ length (Hash root) = 32%nat
    /\ Forall (fun h => length h = 32%nat) (Hashes proof).
Proof.
  apply (digest_sizes string printed [tx1; tx2; tx3] 1).
  unfold len. cbn [length]. lia.
Defined.

(** ** GetRootHash *)

Lemma hex_digits_of_byte (v : byte) :
  isHexDigit (Hex.digit (N.shiftr (Byte.to_N v) 4)) = true
  /\ isHexDigit (Hex.digit (N.land (Byte.to_N v) 0x0f)) = true.
Proof. destruct v; vm_compute; split; reflexivity. Qed.

Lemma EncodeToString_hex (src : list byte) :
  forallb isHexDigit (list_ascii_of_string (Hex.EncodeToString src)) = true.
Proof.
  induction src as [| v src IH]; [reflexivity |].
  cbn [Hex.EncodeToString list_ascii_of_string forallb].
  destruct (hex_digits_of_byte v) as [-> ->]. exact IH.
Qed.

(** X2. [GetRootHash] of a built tree is the hexadecimal text of the root
    hash: exactly 64 characters, each one of [0-9a-f]; two built trees have
    the same text exactly when their root hashes are the same bytes. *)
Theorem GetRootHash_built (float64 : Type) (format2f : float64 -> string)
  (transactions transactions' : list (Transaction float64))
  (mt mt' : MerkleTree float64) :
  NewMerkleTree format2f transactions = Ret mt ->
  NewMerkleTree format2f transactions' = Ret mt' ->
  exists root root',
    Root mt = Some root /\ Root mt' = Some root'
    /\ GetRootHash mt = Hex.EncodeToString (Hash root)
    /\ String.length (GetRootHash mt) = 64%nat
    /\ forallb isHexDigit (list_ascii_of_string (GetRootHash mt)) = true
    /\ (GetRootHash mt = GetRootHash mt' <-> Hash root = Hash root').
Proof.
  intros Hnew Hnew'.
  assert (transactions <> []) as NE by (intros ->; discriminate).
  assert (transactions' <> []) as NE' by (intros ->; discriminate).
  destruct (NewMerkleTree_spec float64 format2f transactions NE)
    as (root & E & Hgen).
  destruct (NewMerkleTree_spec float64 format2f transactions' NE')
    as (root' & E' & _).
  rewrite E in Hnew. injection Hnew as <-.
  rewrite E' in Hnew'. injection Hnew' as <-.
  exists root, root'. unfold GetRootHash. cbn [Root].
  do 3 (split; [reflexivity |]).
  destruct (Hgen 0%nat) as (hs & ps & _ & Hpath).
  { destruct transactions; [congruence | cbn [length]; lia]. }
  destruct (Path_sized _ _ _ _ _ Hpath
              (sized_paddedLeaves _ (sized_leaves float64 format2f transactions)))
    as [_ Hroot].
  split; [rewrite length_EncodeToString, Hroot; reflexivity |].
  split; [apply EncodeToString_hex |].
  split; [apply EncodeToString_inj | congruence].
Qed.

Lemma GetRootHash_built_witness :
  exists root root',
    Root (treeOf [tx1; tx2; tx3]) = Some root
    /\ Root (treeOf [tx1; tx2]) = Some root'
    /\ GetRootHash (treeOf [tx1; tx2; tx3]) = Hex.EncodeToString (Hash root)
    /\ String.length (GetRootHash (treeOf [tx1; tx2; tx3])) = 64%nat
    /\ forallb isHexDigit
         (list_ascii_of_string (GetRootHash (treeOf [tx1; tx2; tx3]))) = true
    /\ (GetRootHash (treeOf [tx1; tx2; tx3]) = GetRootHash (treeOf [tx1; tx2])
        <-> Hash root = Hash root').
Proof.
  apply (GetRootHash_built string printed [tx1; tx2; tx3] [tx1; tx2]).
  - vm_compute. reflexivity.
  - vm_compute. reflexivity.
Defined.

(** ** Slices in memory *)

Lemma nth_update {A : Type} (l : list A) :
  forall n k x d,
    nth k (Mem.update l n x) d
    = if (k =? n)%nat && (n <? length l)%nat then x else nth k l d.
Proof.
  induction l as [| y l IH]; intros n k x d.
  - cbn [Mem.update length]. rewrite andb_false_r. destruct n; reflexivity.
  - destruct n as [| n], k as [| k]; cbn [Mem.update nth length]; try reflexivity.
    rewrite IH. reflexivity.
Qed.

Lemma content_store (m : Mem.memory) (a o : nat) (bs : list byte) (b : nat) :
  Mem.content (Mem.store m a o bs) b
  = if (b =? a)%nat && (a <? length m)%nat
    then firstn o (Mem.content m a) ++ bs
         ++ skipn (o + length bs) (Mem.content m a)
    else Mem.content m b.
Proof. unfold Mem.content, Mem.store. apply nth_update. Qed.

Lemma content_outside (m : Mem.memory) (a : nat) :
  (length m <= a)%nat -> Mem.content m a = [].
Proof. intros L. unfold Mem.content. apply nth_overflow, L. Qed.

Lemma content_alloc (m : Mem.memory) (bs : list byte) (a : nat) :
  Mem.content (m ++ [bs]) a
  = if (a <? length m)%nat then Mem.content m a
    else if (a =? length m)%nat then bs else [].
Proof.
  unfold Mem.content. destruct (Nat.ltb_spec a (length m)).
  - apply app_nth1. assumption.
  - rewrite app_nth2 by assumption.
    destruct (Nat.eqb_spec a (length m)) as [-> | N].
    + rewrite Nat.sub_diag. reflexivity.
    + destruct (a - length m)%nat as [| [| k]] eqn:E; cbn [nth]; try reflexivity.
      lia.
Qed.

Lemma nth_error_load (m : Mem.memory) (s : Mem.slice) (k : nat) :
  nth_error (Mem.load m s) k
  = if (k <? Mem.slen s)%nat
    then nth_error (Mem.content m (Mem.array s)) (Mem.off s + k)
    else None.
Proof.
  unfold Mem.load. rewrite nth_error_firstn, nth_error_skipn. reflexivity.
Qed.

Lemma length_load (m : Mem.memory) (s : Mem.slice) :
  Mem.valid m s -> length (Mem.load m s) = Mem.slen s.
Proof.
  intros [L1 L2]. unfold Mem.load. rewrite length_firstn, length_skipn. lia.
Qed.

(** A write within bounds: what the array holds afterwards. *)
Lemma nth_error_written (old bs : list byte) (o p : nat) :
  (o + length bs <= length old)%nat ->
  nth_error (firstn o old ++ bs ++ skipn (o + length bs) old) p
  = if (p <? o)%nat then nth_error old p
    else if (p <? o + length bs)%nat then nth_error bs (p - o)
    else nth_error old p.
Proof.
  intros L.
  assert (length (firstn o old) = o) as Lf by (rewrite length_firstn; lia).
  rewrite nth_error_app, Lf.
  destruct (Nat.ltb_spec p o).
  - rewrite nth_error_firstn.
    replace (p <? o)%nat with true by (symmetry; apply Nat.ltb_lt; lia).
    reflexivity.
  - rewrite nth_error_app.
    destruct (Nat.ltb_spec (p - o) (length bs));
      destruct (Nat.ltb_spec p (o + length bs)); try lia; [reflexivity |].
    rewrite nth_error_skipn. f_equal. lia.
Qed.

Lemma length_written (old bs : list byte) (o : nat) :
  (o + length bs <= length old)%nat ->
  length (firstn o old ++ bs ++ skipn (o + length bs) old) = length old.
Proof.
  intros L. rewrite !length_app, length_firstn, length_skipn. lia.
Qed.

Lemma valid_alloc (m : Mem.memory) (bs : list byte) (s : Mem.slice) :
  Mem.valid m s ->
  Mem.valid (m ++ [bs]) s /\ Mem.load (m ++ [bs]) s = Mem.load m s.
Proof.
  intros [L1 L2]. unfold Mem.valid, Mem.load. rewrite content_alloc.
  destruct (Nat.ltb_spec (Mem.array s) (length m)); [auto |].
  rewrite content_outside in * by assumption. cbn [length] in L2.
  replace (Mem.slen s) with 0%nat by lia.
  split; [split; lia | reflexivity].
Qed.

Lemma alloc_spec (m : Mem.memory) (bs : list byte) :
  let '(m', s) := Mem.alloc m bs in
  Mem.valid m' s /\ Mem.tight s /\ Mem.load m' s = bs
  /\ forall y, Mem.valid m y -> Mem.valid m' y /\ Mem.load m' y = Mem.load m y.
Proof.
  unfold Mem.alloc.
  assert (Mem.content (m ++ [bs]) (length m) = bs) as E.
  { rewrite content_alloc, Nat.ltb_irrefl, Nat.eqb_refl. reflexivity. }
  split; [| split; [reflexivity | split]].
  - unfold Mem.valid. cbn [Mem.array Mem.off Mem.slen Mem.scap]. rewrite E. lia.
  - unfold Mem.load. cbn [Mem.array Mem.off Mem.slen Mem.scap]. rewrite E.
    cbn [skipn]. apply firstn_all.
  - intros y. apply valid_alloc.
Qed.

Lemma store_spec (m : Mem.memory) (x : Mem.slice) (bs : list byte) :
  Mem.valid m x -> (Mem.slen x + length bs <= Mem.scap x)%nat ->
  let m' := Mem.store m (Mem.array x) (Mem.off x + Mem.slen x) bs in
  Mem.load m' {| Mem.array := Mem.array x; Mem.off := Mem.off x;
                 Mem.slen := Mem.slen x + length bs; Mem.scap := Mem.scap x |}
  = Mem.load m x ++ bs
  /\ forall y, Mem.valid m y ->
               Mem.valid m' y /\ (Mem.apart x y -> Mem.load m' y = Mem.load m y).
Proof.
  intros [L1 L2] Lb m'.
  assert (Mem.off x + Mem.slen x + length bs
          <= length (Mem.content m (Mem.array x)))%nat as Lw by lia.
  destruct (Nat.ltb_spec (Mem.array x) (length m)) as [In_m | Out].
  2: { rewrite content_outside in * by assumption. cbn [length] in *.
       assert (bs = []) as -> by (destruct bs; [reflexivity | cbn [length] in *; lia]).
       assert (m' = m) as ->.
       { subst m'. unfold Mem.store.
         rewrite content_outside by assumption.
         clear - Out. revert Out. generalize (Mem.array x) as a.
         induction m as [| y m IH]; intros [| a] L; cbn [Mem.update length] in *;
           try reflexivity; try lia.
         rewrite firstn_nil, skipn_nil in *. cbn [app] in *.
         f_equal. apply IH. lia. }
       split; [| auto].
       unfold Mem.load. cbn [Mem.array Mem.off Mem.slen Mem.scap].
       rewrite content_outside by assumption.
       rewrite skipn_nil, !firstn_nil. reflexivity. }
  split.
  - apply nth_error_ext. intros k.
    rewrite nth_error_load, nth_error_app, length_load by (split; assumption).
    cbn [Mem.array Mem.off Mem.slen Mem.scap].
    subst m'. rewrite content_store, Nat.eqb_refl.
    replace (Mem.array x <? length m)%nat with true
      by (symmetry; apply Nat.ltb_lt; assumption).
    cbn [andb]. rewrite nth_error_written by exact Lw.
    rewrite nth_error_load.
    destruct (Nat.ltb_spec k (Mem.slen x)).
    + replace (k <? Mem.slen x + length bs)%nat with true
        by (symmetry; apply Nat.ltb_lt; lia).
      replace (Mem.off x + k <? Mem.off x + Mem.slen x)%nat with true
        by (symmetry; apply Nat.ltb_lt; lia).
      reflexivity.
    + replace (Mem.off x + k <? Mem.off x + Mem.slen x)%nat with false
        by (symmetry; apply Nat.ltb_ge; lia).
      destruct (Nat.ltb_spec k (Mem.slen x + length bs)).
      * replace (Mem.off x + k <? Mem.off x + Mem.slen x + length bs)%nat
          with true by (symmetry; apply Nat.ltb_lt; lia).
        f_equal. lia.
      * symmetry. apply nth_error_None. lia.
  - intros y [Ly1 Ly2]. subst m'. split.
    + split; [exact Ly1 |]. rewrite content_store.
      destruct (Nat.eqb_spec (Mem.array y) (Mem.array x)) as [E | N];
        cbn [andb]; [| exact Ly2].
      destruct (Mem.array x <? length m)%nat; [| exact Ly2].
      rewrite length_written by exact Lw. rewrite <- E. exact Ly2.
    + intros Ap. apply nth_error_ext. intros k. rewrite !nth_error_load.
      destruct (Nat.ltb_spec k (Mem.slen y)); [| reflexivity].
      rewrite content_store.
      destruct (Nat.eqb_spec (Mem.array y) (Mem.array x)) as [E | N];
        cbn [andb]; [| reflexivity].
      replace (Mem.array x <? length m)%nat with true
        by (symmetry; apply Nat.ltb_lt; assumption).
      rewrite nth_error_written by exact Lw. rewrite E.
      destruct Ap as [Ap | [Ap | [Ap | [Ap | Ap]]]]; try lia.
      * assert (bs = []) as -> by (destruct bs; [reflexivity | cbn [length] in *; lia]).
        cbn [length]. rewrite Nat.add_0_r.
        destruct (_ <? _)%nat; reflexivity.
      * replace (Mem.off y + k <? Mem.off x + Mem.slen x)%nat with false
          by (symmetry; apply Nat.ltb_ge; lia).
        replace (Mem.off y + k <? Mem.off x + Mem.slen x + length bs)%nat
          with false by (symmetry; apply Nat.ltb_ge; lia).
        reflexivity.
      * replace (Mem.off y + k <? Mem.off x + Mem.slen x)%nat with true
          by (symmetry; apply Nat.ltb_lt; lia).
        reflexivity.
Qed.

Lemma append_spec (m : Mem.memory) (s t : Mem.slice) :
  Mem.valid m s -> Mem.valid m t ->
  let '(m', c) := Mem.append m s t in
  Mem.valid m' c
  /\ Mem.load m' c = Mem.load m s ++ Mem.load m t
  /\ forall y, Mem.valid m y ->
               Mem.valid m' y /\ (Mem.apart s y -> Mem.load m' y = Mem.load m y).
Proof.
  intros Vs Vt. unfold Mem.append.
  destruct (Nat.leb_spec (Mem.slen s + Mem.slen t) (Mem.scap s)) as [L | G].
  - pose proof (length_load m t Vt) as Lt.
    destruct (store_spec m s (Mem.load m t) Vs ltac:(lia)) as [E K].
    rewrite Lt in E. split; [| split; [exact E | exact K]].
    destruct (K s Vs) as [[_ V2] _]. split; cbn [Mem.slen Mem.scap Mem.off Mem.array];
      [exact L | exact V2].
  - pose proof (alloc_spec m (Mem.load m s ++ Mem.load m t)) as A.
    destruct (Mem.alloc m (Mem.load m s ++ Mem.load m t)) as [m' c].
    destruct A as (V & _ & E & K).
    split; [exact V |]. split; [exact E |].
    intros y Vy. destruct (K y Vy) as [V' E']. auto.
Qed.

Lemma tight_apart (x y : Mem.slice) : Mem.tight x -> Mem.apart x y.
Proof. unfold Mem.tight, Mem.apart. intros T. right. left. lia. Qed.

(** The loop on slices in memory does what the loop on values does, and
    leaves the bytes of the watched slices [Q] as they were, when the room
    behind the current hash and behind each sibling holds no byte of [Q]. *)
Lemma verifyLoop_in_memory (Q : list Mem.slice) (positions : list bool)
  (hashes : list Mem.slice) :
  forall (m : Mem.memory) (i : Z) (currentHash : Mem.slice),
    Mem.valid m currentHash -> Forall (Mem.valid m) hashes ->
    Forall (Mem.valid m) Q -> incl hashes Q ->
    Forall (Mem.apart currentHash) Q ->
    Forall (fun x => Forall (Mem.apart x) Q) hashes ->
    match verifyLoop positions i (map (Mem.load m) hashes)
            (Mem.load m currentHash) with
    | Ret v =>
        exists m' c,
          Mem.verifyLoop m positions i hashes currentHash = Ret (m', c)
          /\ Mem.load m' c = v
          /\ Forall (fun y => Mem.valid m' y /\ Mem.load m' y = Mem.load m y) Q
    | Err e => Mem.verifyLoop m positions i hashes currentHash = Err e
    | Panic e => Mem.verifyLoop m positions i hashes currentHash = Panic e
    | OutOfFuel => Mem.verifyLoop m positions i hashes currentHash = OutOfFuel
    end.
Proof.
  induction hashes as [| s rest IH]; intros m i cur Vc Vh VQ Inc Ac Ah.
  - cbn [map verifyLoop Mem.verifyLoop]. exists m, cur.
    split; [reflexivity |]. split; [reflexivity |].
    eapply Forall_impl; [| exact VQ]. cbn. auto.
  - cbn [map verifyLoop Mem.verifyLoop].
    destruct (index positions i) as [p | e | e |]; cbn [bind]; try reflexivity.
    inversion Vh as [| ? ? Vs Vr]. inversion Ah as [| ? ? As Ar]. subst.
    assert (incl rest Q) as Inc' by (intros y Hy; apply Inc; right; exact Hy).
    assert (exists m1 comb,
               (if p then Mem.append m cur s else Mem.append m s cur) = (m1, comb)
               /\ Mem.valid m1 comb
               /\ Mem.load m1 comb
                  = (if p then Mem.load m cur ++ Mem.load m s
                     else Mem.load m s ++ Mem.load m cur)
               /\ (forall y, Mem.valid m y -> Mem.valid m1 y)
               /\ Forall (fun y => Mem.load m1 y = Mem.load m y) Q)
      as (m1 & comb & -> & Vcomb & Ecomb & K1 & K2).
    { destruct p.
      - pose proof (append_spec m cur s Vc Vs) as A.
        destruct (Mem.append m cur s) as [m1 comb]. destruct A as (V & E & K).
        exists m1, comb.
        split; [reflexivity |]. split; [exact V |]. split; [exact E |]. split.
        + intros y Vy. apply K, Vy.
        + rewrite Forall_forall in *. intros y Hy.
          apply K; [apply VQ, Hy | apply Ac, Hy].
      - pose proof (append_spec m s cur Vs Vc) as A.
        destruct (Mem.append m s cur) as [m1 comb]. destruct A as (V & E & K).
        exists m1, comb.
        split; [reflexivity |]. split; [exact V |]. split; [exact E |]. split.
        + intros y Vy. apply K, Vy.
        + rewrite Forall_forall in *. intros y Hy.
          apply K; [apply VQ, Hy | apply As, Hy]. }
    pose proof (alloc_spec m1 (Sum256 (Mem.load m1 comb))) as A.
    destruct (Mem.alloc m1 (Sum256 (Mem.load m1 comb))) as [m2 hash].
    destruct A as (Vhash & Thash & Ehash & K3).
    assert (Forall (fun y => Mem.valid m2 y /\ Mem.load m2 y = Mem.load m y) Q)
      as KQ.
    { rewrite Forall_forall in *. intros y Hy.
      destruct (K3 y (K1 y (VQ y Hy))) as [V E]. split; [exact V |].
      rewrite E. apply K2, Hy. }
    specialize (IH m2 (i + 1) hash Vhash).
    assert (map (Mem.load m2) rest = map (Mem.load m) rest) as Emap.
    { apply map_ext_in. intros y Hy. rewrite Forall_forall in KQ.
      apply KQ, Inc', Hy. }
    rewrite Emap, Ehash, Ecomb in IH.
    match type of IH with
    | _ -> _ -> _ -> _ -> _ -> ?G => assert G as R
    end.
    { apply IH.
      - rewrite Forall_forall in *. intros y Hy. apply K3, K1, Vr, Hy.
      - eapply Forall_impl; [| exact KQ]. cbn. tauto.
      - exact Inc'.
      - rewrite Forall_forall. intros y _. apply tight_apart, Thash.
      - exact Ar. }
    clear IH.
    destruct (verifyLoop positions (i + 1) (map (Mem.load m) rest) _)
      as [v | e | e |]; try exact R.
    destruct R as (m' & c & E & Ev & K). exists m', c.
    split; [exact E |]. split; [exact Ev |].
    rewrite Forall_forall in *. intros y Hy.
    destruct (K y Hy) as [V Ey]. split; [exact V |].
    rewrite Ey. apply KQ, Hy.
Qed.

(** On well-Mem.placed slices the call in memory returns what the call on
    their bytes returns, and leaves the bytes of the root and of the
    sibling hashes as they were. *)
Lemma VerifyProof_on_placed (m : Mem.memory) (txHash rootHash : Mem.slice)
  (hashes : list Mem.slice) (positions : list bool) :
  Mem.placed m txHash hashes rootHash ->
  match VerifyProof (Mem.load m txHash)
          (Some {| Hashes := map (Mem.load m) hashes; Positions := positions |})
          (Mem.load m rootHash) with
  | Ret ok =>
      exists m',
        Mem.VerifyProof_on m txHash
          (Some {| Mem.Hashes := hashes; Mem.Positions := positions |}) rootHash
        = Ret (m', ok)
        /\ Mem.load m' rootHash = Mem.load m rootHash
        /\ map (Mem.load m') hashes = map (Mem.load m) hashes
  | Err e =>
      Mem.VerifyProof_on m txHash
        (Some {| Mem.Hashes := hashes; Mem.Positions := positions |}) rootHash
      = Err e
  | Panic e =>
      Mem.VerifyProof_on m txHash
        (Some {| Mem.Hashes := hashes; Mem.Positions := positions |}) rootHash
      = Panic e
  | OutOfFuel =>
      Mem.VerifyProof_on m txHash
        (Some {| Mem.Hashes := hashes; Mem.Positions := positions |}) rootHash
      = OutOfFuel
  end.
Proof.
  intros (Vt & Vh & Vr & Qt). unfold Mem.quiet in Qt.
  inversion Qt as [| ? ? At Ah]. subst.
  pose proof (verifyLoop_in_memory (rootHash :: hashes) positions hashes m 0
                txHash Vt Vh (Forall_cons _ Vr Vh)
                (fun y Hy => or_intror Hy) At Ah) as R.
  unfold Mem.VerifyProof_on, VerifyProof.
  cbn [Mem.Hashes Mem.Positions Hashes Positions].
  destruct (verifyLoop positions 0 (map (Mem.load m) hashes) (Mem.load m txHash))
    as [v | e | e |]; cbn [bind]; try (rewrite R; reflexivity).
  destruct R as (m' & c & -> & Ev & K). cbn [bind].
  inversion K as [| ? ? [_ Er] Kh]. subst. rewrite Er.
  exists m'. split; [reflexivity |]. split; [exact Er |].
  apply map_ext_in. intros y Hy. rewrite Forall_forall in Kh.
  apply Kh, Hy.
Qed.

Lemma placed_VerifyProof (m : Mem.memory) (txHash rootHash : Mem.slice)
  (hashes : list Mem.slice) (positions : list bool) :
  Mem.placed m txHash hashes rootHash ->
  Mem.VerifyProof m txHash
    (Some {| Mem.Hashes := hashes; Mem.Positions := positions |}) rootHash
  = VerifyProof (Mem.load m txHash)
      (Some {| Hashes := map (Mem.load m) hashes; Positions := positions |})
      (Mem.load m rootHash).
Proof.
  intros P. pose proof (VerifyProof_on_placed m _ _ _ positions P) as R.
  unfold Mem.VerifyProof.
  destruct (VerifyProof _ _ _) as [ok | e | e |]; try (rewrite R; reflexivity).
  destruct R as (m' & -> & _). reflexivity.
Qed.

(** X29. [VerifyProof] on slices in memory. When every slice passed lies
    within its array and the room behind the digest and behind each sibling
    hash holds no byte of a sibling hash or of the root, the call returns
    what the call on the bytes of the slices returns, panics included, and
    leaves the bytes of the root and of the sibling hashes as they were. *)
Theorem VerifyProof_in_memory (m : Mem.memory) (txHash rootHash : Mem.slice)
  (hashes : list Mem.slice) (positions : list bool) :
  Mem.placed m txHash hashes rootHash ->
  Mem.VerifyProof m txHash
    (Some {| Mem.Hashes := hashes; Mem.Positions := positions |}) rootHash
  = VerifyProof (Mem.load m txHash)
      (Some {| Hashes := map (Mem.load m) hashes; Positions := positions |})
      (Mem.load m rootHash)
  /\ forall m' ok,
       Mem.VerifyProof_on m txHash
         (Some {| Mem.Hashes := hashes; Mem.Positions := positions |}) rootHash
       = Ret (m', ok) ->
       Mem.load m' rootHash = Mem.load m rootHash
       /\ map (Mem.load m') hashes = map (Mem.load m) hashes.
Proof.
  intros P. split; [apply placed_VerifyProof, P |].
  pose proof (VerifyProof_on_placed m _ _ _ positions P) as R.
  intros m' ok E.
  destruct (VerifyProof _ _ _) as [ok' | e | e |];
    try (rewrite R in E; discriminate).
  destruct R as (m'' & E' & K). rewrite E' in E. injection E as <- _. exact K.
Qed.

Lemma VerifyProof_in_memory_witness :
  Mem.VerifyProof roomyMemory roomyDigest
    (Some {| Mem.Hashes := roomyHashes;
             Mem.Positions := Positions (proofOf (treeOf [tx1; tx2; tx3]) 1) |})
    (Mem.whole roomyMemory 1)
  = VerifyProof (Mem.load roomyMemory roomyDigest)
      (Some {| Hashes := map (Mem.load roomyMemory) roomyHashes;
               Positions := Positions (proofOf (treeOf [tx1; tx2; tx3]) 1) |})
      (Mem.load roomyMemory (Mem.whole roomyMemory 1))
  /\ forall m' ok,
       Mem.VerifyProof_on roomyMemory roomyDigest
         (Some {| Mem.Hashes := roomyHashes;
                  Mem.Positions := Positions (proofOf (treeOf [tx1; tx2; tx3]) 1) |})
         (Mem.whole roomyMemory 1)
       = Ret (m', ok) ->
       Mem.load m' (Mem.whole roomyMemory 1)
       = Mem.load roomyMemory (Mem.whole roomyMemory 1)
       /\ map (Mem.load m') roomyHashes = map (Mem.load roomyMemory) roomyHashes.
Proof.
  apply (VerifyProof_in_memory roomyMemory roomyDigest (Mem.whole roomyMemory 1)
           roomyHashes (Positions (proofOf (treeOf [tx1; tx2; tx3]) 1))).
  vm_compute. repeat split; repeat constructor; lia.
Defined.

Lemma tight_placed (m : Mem.memory) (txHash rootHash : Mem.slice)
  (hashes : list Mem.slice) :
  Mem.valid m txHash -> Forall (Mem.valid m) hashes -> Mem.valid m rootHash ->
  Forall Mem.tight (txHash :: hashes) ->
  Mem.placed m txHash hashes rootHash.
Proof.
  intros Vt Vh Vr T. do 3 (split; [assumption |]).
  unfold Mem.quiet. eapply Forall_impl; [| exact T].
  intros x Tx. apply Forall_forall. intros y _. apply tight_apart, Tx.
Qed.

(** What a write leaves at the place it wrote to. *)
Lemma load_stored (m : Mem.memory) (a o c : nat) (bs : list byte) :
  (o + length bs <= length (Mem.content m a))%nat ->
  Mem.load (Mem.store m a o bs)
    {| Mem.array := a; Mem.off := o; Mem.slen := length bs; Mem.scap := c |}
  = bs.
Proof.
  intros L. apply nth_error_ext. intros k. rewrite nth_error_load.
  cbn [Mem.array Mem.off Mem.slen Mem.scap]. rewrite content_store, Nat.eqb_refl.
  cbn [andb].
  destruct (Nat.ltb_spec a (length m)) as [In_m | Out].
  - rewrite nth_error_written by exact L.
    replace (o + k <? o)%nat with false by (symmetry; apply Nat.ltb_ge; lia).
    destruct (Nat.ltb_spec k (length bs)).
    + replace (o + k <? o + length bs)%nat with true
        by (symmetry; apply Nat.ltb_lt; lia).
      f_equal. lia.
    + symmetry. apply nth_error_None. lia.
  - rewrite content_outside in * by assumption. cbn [length] in L.
    assert (bs = []) as -> by (destruct bs; [reflexivity | cbn [length] in *; lia]).
    cbn [length]. destruct k; reflexivity.
Qed.

(** X30. [VerifyProof] can overwrite the root it checks against. When the
    digest under test has room behind it for the first sibling hash, the
    sibling is on the right, and the root hash lies in that room, the call
    writes the sibling over the root: with a proof of one entry it answers
    whether SHA-256 of digest and sibling is the sibling itself, whatever
    the root was, and the caller finds the sibling where the root was. *)
Theorem VerifyProof_overwrites_root (m : Mem.memory)
  (txHash siblingHash rootHash : Mem.slice) (positions : list bool) :
  Mem.valid m txHash -> Mem.valid m siblingHash -> Mem.valid m rootHash ->
  (Mem.slen txHash + Mem.slen siblingHash <= Mem.scap txHash)%nat ->
  Mem.array rootHash = Mem.array txHash ->
  Mem.off rootHash = (Mem.off txHash + Mem.slen txHash)%nat ->
  Mem.slen rootHash = Mem.slen siblingHash ->
  exists m',
    Mem.VerifyProof_on m txHash
      (Some {| Mem.Hashes := [siblingHash]; Mem.Positions := true :: positions |})
      rootHash
    = Ret (m', String.eqb
                 (Hex.EncodeToString
                    (Sum256 (Mem.load m txHash ++ Mem.load m siblingHash)))
                 (Hex.EncodeToString (Mem.load m siblingHash)))
    /\ Mem.load m' rootHash = Mem.load m siblingHash.
Proof.
  intros Vt Vs Vr Room Ea Eo El.
  unfold Mem.VerifyProof_on. cbn [Mem.Hashes Mem.Positions Mem.verifyLoop].
  change (index (true :: positions) 0) with (Ret (A := bool) true).
  cbn [bind]. unfold Mem.append.
  replace (Mem.slen txHash + Mem.slen siblingHash <=? Mem.scap txHash)%nat
    with true by (symmetry; apply Nat.leb_le; exact Room).
  pose proof (length_load m siblingHash Vs) as Ls.
  destruct (store_spec m txHash (Mem.load m siblingHash) Vt ltac:(lia))
    as [Ec K].
  rewrite Ls in Ec.
  set (m1 := Mem.store m (Mem.array txHash)
               (Mem.off txHash + Mem.slen txHash) (Mem.load m siblingHash)) in *.
  assert (Mem.load m1 rootHash = Mem.load m siblingHash) as Er.
  { destruct rootHash as [ra ro rl rc]. cbn [Mem.array Mem.off Mem.slen] in *.
    subst ra ro rl. subst m1. rewrite <- Ls. apply load_stored.
    destruct Vt as [_ Vt]. lia. }
  rewrite Ec.
  pose proof (alloc_spec m1
                (Sum256 (Mem.load m txHash ++ Mem.load m siblingHash))) as A.
  destruct (Mem.alloc m1 _) as [m2 hash]. destruct A as (_ & _ & Eh & K2).
  cbn [bind]. exists m2.
  destruct (K2 rootHash (proj1 (K rootHash Vr))) as [_ Er2].
  rewrite Eh, Er2, Er. auto.
Qed.

Lemma VerifyProof_overwrites_root_witness :
  exists m',
    Mem.VerifyProof_on aliasedMemory aliasedDigest
      (Some {| Mem.Hashes := [Mem.whole aliasedMemory 1];
               Mem.Positions := [true] |})
      aliasedRoot
    = Ret (m', String.eqb
                 (Hex.EncodeToString
                    (Sum256 (Mem.load aliasedMemory aliasedDigest
                             ++ Mem.load aliasedMemory (Mem.whole aliasedMemory 1))))
                 (Hex.EncodeToString
                    (Mem.load aliasedMemory (Mem.whole aliasedMemory 1))))
    /\ Mem.load m' aliasedRoot
       = Mem.load aliasedMemory (Mem.whole aliasedMemory 1).
Proof.
  apply (VerifyProof_overwrites_root aliasedMemory aliasedDigest
           (Mem.whole aliasedMemory 1) aliasedRoot []);
    try (vm_compute; repeat split; lia); reflexivity.
Defined.

(** The proof of [tx1] in the tree of [tx1] and [tx2] is valid on the bytes
    of the slices, and the call in memory rejects it: the digest is the
    first half of a buffer whose second half holds the root. *)
Example aliased_call_rejects_a_valid_proof :
  VerifyProof (Mem.load aliasedMemory aliasedDigest)
    (Some {| Hashes := [Mem.load aliasedMemory (Mem.whole aliasedMemory 1)];
             Positions := [true] |})
    (Mem.load aliasedMemory aliasedRoot) = Ret true
  /\ Mem.VerifyProof aliasedMemory aliasedDigest
       (Some {| Mem.Hashes := [Mem.whole aliasedMemory 1];
                Mem.Positions := [true] |})
       aliasedRoot = Ret false.
Proof. split; vm_compute; reflexivity. Qed.


(** ** VerifyProof on arbitrary input *)

Lemma VerifyProof_true_inv (txHash rootHash : list byte) (p : MerkleProof) :
  VerifyProof txHash (Some p) rootHash = Ret true ->
  (length (Hashes p) <= length (Positions p))%nat
  /\ climb txHash (Hashes p) (Positions p) = rootHash.
Proof.
  intros H.
  destruct (Nat.le_gt_cases (length (Hashes p)) (length (Positions p)))
    as [L | G].
  - split; [exact L |]. rewrite VerifyProof_eq in H by exact L.
    injection H as H. apply hex_eqb_true, H.
  - unfold VerifyProof in H.
    pose proof (verifyLoop_short (Hashes p) [] (Positions p) txHash G) as E.
    cbn [app] in E. change (len (@nil bool)) with 0 in E.
    rewrite E in H. discriminate.
Qed.

Lemma app_inj_length {A : Type} (a a' b b' : list A) :
  length a = length a' -> a ++ b = a' ++ b' -> a = a' /\ b = b'.
Proof.
  revert a'. induction a as [| x a IH]; intros [| x' a'] L E;
    cbn [length] in L; try discriminate.
  - auto.
  - cbn [app] in E. injection E as -> E.
    destruct (IH a' ltac:(lia) E) as [-> ->]. auto.
Qed.

Lemma last_cons_default {A : Type} (l : list A) :
  forall (x d d' : A), last (x :: l) d = last (x :: l) d'.
Proof.
  induction l as [| y l IH]; intros x d d'; [reflexivity |].
  change (last (y :: l) d = last (y :: l) d'). apply IH.
Qed.

(** [combinedOf] lists what the loop hashes: the digest it ends on is the
    hash of the last one. *)
Lemma climb_combinedOf (hs : list (list byte)) :
  forall (ps : list bool) (h : list byte),
    climb h hs ps = last (map Sum256 (combinedOf h hs ps)) h.
Proof.
  induction hs as [| s hs IH]; intros [| p ps] h; cbn [climb combinedOf map];
    try reflexivity.
  rewrite IH.
  destruct (map Sum256 (combinedOf _ hs ps)) as [| u l]; [reflexivity |].
  exact (last_cons_default l u _ _).
Qed.

(** Two climbs along the same sides that meet in one digest started from
    the same digest through the same siblings, or at some level they hash
    two inputs on which SHA-256 collides. *)
Lemma climb_binding (hs : list (list byte)) :
  forall (hs' : list (list byte)) (ps : list bool) (h h' : list byte),
    length h = length h' -> length hs = length hs' ->
    climb h hs ps = climb h' hs' ps ->
    (h = h' /\ firstn (length ps) hs = firstn (length ps) hs')
    \/ exists (k : nat) (x y : list byte),
         nth_error (combinedOf h hs ps) k = Some x
         /\ nth_error (combinedOf h' hs' ps) k = Some y
         /\ collide x y.
Proof.
  induction hs as [| s hs IH]; intros [| s' hs'] ps h h' Lh L E;
    cbn [length] in L; try discriminate.
  - cbn [climb] in E. left. rewrite !firstn_nil. auto.
  - destruct ps as [| p ps]; cbn [climb] in E; [left; auto |].
    cbn [combinedOf].
    set (x := if p then h ++ s else s ++ h) in *.
    set (y := if p then h' ++ s' else s' ++ h') in *.
    destruct (IH hs' ps _ _ ltac:(rewrite !length_Sum256; reflexivity)
                 ltac:(lia) E) as [[Ed Et] | (k & u & v & Hu & Hv & C)];
      [| right; exists (S k), u, v; auto].
    destruct (list_eq_dec Byte.byte_eq_dec x y) as [Exy | N];
      [| right; exists 0%nat, x, y; repeat split; assumption].
    left. subst x y. cbn [length firstn].
    destruct p.
    + destruct (app_inj_length _ _ _ _ Lh Exy) as [-> ->].
      rewrite Et. auto.
    + assert (length s = length s') as Ls.
      { apply (f_equal (@length byte)) in Exy. rewrite !length_app in Exy. lia. }
      destruct (app_inj_length _ _ _ _ Ls Exy) as [-> ->].
      rewrite Et. auto.
Qed.

(** X3. Binding. If two digests of the same length verify against the
    same root with proofs that have the same sides and the same number of
    hashes, all slices well placed, then the digests and the hashes are the
    same bytes, or at some level the two runs hashed two inputs on which
    SHA-256 collides. *)
Theorem VerifyProof_binding (m : Mem.memory) (h h' rootHash : Mem.slice)
  (hs hs' : list Mem.slice) (ps : list bool) :
  Mem.placed m h hs rootHash -> Mem.placed m h' hs' rootHash ->
  Mem.VerifyProof m h
    (Some {| Mem.Hashes := hs; Mem.Positions := ps |}) rootHash = Ret true ->
  Mem.VerifyProof m h'
    (Some {| Mem.Hashes := hs'; Mem.Positions := ps |}) rootHash = Ret true ->
  Mem.slen h = Mem.slen h' -> length hs = length hs' ->
  (Mem.load m h = Mem.load m h'
   /\ map (Mem.load m) hs = map (Mem.load m) hs')
  \/ exists (k : nat) (x y : list byte),
       nth_error (combinedOf (Mem.load m h) (map (Mem.load m) hs) ps) k = Some x
       /\ nth_error (combinedOf (Mem.load m h') (map (Mem.load m) hs') ps) k
          = Some y
       /\ collide x y.
Proof.
  intros P P' V V' Lh L.
  rewrite placed_VerifyProof in V, V' by assumption.
  cbn [Mem.Hashes Mem.Positions] in V, V'.
  apply VerifyProof_true_inv in V. apply VerifyProof_true_inv in V'.
  cbn [Hashes Positions] in V, V'. destruct V as [Lp E], V' as [Lp' E'].
  rewrite length_map in Lp, Lp'.
  destruct P as (Vh & _), P' as (Vh' & _).
  destruct (climb_binding (map (Mem.load m) hs) (map (Mem.load m) hs') ps
              (Mem.load m h) (Mem.load m h'))
    as [[Eh Et] | C]; [| | | left | right; exact C].
  - rewrite !length_load by assumption. exact Lh.
  - rewrite !length_map. exact L.
  - congruence.
  - split; [exact Eh |].
    rewrite !firstn_all2 in Et by (rewrite length_map; lia). exact Et.
Qed.

Lemma VerifyProof_binding_witness :
  (Mem.load provenMemory (Mem.whole provenMemory 0)
   = Mem.load provenMemory (Mem.whole provenMemory 0)
   /\ map (Mem.load provenMemory) provenHashes
      = map (Mem.load provenMemory) provenHashes)
  \/ exists (k : nat) (x y : list byte),
       nth_error (combinedOf (Mem.load provenMemory (Mem.whole provenMemory 0))
                    (map (Mem.load provenMemory) provenHashes)
                    (Positions (proofOf (treeOf [tx1; tx2; tx3]) 1))) k = Some x
       /\ nth_error (combinedOf (Mem.load provenMemory (Mem.whole provenMemory 0))
                       (map (Mem.load provenMemory) provenHashes)
                       (Positions (proofOf (treeOf [tx1; tx2; tx3]) 1))) k
          = Some y
       /\ collide x y.
Proof.
  apply (VerifyProof_binding provenMemory (Mem.whole provenMemory 0)
           (Mem.whole provenMemory 0) (Mem.whole provenMemory 1)
           provenHashes provenHashes
           (Positions (proofOf (treeOf [tx1; tx2; tx3]) 1))).
  - vm_compute. repeat split; repeat constructor; lia.
  - vm_compute. repeat split; repeat constructor; lia.
  - vm_compute. reflexivity.
  - vm_compute. reflexivity.
  - reflexivity.
  - reflexivity.
Defined.

Lemma index_app_shift {A : Type} (pre s : list A) (i : Z) :
  0 <= i -> index (pre ++ s) (len pre + i) = index s i.
Proof.
  intros Hi. unfold index. rewrite len_app.
  replace (len pre + i <? 0) with false
    by (symmetry; apply Z.ltb_ge; unfold len; lia).
  replace (i <? 0) with false by (symmetry; apply Z.ltb_ge; lia).
  cbn [orb].
  replace (len pre + len s <=? len pre + i) with (len s <=? i).
  2: { destruct (Z.leb_spec (len s) i);
       [symmetry; apply Z.leb_le | symmetry; apply Z.leb_gt]; lia. }
  destruct (len s <=? i); [reflexivity |].
  replace (Z.to_nat (len pre + i)) with (length pre + Z.to_nat i)%nat
    by (unfold len; lia).
  rewrite nth_error_app2 by lia.
  replace (length pre + Z.to_nat i - length pre)%nat with (Z.to_nat i) by lia.
  reflexivity.
Qed.

Lemma verifyLoop_shift (hashes : list (list byte)) :
  forall (pre positions : list bool) (i : Z) (currentHash : list byte),
    0 <= i ->
    verifyLoop (pre ++ positions) (len pre + i) hashes currentHash
    = verifyLoop positions i hashes currentHash.
Proof.
  induction hashes as [| s hashes IH]; intros pre positions i h Hi;
    cbn [verifyLoop]; [reflexivity |].
  rewrite index_app_shift by exact Hi.
  destruct (index positions i); cbn [bind]; try reflexivity.
  rewrite <- Z.add_assoc. apply IH. lia.
Qed.

Lemma verifyLoop_app (hs1 : list (list byte)) :
  forall (pre ps1 ps2 : list bool) (hs2 : list (list byte)) (h : list byte),
    length hs1 = length ps1 ->
    verifyLoop (pre ++ ps1 ++ ps2) (len pre) (hs1 ++ hs2) h
    = verifyLoop ps2 0 hs2 (climb h hs1 ps1).
Proof.
  induction hs1 as [| s hs1 IH]; intros pre ps1 ps2 hs2 h L;
    destruct ps1 as [| p ps1]; cbn [length] in L; try discriminate.
  - cbn [app climb]. rewrite <- (Z.add_0_r (len pre)).
    apply verifyLoop_shift. lia.
  - cbn [app verifyLoop climb]. rewrite index_middle. cbn [bind].
    replace (pre ++ p :: ps1 ++ ps2) with ((pre ++ [p]) ++ ps1 ++ ps2)
      by (rewrite <- app_assoc; reflexivity).
    replace (len pre + 1) with (len (pre ++ [p]))
      by (rewrite len_app; reflexivity).
    apply IH. lia.
Qed.

(** X4. A proof splits at any level, all slices well placed: when [h]
    verifies against [mid] with the first entries, verifying [h] against
    any root with the whole proof is verifying [mid] against that root with
    the remaining entries. *)
Theorem VerifyProof_split (m : Mem.memory) (h mid rootHash : Mem.slice)
  (hs1 hs2 : list Mem.slice) (ps1 ps2 : list bool) :
  Mem.placed m h hs1 mid -> Mem.placed m h (hs1 ++ hs2) rootHash ->
  Mem.placed m mid hs2 rootHash ->
  Mem.VerifyProof m h
    (Some {| Mem.Hashes := hs1; Mem.Positions := ps1 |}) mid = Ret true ->
  length hs1 = length ps1 ->
  Mem.VerifyProof m h
    (Some {| Mem.Hashes := hs1 ++ hs2; Mem.Positions := ps1 ++ ps2 |}) rootHash
  = Mem.VerifyProof m mid
      (Some {| Mem.Hashes := hs2; Mem.Positions := ps2 |}) rootHash.
Proof.
  intros P1 P P2 V L.
  rewrite placed_VerifyProof in V by exact P1.
  rewrite !placed_VerifyProof by assumption.
  apply VerifyProof_true_inv in V. cbn [Hashes Positions] in V.
  destruct V as [_ <-].
  unfold VerifyProof. cbn [Hashes Positions]. rewrite map_app.
  pose proof (verifyLoop_app (map (Mem.load m) hs1) [] ps1 ps2
                (map (Mem.load m) hs2) (Mem.load m h)
                ltac:(rewrite length_map; exact L)) as E.
  cbn [app] in E. change (len (@nil bool)) with 0 in E.
  rewrite E. reflexivity.
Qed.

Lemma VerifyProof_split_witness :
  Mem.VerifyProof splitMemory (Mem.whole splitMemory 0)
    (Some {| Mem.Hashes := [Mem.whole splitMemory 1] ++ [Mem.whole splitMemory 3];
             Mem.Positions := [true] ++ [true] |})
    (Mem.whole splitMemory 4)
  = Mem.VerifyProof splitMemory (Mem.whole splitMemory 2)
      (Some {| Mem.Hashes := [Mem.whole splitMemory 3];
               Mem.Positions := [true] |})
      (Mem.whole splitMemory 4).
Proof.
  apply (VerifyProof_split splitMemory (Mem.whole splitMemory 0)
           (Mem.whole splitMemory 2) (Mem.whole splitMemory 4)
           [Mem.whole splitMemory 1] [Mem.whole splitMemory 3] [true] [true]).
  - vm_compute. repeat split; repeat constructor; lia.
  - vm_compute. repeat split; repeat constructor; lia.
  - vm_compute. repeat split; repeat constructor; lia.
  - vm_compute. reflexivity.
  - reflexivity.
Defined.

Lemma climb_surplus (hs : list (list byte)) :
  forall (ps extra : list bool) (h : list byte),
    (length hs <= length ps)%nat ->
    climb h hs (ps ++ extra) = climb h hs ps.
Proof.
  induction hs as [| s hs IH]; intros ps extra h L; [destruct ps; reflexivity |].
  destruct ps as [| p ps]; cbn [length] in L; [lia |].
  cbn [app climb]. apply IH. lia.
Qed.

(** X5. Positions beyond the number of hashes are never read: appending
    any positions to a proof that has at least as many positions as hashes
    leaves the result of [VerifyProof] unchanged. *)
Theorem VerifyProof_surplus_positions (h rootHash : list byte)
  (hs : list (list byte)) (ps extra : list bool) :
  (length hs <= length ps)%nat ->
  VerifyProof h (Some {| Hashes := hs; Positions := ps ++ extra |}) rootHash
  = VerifyProof h (Some {| Hashes := hs; Positions := ps |}) rootHash.
Proof.
  intros L.
  rewrite !VerifyProof_eq by (cbn [Hashes Positions]; rewrite ?length_app; lia).
  cbn [Hashes Positions]. rewrite climb_surplus by exact L. reflexivity.
Qed.

Lemma VerifyProof_surplus_positions_witness :
  VerifyProof (Transaction_Hash printed tx1)
    (Some {| Hashes := [Transaction_Hash printed tx2];
             Positions := [true] ++ [false; false] |})
    (rootHashOf (treeOf [tx1; tx2]))
  = VerifyProof (Transaction_Hash printed tx1)
      (Some {| Hashes := [Transaction_Hash printed tx2]; Positions := [true] |})
      (rootHashOf (treeOf [tx1; tx2])).
Proof.
  apply VerifyProof_surplus_positions. cbn [length]. lia.
Defined.

(** X6. [VerifyProof] checks no length: bytes can be moved between the
    digest under test and the first sibling hash, on the side where they
    touch, without changing what the call returns, all slices well
    placed. *)
Theorem VerifyProof_resplit (m : Mem.memory)
  (whole part s s' rootHash : Mem.slice) (hs : list Mem.slice)
  (p : bool) (ps : list bool) (moved : list byte) :
  Mem.placed m whole (s :: hs) rootHash -> Mem.placed m part (s' :: hs) rootHash ->
  (if p
   then Mem.load m whole = Mem.load m part ++ moved
        /\ Mem.load m s' = moved ++ Mem.load m s
   else Mem.load m whole = moved ++ Mem.load m part
        /\ Mem.load m s' = Mem.load m s ++ moved) ->
  Mem.VerifyProof m whole
    (Some {| Mem.Hashes := s :: hs; Mem.Positions := p :: ps |}) rootHash
  = Mem.VerifyProof m part
      (Some {| Mem.Hashes := s' :: hs; Mem.Positions := p :: ps |}) rootHash.
Proof.
  intros P P' E. rewrite !placed_VerifyProof by assumption.
  unfold VerifyProof. cbn [Hashes Positions map verifyLoop].
  destruct p.
  - change (index (true :: ps) 0) with (Ret (A := bool) true). cbn [bind].
    destruct E as [-> ->]. rewrite <- app_assoc. reflexivity.
  - change (index (false :: ps) 0) with (Ret (A := bool) false). cbn [bind].
    destruct E as [-> ->]. rewrite <- app_assoc. reflexivity.
Qed.

Lemma VerifyProof_resplit_witness :
  Mem.VerifyProof resplitMemory (Mem.whole resplitMemory 0)
    (Some {| Mem.Hashes := [Mem.whole resplitMemory 2];
             Mem.Positions := [true] |})
    (Mem.whole resplitMemory 4)
  = Mem.VerifyProof resplitMemory (Mem.whole resplitMemory 1)
      (Some {| Mem.Hashes := [Mem.whole resplitMemory 3];
               Mem.Positions := [true] |})
      (Mem.whole resplitMemory 4).
Proof.
  apply (VerifyProof_resplit resplitMemory (Mem.whole resplitMemory 0)
           (Mem.whole resplitMemory 1) (Mem.whole resplitMemory 2)
           (Mem.whole resplitMemory 3) (Mem.whole resplitMemory 4) [] true []
           (skipn 16 (Transaction_Hash printed tx1))).
  - vm_compute. repeat split; repeat constructor; lia.
  - vm_compute. repeat split; repeat constructor; lia.
  - split; vm_compute; reflexivity.
Defined.

(** ** Trees with the same root *)

Lemma paddedLeaves_odd_snoc (s : list MerkleNode) (a : MerkleNode) :
  Nat.even (length s) = true ->
  paddedLeaves (s ++ [a]) = s ++ [a; a]
  /\ paddedLeaves (s ++ [a; a]) = s ++ [a; a].
Proof.
  intros Ev. unfold paddedLeaves. rewrite !length_app. cbn [length].
  replace (Nat.odd (length s + 1)) with true.
  2: { symmetry. rewrite odd_even_nat, Nat.add_1_r, Nat.even_succ, odd_even_nat, Ev.
       reflexivity. }
  replace (Nat.odd (length s + 2)) with false.
  2: { symmetry. rewrite odd_even_nat.
       replace (length s + 2)%nat with (S (S (length s))) by lia.
       rewrite Nat.even_succ_succ, Ev. reflexivity. }
  split; [apply dupLast_snoc | reflexivity].
Qed.

(** X7. Repeating the last transaction of an odd-length list does not
    change the tree: the list and the list with its last transaction once
    more give the same root node, the same [GetRootHash], and the same
    proof for every index of the shorter list. *)
Theorem duplicate_last_same_root (float64 : Type) (format2f : float64 -> string)
  (init : list (Transaction float64)) (t : Transaction float64) :
  Nat.even (length init) = true ->
  exists mt mt' root,
    NewMerkleTree format2f (init ++ [t]) = Ret mt
    /\ NewMerkleTree format2f (init ++ [t; t]) = Ret mt'
    /\ Root mt = Some root /\ Root mt' = Some root
    /\ GetRootHash mt = GetRootHash mt'
    /\ forall i, 0 <= i < len (init ++ [t]) ->
                 GenerateProof mt i = GenerateProof mt' i.
Proof.
  intros Ev.
  destruct (NewMerkleTree_spec float64 format2f (init ++ [t]))
    as (root & Hnew & _); [destruct init; discriminate |].
  destruct (NewMerkleTree_spec float64 format2f (init ++ [t; t]))
    as (root' & Hnew' & _); [destruct init; discriminate |].
  destruct (paddedLeaves_odd_snoc (map (leafOf format2f) init)
              (leafOf format2f t)) as [P1 P2];
    [rewrite length_map; exact Ev |].
  assert (root' = root) as ->.
  { pose proof Hnew as H. pose proof Hnew' as H'.
    unfold NewMerkleTree in H, H'.
    rewrite leafLoop_eq, padLeaves_eq, map_app in H, H'. cbn [map bind] in H, H'.
    rewrite P1 in H. rewrite P2 in H'.
    destruct (len (init ++ [t]) =? 0); [discriminate |].
    destruct (len (init ++ [t; t]) =? 0); [discriminate |].
    destruct (buildLoop _ _) as [nodes | | |]; cbn [bind] in H, H';
      try discriminate.
    destruct (index nodes 0); cbn [bind] in H, H'; try discriminate.
    congruence. }
  eexists _, _, root. split; [exact Hnew |]. split; [exact Hnew' |].
  do 3 (split; [reflexivity |]).
  intros i Hi. unfold GenerateProof. cbn [Transactions Leaves].
  replace (i <? 0) with false by (symmetry; apply Z.ltb_ge; lia).
  replace (len (init ++ [t]) <=? i) with false
    by (symmetry; apply Z.leb_gt; lia).
  replace (len (init ++ [t; t]) <=? i) with false.
  2: { symmetry. apply Z.leb_gt. rewrite len_app in *. unfold len in *.
       cbn [length] in *. lia. }
  cbn [orb]. rewrite !padLeaves_eq, !map_app. cbn [map bind].
  rewrite P1, P2. reflexivity.
Qed.

Lemma duplicate_last_same_root_witness :
  exists mt mt' root,
    NewMerkleTree printed ([tx1; tx2] ++ [tx3]) = Ret mt
    /\ NewMerkleTree printed ([tx1; tx2] ++ [tx3; tx3]) = Ret mt'
    /\ Root mt = Some root /\ Root mt' = Some root
    /\ GetRootHash mt = GetRootHash mt'
    /\ forall i, 0 <= i < len ([tx1; tx2] ++ [tx3]) ->
                 GenerateProof mt i = GenerateProof mt' i.
Proof.
  apply (duplicate_last_same_root string printed [tx1; tx2] tx3).
  reflexivity.
Defined.

Lemma length_paddedLevel_eq (l l' : list MerkleNode) :
  length l = length l' -> length (paddedLevel l) = length (paddedLevel l').
Proof.
  intros L.
  destruct (paddedLevel_cases l) as [[-> O] | (a & _ & -> & O & G)];
    destruct (paddedLevel_cases l') as [[-> O'] | (a' & _ & -> & O' & G')];
    rewrite ?length_app; cbn [length]; try lia.
  - rewrite L in O. rewrite O' in O. cbn [andb] in O.
    apply Nat.ltb_ge in O. lia.
  - rewrite <- L in O'. rewrite O in O'. cbn [andb] in O'.
    apply Nat.ltb_ge in O'. lia.
Qed.

Lemma padded_hash_inj (l l' : list MerkleNode) (pl pl' : list MerkleNode) :
  length l = length l' -> length pl = length pl' ->
  (pl = l \/ exists a, pl = l ++ [a]) ->
  (pl' = l' \/ exists a', pl' = l' ++ [a']) ->
  map Hash pl = map Hash pl' -> map Hash l = map Hash l'.
Proof.
  intros L Lp [-> | [a ->]] [-> | [a' ->]] E;
    rewrite ?length_app in Lp; cbn [length] in Lp; try lia.
  - exact E.
  - rewrite !map_app in E.
    apply app_inj_length in E; [tauto | rewrite !length_map; exact L].
Qed.

Lemma paddedLevel_shape (l : list MerkleNode) :
  paddedLevel l = l \/ exists a, paddedLevel l = l ++ [a].
Proof.
  destruct (paddedLevel_cases l) as [[E _] | (a & _ & E & _)];
    [left; exact E | right; exists a; exact E].
Qed.

Lemma paddedLeaves_shape (l : list MerkleNode) :
  paddedLeaves l = l \/ exists a, paddedLeaves l = l ++ [a].
Proof.
  destruct (paddedLeaves_cases l) as [[E _] | (a & _ & E & _)];
    [left; exact E | right; exists a; exact E].
Qed.

Lemma length_paddedLeaves_eq (l l' : list MerkleNode) :
  length l = length l' -> length (paddedLeaves l) = length (paddedLeaves l').
Proof.
  intros L.
  destruct (paddedLeaves_cases l) as [[-> O] | (a & _ & -> & O)];
    destruct (paddedLeaves_cases l') as [[-> O'] | (a' & _ & -> & O')];
    rewrite ?length_app; cbn [length]; try lia; congruence.
Qed.

Lemma In_pairs_parent (nodes : list MerkleNode) :
  Nat.even (length nodes) = true ->
  forall n, In n nodes ->
    exists l r, In (NewMerkleNode (Some l) (Some r) []) (pairs nodes)
                /\ (n = l \/ n = r).
Proof.
  induction nodes as [| a | a b rest IH] using list_pair_ind; intros Ev n Hn.
  - destruct Hn.
  - discriminate.
  - cbn [pairs]. destruct Hn as [<- | [<- | Hn]].
    + exists a, b. split; [left; reflexivity | left; reflexivity].
    + exists a, b. split; [left; reflexivity | right; reflexivity].
    + destruct (IH Ev n Hn) as (l & r & Hp & Hlr).
      exists l, r. split; [right; exact Hp | exact Hlr].
Qed.

Lemma In_paddedLevel (level : list MerkleNode) (n : MerkleNode) :
  In n level -> In n (paddedLevel level).
Proof.
  intros H. destruct (paddedLevel_shape level) as [-> | [a ->]];
    [exact H | apply in_or_app; left; exact H].
Qed.

(** Every node of a level that the construction starts from lies under the
    root it ends on. *)
Lemma Builds_Under (nodes : list MerkleNode) (root : MerkleNode) :
  Builds nodes root -> level_ok nodes ->
  forall n, In n nodes -> exists k, Under root n k.
Proof.
  induction 1 as [root | nodes root G B IH]; intros Hok n Hn.
  - destruct Hn as [<- | []]. exists 0%nat. constructor.
  - destruct (level_ok_nextLevel nodes Hok G) as (Hok' & _ & _).
    assert (Nat.even (length nodes) = true) as Ev
        by (destruct Hok as [? | [Ev _]]; [lia | exact Ev]).
    destruct (In_pairs_parent nodes Ev n Hn) as (l & r & Hp & Hlr).
    destruct (IH Hok' _ (In_paddedLevel _ _ Hp)) as (k & U).
    exists (S k). destruct Hlr as [-> | ->].
    + eapply Under_left; [exact U | reflexivity].
    + eapply Under_right; [exact U | reflexivity].
Qed.

(** Rows of parents with the same hashes come from levels with the same
    hashes, or two parents at the same place hashed inputs on which SHA-256
    collides. *)
Lemma pairs_hash_inj (nodes : list MerkleNode) :
  forall nodes' : list MerkleNode,
    length nodes = length nodes' ->
    Forall sized nodes -> Forall sized nodes' ->
    map Hash (pairs nodes) = map Hash (pairs nodes') ->
    Nat.even (length nodes) = true ->
    map Hash nodes = map Hash nodes'
    \/ exists l r l' r',
         In (NewMerkleNode (Some l) (Some r) []) (pairs nodes)
         /\ In (NewMerkleNode (Some l') (Some r') []) (pairs nodes')
         /\ collide (Hash l ++ Hash r) (Hash l' ++ Hash r').
Proof.
  induction nodes as [| a | a b l IH] using list_pair_ind;
    intros nodes' L S S' E Ev.
  - destruct nodes'; [left; reflexivity | discriminate].
  - discriminate.
  - destruct nodes' as [| a' [| b' l']]; cbn [length] in L; try discriminate.
    cbn [pairs map] in E. rewrite !Hash_parent in E. injection E as E0 E.
    inversion S as [| ? ? Sa S1]. inversion S1 as [| ? ? Sb S2].
    inversion S' as [| ? ? Sa' S1']. inversion S1' as [| ? ? Sb' S2'].
    subst. cbn [pairs].
    destruct (list_eq_dec Byte.byte_eq_dec (Hash a ++ Hash b)
                (Hash a' ++ Hash b')) as [Eab | N];
      [| right; exists a, b, a', b';
         split; [left; reflexivity |];
         split; [left; reflexivity | split; [exact N | exact E0]]].
    destruct (IH l' ltac:(lia) S2 S2' E)
      as [El | (x & y & x' & y' & Hx & Hx' & C)].
    { cbn [length] in Ev. rewrite Nat.even_succ_succ in Ev. exact Ev. }
    + apply app_inj_length in Eab; [| unfold sized in *; congruence].
      destruct Eab as [Ea Eb]. left. cbn [map]. congruence.
    + right. exists x, y, x', y'.
      split; [right; exact Hx |]. split; [right; exact Hx' | exact C].
Qed.

Lemma Builds_hash_inj (nodes : list MerkleNode) (root : MerkleNode) :
  Builds nodes root ->
  forall (nodes' : list MerkleNode) (root' : MerkleNode),
    Builds nodes' root' -> length nodes = length nodes' ->
    level_ok nodes -> Forall sized nodes -> Forall sized nodes' ->
    Hash root = Hash root' ->
    map Hash nodes = map Hash nodes'
    \/ exists (l r l' r' : MerkleNode) (k k' : nat),
         Under root (NewMerkleNode (Some l) (Some r) []) k
         /\ Under root' (NewMerkleNode (Some l') (Some r') []) k'
         /\ collide (Hash l ++ Hash r) (Hash l' ++ Hash r').
Proof.
  induction 1 as [root | nodes root G B IH];
    intros nodes' root' B' L Hok S S' E.
  - destruct nodes' as [| r' [| ? ?]]; cbn [length] in L; try discriminate.
    inversion B' as [| ? ? G' _]; subst; [| cbn [length] in G'; lia].
    left. cbn [map]. congruence.
  - inversion B' as [| ? ? G' B'']; subst; [cbn [length] in L; lia |].
    assert (level_ok nodes') as Hok'0 by (unfold level_ok in *; rewrite <- L; exact Hok).
    destruct (level_ok_nextLevel nodes Hok G) as (Hok' & _ & _).
    destruct (level_ok_nextLevel nodes' Hok'0 G') as (Hok'' & _ & _).
    assert (length (pairs nodes) = length (pairs nodes')) as Lp
        by (rewrite !length_pairs; congruence).
    destruct (IH _ _ B'' (length_paddedLevel_eq _ _ Lp) Hok'
                 (sized_nextLevel nodes) (sized_nextLevel nodes') E)
      as [En | C]; [| right; exact C].
    apply (padded_hash_inj (pairs nodes) (pairs nodes')) in En;
      [| exact Lp | apply length_paddedLevel_eq, Lp
       | apply paddedLevel_shape | apply paddedLevel_shape].
    destruct (pairs_hash_inj nodes nodes' L S S' En)
      as [Eh | (l & r & l' & r' & Hp & Hp' & C)];
      [destruct Hok as [? | [Ev _]]; [lia | exact Ev] | left; exact Eh |].
    destruct (Builds_Under _ _ B Hok' _ (In_paddedLevel _ _ Hp)) as (k & U).
    destruct (Builds_Under _ _ B'' Hok'' _ (In_paddedLevel _ _ Hp')) as (k' & U').
    right. exists l, r, l', r', k, k'. auto.
Qed.

(** X8. Two lists of transactions of the same length whose trees show the
    same [GetRootHash] have the same sequence of transaction hashes, or a
    node of the one tree and a node of the other hashed two inputs on which
    SHA-256 collides. *)
Theorem same_root_same_digests (float64 : Type) (format2f : float64 -> string)
  (transactions transactions' : list (Transaction float64))
  (mt mt' : MerkleTree float64) (root root' : MerkleNode) :
  NewMerkleTree format2f transactions = Ret mt ->
  NewMerkleTree format2f transactions' = Ret mt' ->
  Root mt = Some root -> Root mt' = Some root' ->
  length transactions = length transactions' ->
  GetRootHash mt = GetRootHash mt' ->
  map (Transaction_Hash format2f) transactions
  = map (Transaction_Hash format2f) transactions'
  \/ exists (l r l' r' : MerkleNode) (k k' : nat),
       Under root (NewMerkleNode (Some l) (Some r) []) k
       /\ Under root' (NewMerkleNode (Some l') (Some r') []) k'
       /\ collide (Hash l ++ Hash r) (Hash l' ++ Hash r').
Proof.
  intros Hnew Hnew' Hr Hr' L E.
  assert (transactions <> []) as NE by (intros ->; discriminate).
  assert (transactions' <> []) as NE' by (intros ->; discriminate).
  destruct (NewMerkleTree_spec float64 format2f transactions NE)
    as (root0 & E1 & Hgen).
  destruct (NewMerkleTree_spec float64 format2f transactions' NE')
    as (root0' & E1' & Hgen').
  rewrite E1 in Hnew. injection Hnew as <-.
  rewrite E1' in Hnew'. injection Hnew' as <-.
  cbn [Root] in Hr, Hr'. injection Hr as ->. injection Hr' as ->.
  unfold GetRootHash in E. cbn [Root] in E. apply EncodeToString_inj in E.
  destruct (Hgen 0%nat) as (hs & ps & _ & Hpath);
    [destruct transactions; [congruence | cbn [length]; lia] |].
  destruct (Hgen' 0%nat) as (hs' & ps' & _ & Hpath');
    [destruct transactions'; [congruence | cbn [length]; lia] |].
  set (lv := map (leafOf format2f) transactions) in *.
  set (lv' := map (leafOf format2f) transactions') in *.
  assert (length lv = length lv') as Ll
      by (subst lv lv'; rewrite !length_map; exact L).
  assert (lv <> []) as NEl
      by (subst lv; destruct transactions; [congruence | discriminate]).
  destruct (Builds_hash_inj _ _ (Path_Builds _ _ _ _ _ Hpath) _ _
              (Path_Builds _ _ _ _ _ Hpath')
              (length_paddedLeaves_eq _ _ Ll)
              (level_ok_paddedLeaves _ NEl)
              (sized_paddedLeaves _ (sized_leaves _ _ _))
              (sized_paddedLeaves _ (sized_leaves _ _ _)) E)
    as [En | C]; [left | right; exact C].
  apply (padded_hash_inj lv lv') in En;
    [| exact Ll | apply length_paddedLeaves_eq, Ll
     | apply paddedLeaves_shape | apply paddedLeaves_shape].
  subst lv lv'. rewrite !map_map in En. exact En.
Qed.

Lemma same_root_same_digests_witness :
  map (Transaction_Hash printed) [colonInID; tx2]
  = map (Transaction_Hash printed) [colonInFrom; tx2]
  \/ exists (l r l' r' : MerkleNode) (k k' : nat),
       Under (rootNodeOf (treeOf [colonInID; tx2]))
         (NewMerkleNode (Some l) (Some r) []) k
       /\ Under (rootNodeOf (treeOf [colonInFrom; tx2]))
            (NewMerkleNode (Some l') (Some r') []) k'
       /\ collide (Hash l ++ Hash r) (Hash l' ++ Hash r').
Proof.
  apply (same_root_same_digests string printed [colonInID; tx2]
           [colonInFrom; tx2] (treeOf [colonInID; tx2])
           (treeOf [colonInFrom; tx2])).
  - vm_compute. reflexivity.
  - vm_compute. reflexivity.
  - vm_compute. reflexivity.
  - vm_compute. reflexivity.
  - reflexivity.
  - vm_compute. reflexivity.
Defined.

(** ** The shape of a built tree *)

Lemma Perfect_pairs (k : nat) (nodes : list MerkleNode) :
  Forall (Perfect k) nodes -> Forall (Perfect (S k)) (pairs nodes).
Proof.
  induction nodes as [| a | a b l IH] using list_pair_ind; intros H;
    cbn [pairs]; try constructor.
  - inversion H as [| ? ? Ha H']. inversion H' as [| ? ? Hb H''].
    apply Perfect_node; assumption.
  - inversion H as [| ? ? Ha H']. inversion H' as [| ? ? Hb H'']. auto.
Qed.

Lemma Forall_nextLevel (P Q : MerkleNode -> Prop) (nodes : list MerkleNode) :
  (Forall P nodes -> Forall Q (pairs nodes)) ->
  Forall P nodes -> Forall Q (nextLevel nodes).
Proof.
  intros Hp H. apply Hp in H. unfold nextLevel.
  destruct (paddedLevel_cases (pairs nodes)) as [[-> _] | (a & Ha & -> & _)];
    [exact H | apply Forall_snoc_In; assumption].
Qed.

Lemma Forall_paddedLeaves (P : MerkleNode -> Prop) (nodes : list MerkleNode) :
  Forall P nodes -> Forall P (paddedLeaves nodes).
Proof.
  intros H.
  destruct (paddedLeaves_cases nodes) as [[-> _] | (a & Ha & -> & _)];
    [exact H | apply Forall_snoc_In; assumption].
Qed.

Lemma Path_Perfect (nodes : list MerkleNode) (c : nat) (hs : list (list byte))
  (ps : list bool) (root : MerkleNode) :
  Path nodes c hs ps root ->
  forall k, Forall (Perfect k) nodes -> Perfect (k + length hs) root.
Proof.
  induction 1 as [root | nodes c sib hs ps root G Hsib Hpath IH]; intros k H.
  - inversion H. cbn [length]. rewrite Nat.add_0_r. assumption.
  - cbn [length]. rewrite Nat.add_succ_r. apply (IH (S k)).
    apply (Forall_nextLevel (Perfect k)); [apply Perfect_pairs | exact H].
Qed.

Lemma log2_up_paddedLeaves (nodes : list MerkleNode) :
  nodes <> [] ->
  Z.log2_up (len (paddedLeaves nodes)) = Z.log2_up (Z.max (len nodes) 2).
Proof.
  intros NE. unfold len.
  destruct (paddedLeaves_cases nodes) as [[-> O] | (a & _ & -> & O)].
  - f_equal. destruct nodes as [| x [| y l]]; cbn [length] in *;
      [congruence | discriminate | lia].
  - rewrite length_app. cbn [length].
    rewrite Nat2Z.inj_add. change (Z.of_nat 1) with 1.
    destruct (Nat.eq_dec (length nodes) 1) as [E | N].
    + rewrite E. reflexivity.
    + assert (length nodes <> 0%nat) by (destruct nodes; [congruence | discriminate]).
      rewrite Z.max_l by lia. apply log2_up_succ_odd; [lia |].
      apply Nat.odd_spec in O. destruct O as [m ->].
      rewrite Nat2Z.inj_add, Nat2Z.inj_mul. change (Z.of_nat 2) with 2.
      change (Z.of_nat 1) with 1. rewrite Z.add_comm, Z.odd_add_mul_2.
      reflexivity.
Qed.

(** The root of a built tree with its depth. *)
Lemma built_depth (float64 : Type) (format2f : float64 -> string)
  (transactions : list (Transaction float64)) :
  transactions <> [] ->
  exists root hs ps,
    NewMerkleTree format2f transactions
    = Ret {| Root := Some root; Transactions := transactions;
             Leaves := map (leafOf format2f) transactions |}
    /\ Path (paddedLeaves (map (leafOf format2f) transactions)) 0 hs ps root
    /\ length hs = Z.to_nat (Z.log2_up (Z.max (len transactions) 2)).
Proof.
  intros NE.
  destruct (NewMerkleTree_spec float64 format2f transactions NE)
    as (root & Hnew & Hgen).
  destruct (Hgen 0%nat) as (hs & ps & _ & Hpath);
    [destruct transactions; [congruence | cbn [length]; lia] |].
  exists root, hs, ps. split; [exact Hnew |]. split; [exact Hpath |].
  assert (map (leafOf format2f) transactions <> []) as NE'
      by (destruct transactions; [congruence | discriminate]).
  pose proof (Path_log2 _ _ _ _ _ Hpath (level_ok_paddedLeaves _ NE')) as E.
  rewrite (log2_up_paddedLeaves _ NE') in E.
  unfold len in E at 2. rewrite length_map in E. fold (len transactions) in E.
  rewrite <- E. unfold len. lia.
Qed.

(** X9. A built tree is perfect: leaves have no children, every other
    node has two, and every leaf under the root is exactly
    ceil(log2(max(n, 2))) steps down, [n] the number of transactions. *)
Theorem built_tree_is_perfect (float64 : Type) (format2f : float64 -> string)
  (transactions : list (Transaction float64)) :
  transactions <> [] ->
  exists mt root,
    NewMerkleTree format2f transactions = Ret mt
    /\ Root mt = Some root
    /\ Forall (Perfect 0) (Leaves mt)
    /\ Perfect (Z.to_nat (Z.log2_up (Z.max (len transactions) 2))) root.
Proof.
  intros NE.
  destruct (built_depth float64 format2f transactions NE)
    as (root & hs & ps & Hnew & Hpath & Hd).
  assert (Forall (Perfect 0) (map (leafOf format2f) transactions)) as Hl.
  { apply Forall_forall. intros n Hn. apply in_map_iff in Hn.
    destruct Hn as (tx & <- & _). apply Perfect_leaf. }
  eexists _, root. split; [exact Hnew |]. split; [reflexivity |].
  split; [exact Hl |]. rewrite <- Hd.
  apply (Path_Perfect _ _ _ _ _ Hpath 0), Forall_paddedLeaves, Hl.
Qed.

Lemma built_tree_is_perfect_witness :
  exists mt root,
    NewMerkleTree printed [tx1; tx2; tx3] = Ret mt
    /\ Root mt = Some root
    /\ Forall (Perfect 0) (Leaves mt)
    /\ Perfect (Z.to_nat (Z.log2_up (Z.max (len [tx1; tx2; tx3]) 2))) root.
Proof.
  apply (built_tree_is_perfect string printed [tx1; tx2; tx3]). discriminate.
Defined.

(** ** PrintTree *)

Example print_two_transactions :
  PrintTree (treeOf [tx1; tx2])
  = Ret ("Merkle Tree Structure:" ++ nl ++
         "=====================" ++ nl ++
         "└── 6da29b708285db8f..." ++ nl ++
         "    ├── 2d7bca88938e4321..." ++ nl ++
         "    └── 3b98bd713328d58a..." ++ nl ++
         nl ++ "Root Hash: " ++ GetRootHash (treeOf [tx1; tx2]) ++ nl)%string.
Proof. vm_compute. reflexivity. Qed.

Lemma countLines_app (a b : string) :
  countLines (a ++ b) = (countLines a + countLines b)%nat.
Proof.
  induction a as [| c a IH]; cbn [String.append countLines]; [reflexivity |].
  rewrite IH. lia.
Qed.

Lemma hex_digit_not_nl (c : ascii) :
  isHexDigit c = true -> Ascii.eqb c (ascii_of_nat 10) = false.
Proof.
  destruct c as [[] [] [] [] [] [] [] []]; vm_compute; congruence.
Qed.

Lemma countLines_hex (src : list byte) :
  countLines (Hex.EncodeToString src) = 0%nat.
Proof.
  induction src as [| v src IH]; [reflexivity |].
  cbn [Hex.EncodeToString countLines].
  destruct (hex_digits_of_byte v) as [H1 H0].
  rewrite (hex_digit_not_nl _ H1), (hex_digit_not_nl _ H0), IH. reflexivity.
Qed.

Lemma countLines_substring (s : string) :
  forall n m, (countLines (substring n m s) <= countLines s)%nat.
Proof.
  induction s as [| c s IH]; intros n m.
  - destruct n, m; cbn; lia.
  - destruct n as [| n]; [destruct m as [| m] |]; cbn [substring countLines].
    + lia.
    + specialize (IH 0%nat m). lia.
    + specialize (IH n m). lia.
Qed.

Lemma Printable_pairs (nodes : list MerkleNode) :
  Forall Printable nodes -> Forall Printable (pairs nodes).
Proof.
  induction nodes as [| a | a b l IH] using list_pair_ind; intros H;
    cbn [pairs]; try constructor.
  - inversion H as [| ? ? Ha H']. inversion H' as [| ? ? Hb H''].
    apply Printable_node.
    + rewrite length_Sum256. unfold Size. lia.
    + intros n [= <-]. exact Ha.
    + intros n [= <-]. exact Hb.
  - inversion H as [| ? ? Ha H']. inversion H' as [| ? ? Hb H'']. auto.
Qed.

Lemma Path_Printable (nodes : list MerkleNode) (c : nat) (hs : list (list byte))
  (ps : list bool) (root : MerkleNode) :
  Path nodes c hs ps root -> Forall Printable nodes -> Printable root.
Proof.
  induction 1 as [root | nodes c sib hs ps root G Hsib Hpath IH]; intros H.
  - inversion H. assumption.
  - apply IH, (Forall_nextLevel Printable); [apply Printable_pairs | exact H].
Qed.

Lemma sliceTo_hex (h : list byte) :
  (8 <= length h)%nat ->
  exists short,
    sliceTo (Hex.EncodeToString h) 16 = Ret short /\ countLines short = 0%nat.
Proof.
  intros L. unfold sliceTo.
  replace (16 <=? String.length (Hex.EncodeToString h))%nat with true
    by (symmetry; apply Nat.leb_le; rewrite length_EncodeToString; lia).
  eexists. split; [reflexivity |].
  pose proof (countLines_substring (Hex.EncodeToString h) 0 16) as H.
  rewrite countLines_hex in H. lia.
Qed.

(** [printNode] on a perfect subtree of printable nodes writes one line
    per node, counting a node once for each way down to it. *)
Lemma printNode_lines (d : nat) (node : MerkleNode) :
  Perfect d node -> Printable node ->
  forall (prefix : string) (isLast : bool),
    countLines prefix = 0%nat ->
    exists out,
      printNode node prefix isLast = Ret out
      /\ countLines out = (2 ^ (d + 1) - 1)%nat.
Proof.
  induction 1 as [h | d l r h Pl IHl Pr IHr]; intros Hp prefix isLast Hpre;
    inversion Hp as [? ? ? Hh Hl Hr]; subst;
    destruct (sliceTo_hex h Hh) as (short & Es & Cs).
  - cbn [printNode]. destruct isLast; rewrite Es; cbn [bind];
      eexists; (split; [reflexivity |]);
      rewrite !countLines_app, Hpre, Cs; reflexivity.
  - assert (forall b : bool,
               countLines (if b then prefix ++ "    " else prefix ++ "│   ")%string
               = 0%nat) as Hpre'.
    { intros []; rewrite countLines_app, Hpre; reflexivity. }
    cbn [printNode]. destruct isLast; rewrite Es; cbn [bind].
    + destruct (IHr (Hr r eq_refl) _ false (Hpre' true)) as (outR & Er & Cr).
      destruct (IHl (Hl l eq_refl) _ true (Hpre' true)) as (outL & El & Cl).
      rewrite Er. cbn [bind]. rewrite El. cbn [bind].
      eexists. split; [reflexivity |].
      rewrite !countLines_app, Hpre, Cs, Cr, Cl.
      change (countLines "└── ") with 0%nat.
      change (countLines "...") with 0%nat. change (countLines nl) with 1%nat.
      replace (S d + 1)%nat with (S (d + 1)) by lia.
      rewrite (Nat.pow_succ_r' 2 (d + 1)).
      assert (1 <= 2 ^ (d + 1))%nat
        by (apply Nat.neq_0_lt_0, Nat.pow_nonzero; lia).
      lia.
    + destruct (IHr (Hr r eq_refl) _ false (Hpre' false)) as (outR & Er & Cr).
      destruct (IHl (Hl l eq_refl) _ true (Hpre' false)) as (outL & El & Cl).
      rewrite Er. cbn [bind]. rewrite El. cbn [bind].
      eexists. split; [reflexivity |].
      rewrite !countLines_app, Hpre, Cs, Cr, Cl.
      change (countLines "├── ") with 0%nat.
      change (countLines "...") with 0%nat. change (countLines nl) with 1%nat.
      replace (S d + 1)%nat with (S (d + 1)) by lia.
      rewrite (Nat.pow_succ_r' 2 (d + 1)).
      assert (1 <= 2 ^ (d + 1))%nat
        by (apply Nat.neq_0_lt_0, Nat.pow_nonzero; lia).
      lia.
Qed.

(** X10. [PrintTree] on a built tree does not panic, and writes
    2^(d+1) + 3 lines, [d] = ceil(log2(max(n, 2))): two header lines, one
    line per node of the perfect tree (a duplicated node once for each
    parent side it fills), an empty line and the root hash. *)
Theorem PrintTree_built (float64 : Type) (format2f : float64 -> string)
  (transactions : list (Transaction float64)) :
  transactions <> [] ->
  exists mt out,
    NewMerkleTree format2f transactions = Ret mt
    /\ PrintTree mt = Ret out
    /\ countLines out
       = (2 ^ (Z.to_nat (Z.log2_up (Z.max (len transactions) 2)) + 1) + 3)%nat.
Proof.
  intros NE.
  destruct (built_depth float64 format2f transactions NE)
    as (root & hs & ps & Hnew & Hpath & Hd).
  assert (Forall (Perfect 0) (map (leafOf format2f) transactions)) as Hl.
  { apply Forall_forall. intros n Hn. apply in_map_iff in Hn.
    destruct Hn as (tx & <- & _). apply Perfect_leaf. }
  assert (Forall Printable (map (leafOf format2f) transactions)) as Hq.
  { apply Forall_forall. intros n Hn. apply in_map_iff in Hn.
    destruct Hn as (tx & <- & _). apply Printable_node.
    - unfold Transaction_Hash. rewrite length_Sum256. unfold Size. lia.
    - discriminate.
    - discriminate. }
  pose proof (Path_Perfect _ _ _ _ _ Hpath 0 (Forall_paddedLeaves _ _ Hl)) as P.
  pose proof (Path_Printable _ _ _ _ _ Hpath (Forall_paddedLeaves _ _ Hq)) as Q.
  cbn [Nat.add] in P. rewrite Hd in P.
  destruct (printNode_lines _ _ P Q EmptyString true eq_refl) as (body & Eb & Cb).
  eexists _, _. split; [exact Hnew |].
  unfold PrintTree. cbn [Root]. rewrite Eb. cbn [bind].
  split; [reflexivity |].
  rewrite !countLines_app, Cb. unfold GetRootHash. cbn [Root].
  rewrite countLines_hex.
  change (countLines "Merkle Tree Structure:") with 0%nat.
  change (countLines "=====================") with 0%nat.
  change (countLines "Root Hash: ") with 0%nat.
  change (countLines nl) with 1%nat.
  assert (1 <= 2 ^ (Z.to_nat (Z.log2_up (Z.max (len transactions) 2)) + 1))%nat
    by (apply Nat.neq_0_lt_0, Nat.pow_nonzero; lia).
  lia.
Qed.

Lemma PrintTree_built_witness :
  exists mt out,
    NewMerkleTree printed [tx1; tx2; tx3] = Ret mt
    /\ PrintTree mt = Ret out
    /\ countLines out
       = (2 ^ (Z.to_nat (Z.log2_up (Z.max (len [tx1; tx2; tx3]) 2)) + 1) + 3)%nat.
Proof.
  apply (PrintTree_built string printed [tx1; tx2; tx3]). discriminate.
Defined.

(** X11. [PrintTree] panics on a tree whose root hash has fewer than 8
    bytes: the 16 first characters of its hexadecimal text do not exist. *)
Theorem PrintTree_short_root (float64 : Type) (mt : MerkleTree float64)
  (root : MerkleNode) :
  Root mt = Some root -> (length (Hash root) < 8)%nat ->
  PrintTree mt = Panic "slice bounds out of range".
Proof.
  intros Hr L. unfold PrintTree. rewrite Hr.
  destruct root as [l r h]. cbn [Hash] in L. cbn [printNode].
  assert (sliceTo (Hex.EncodeToString h) 16 = Panic "slice bounds out of range")
    as E.
  { unfold sliceTo.
    replace (16 <=? String.length (Hex.EncodeToString h))%nat with false;
      [reflexivity |].
    symmetry. apply Nat.leb_gt. rewrite length_EncodeToString. lia. }
  rewrite E. reflexivity.
Qed.

Lemma PrintTree_short_root_witness :
  PrintTree {| Root := Some (NewMerkleNode None None (bytes "abc"));
               Transactions := [tx1];
               Leaves := [NewMerkleNode None None (bytes "abc")] |}
  = Panic "slice bounds out of range".
Proof.
  apply (PrintTree_short_root string _ (NewMerkleNode None None (bytes "abc"))).
  - reflexivity.
  - cbn. lia.
Defined.

(** ** GenerateProof *)

Lemma even_to_nat (i : Z) : 0 <= i -> Nat.even (Z.to_nat i) = Z.even i.
Proof.
  intros Hi. destruct (Z.even i) eqn:E.
  - apply Z.even_spec in E. destruct E as [m ->].
    apply Nat.even_spec. exists (Z.to_nat m). lia.
  - rewrite <- Z.negb_odd in E. apply negb_false_iff in E.
    apply Z.odd_spec in E. destruct E as [m ->].
    rewrite <- Nat.negb_odd. apply negb_false_iff.
    apply Nat.odd_spec. exists (Z.to_nat m). lia.
Qed.

Lemma index_map_Some {A : Type} (s : list A) (i : Z) :
  index (map Some s) i = (x <- index s i ;; Ret (Some x)).
Proof.
  unfold index, len. rewrite length_map, nth_error_map.
  destruct ((i <? 0) || (Z.of_nat (length s) <=? i)); [reflexivity |].
  destruct (nth_error s (Z.to_nat i)); reflexivity.
Qed.

Lemma len_map {A B : Type} (f : A -> B) (s : list A) : len (map f s) = len s.
Proof. unfold len. rewrite length_map. reflexivity. Qed.

Lemma Ptr_padLeaves_Some (nodes : list MerkleNode) :
  Ptr.padLeaves (map Some nodes)
  = (nodes <- padLeaves nodes ;; Ret (map Some nodes)).
Proof.
  unfold Ptr.padLeaves, padLeaves. rewrite len_map.
  destruct (negb (Z.rem (len nodes) 2 =? 0)); [| reflexivity].
  rewrite index_map_Some.
  destruct (index nodes (len nodes - 1)); cbn [bind]; try reflexivity.
  rewrite map_app. reflexivity.
Qed.

Lemma Ptr_padLevel_Some (level : list MerkleNode) :
  Ptr.padLevel (map Some level)
  = (level <- padLevel level ;; Ret (map Some level)).
Proof.
  unfold Ptr.padLevel, padLevel. rewrite len_map.
  destruct (negb (Z.rem (len level) 2 =? 0) && (1 <? len level));
    [| reflexivity].
  rewrite index_map_Some.
  destruct (index level (len level - 1)); cbn [bind]; try reflexivity.
  rewrite map_app. reflexivity.
Qed.

Lemma Ptr_proofPairLoop_Some (fuel : nat) :
  forall (nodes : list MerkleNode) (i : Z) (proof : MerkleProof) (cur : Z)
         (level : list MerkleNode),
    Ptr.proofPairLoop fuel (map Some nodes) i proof cur (map Some level)
    = ('(proof, cur, level) <- proofPairLoop fuel nodes i proof cur level ;;
       Ret (proof, cur, map Some level)).
Proof.
  induction fuel as [| fuel IH]; intros nodes i proof cur level;
    cbn [Ptr.proofPairLoop proofPairLoop]; rewrite len_map;
    destruct (i <? len nodes); try reflexivity.
  rewrite !index_map_Some.
  destruct ((i =? cur) || (i + 1 =? cur)); [destruct (i =? cur) |];
    destruct (index nodes i) as [l | | |];
    destruct (index nodes (i + 1)) as [r | | |];
    cbn [bind Ptr.deref]; try reflexivity;
    change [Some (NewMerkleNode (Some l) (Some r) [])]
      with (map Some [NewMerkleNode (Some l) (Some r) []]);
    rewrite <- map_app; apply IH.
Qed.

Lemma Ptr_proofLoop_Some (fuel : nat) :
  forall (nodes : list MerkleNode) (proof : MerkleProof) (cur : Z),
    Ptr.proofLoop fuel (map Some nodes) proof cur
    = proofLoop fuel nodes proof cur.
Proof.
  induction fuel as [| fuel IH]; intros nodes proof cur;
    cbn [Ptr.proofLoop proofLoop]; rewrite len_map;
    destruct (1 <? len nodes); try reflexivity.
  rewrite length_map.
  pose proof (Ptr_proofPairLoop_Some (length nodes) nodes 0 proof cur []) as E.
  cbn [map] in E. rewrite E.
  destruct (proofPairLoop (length nodes) nodes 0 proof cur [])
    as [[[proof' cur'] level] | | |]; cbn [bind]; try reflexivity.
  rewrite Ptr_padLevel_Some.
  destruct (padLevel level) as [level' | | |]; cbn [bind]; try reflexivity.
  apply IH.
Qed.

(** On a tree without nil pointers the method does what [GenerateProof]
    does on the tree of values. *)
Lemma Ptr_GenerateProof_withPointers (float64 : Type) (mt : MerkleTree float64)
  (txIndex : Z) :
  Ptr.GenerateProof (Some (withPointers mt)) txIndex = GenerateProof mt txIndex.
Proof.
  unfold Ptr.GenerateProof, GenerateProof, withPointers.
  cbn [Ptr.deref bind Ptr.Transactions Ptr.Leaves]. rewrite len_map.
  destruct (txIndex <? 0); [reflexivity |]. cbn [orb].
  destruct (len (Transactions mt) <=? txIndex); [reflexivity |].
  rewrite Ptr_padLeaves_Some.
  destruct (padLeaves (Leaves mt)) as [nodes | | |]; cbn [bind];
    try reflexivity.
  rewrite length_map. apply Ptr_proofLoop_Some.
Qed.

Lemma pair_step_any {A : Type} (pre suf : list A) (l r : A) :
  (len pre <? len (pre ++ l :: r :: suf)) = true
  /\ index (pre ++ l :: r :: suf) (len pre) = Ret l
  /\ index (pre ++ l :: r :: suf) (len pre + 1) = Ret r
  /\ pre ++ l :: r :: suf = (pre ++ [l; r]) ++ suf
  /\ len pre + 2 = len (pre ++ [l; r]).
Proof.
  repeat split.
  - apply Z.ltb_lt. rewrite len_app. unfold len. cbn [length]. lia.
  - apply index_middle.
  - replace (pre ++ l :: r :: suf) with ((pre ++ [l]) ++ r :: suf)
      by (rewrite <- app_assoc; reflexivity).
    replace (len pre + 1) with (len (pre ++ [l]))
      by (rewrite len_app; reflexivity).
    apply index_middle.
  - rewrite <- app_assoc. reflexivity.
  - rewrite len_app. reflexivity.
Qed.

(** While the current node is not in the rest of the level, the inner loop
    only builds parents, nil children or not. *)
Lemma Ptr_proofPairLoop_other (fuel : nat) :
  forall (pre suf level : list (option MerkleNode)) (proof : MerkleProof)
         (cur : Z) (b : nat),
    length suf = (2 * b)%nat -> (b <= fuel)%nat ->
    cur < len pre \/ len pre + len suf <= cur ->
    Ptr.proofPairLoop fuel (pre ++ suf) (len pre) proof cur level
    = Ret (proof, cur, level ++ map Some (Ptr.parents suf)).
Proof.
  induction fuel as [| fuel IH]; intros pre suf level proof cur b Hsuf Hb Hcur.
  - assert (b = 0%nat) by lia. subst b. destruct suf; [| discriminate].
    simpl. rewrite app_nil_r, Z.ltb_irrefl, app_nil_r. reflexivity.
  - destruct suf as [| l [| r suf]]; cbn [length] in Hsuf.
    + simpl. rewrite !app_nil_r, Z.ltb_irrefl. reflexivity.
    + lia.
    + destruct (pair_step_any pre suf l r) as (Hlt & Hl & Hr & Hsh & Hlen).
      unfold len in Hcur. cbn [length] in Hcur.
      cbn [Ptr.proofPairLoop]. rewrite Hlt.
      replace (len pre =? cur) with false
        by (symmetry; apply Z.eqb_neq; unfold len; lia).
      replace (len pre + 1 =? cur) with false
        by (symmetry; apply Z.eqb_neq; unfold len; lia).
      cbn [orb bind]. rewrite Hl, Hr. cbn [bind].
      rewrite Hsh, Hlen, (IH _ suf _ _ _ (b - 1)%nat).
      * cbn [Ptr.parents map]. rewrite <- app_assoc. reflexivity.
      * lia.
      * lia.
      * rewrite <- Hlen. unfold len. lia.
Qed.

(** The iteration that meets the current node reads the hash of its
    sibling: a nil sibling stops the run there. *)
Lemma Ptr_proofPairLoop_found (fuel : nat) :
  forall (pre suf level : list (option MerkleNode)) (proof : MerkleProof)
         (c a b : nat),
    length pre = (2 * a)%nat -> length suf = (2 * b)%nat -> (b <= fuel)%nat ->
    (2 * a <= c < 2 * a + 2 * b)%nat ->
    exists sib,
      nth_error (pre ++ suf) (if Nat.even c then c + 1 else c - 1)%nat = Some sib
      /\ Ptr.proofPairLoop fuel (pre ++ suf) (len pre) proof (Z.of_nat c) level
         = match sib with
           | Some s =>
               Ret ({| Hashes := Hashes proof ++ [Hash s];
                       Positions := Positions proof ++ [Nat.even c] |},
                    Z.of_nat (c / 2), level ++ map Some (Ptr.parents suf))
           | None => Panic "invalid memory address or nil pointer dereference"
           end.
Proof.
  induction fuel as [| fuel IH]; intros pre suf level proof c a b Hpre Hsuf Hb Hc.
  - lia.
  - destruct suf as [| l [| r suf]]; cbn [length] in Hsuf; try lia.
    destruct (pair_step_any pre suf l r) as (Hlt & Hl & Hr & Hsh & Hlen).
    assert (Hq : Z.quot (len pre) 2 = Z.of_nat a) by (unfold len; elia).
    cbn [Ptr.proofPairLoop]. rewrite Hlt.
    destruct (Nat.eq_dec c (2 * a)) as [E | NE];
      [| destruct (Nat.eq_dec c (2 * a + 1)) as [E | NE']].
    + (* the current node is the left one of this pair *)
      subst c. exists r.
      assert (Nat.even (2 * a) = true) as Ev
          by (apply Nat.even_spec; exists a; reflexivity).
      rewrite Ev. split.
      * rewrite Hsh, nth_error_app1 by (rewrite length_app; cbn [length]; lia).
        replace (2 * a + 1)%nat with (length (pre ++ [l]))
          by (rewrite length_app; cbn [length]; lia).
        replace (pre ++ [l; r]) with ((pre ++ [l]) ++ r :: [])
          by (rewrite <- app_assoc; reflexivity).
        apply nth_error_middle.
      * replace (len pre =? Z.of_nat (2 * a)) with true
          by (symmetry; apply Z.eqb_eq; unfold len; lia).
        cbn [orb]. rewrite Hl, Hr. cbn [bind].
        destruct r as [r |]; cbn [Ptr.deref bind]; [| reflexivity].
        rewrite Hsh, Hlen, Hq.
        rewrite (Ptr_proofPairLoop_other fuel _ suf _ _ _ (b - 1)%nat)
          by (try rewrite <- Hlen; unfold len; lia).
        replace (2 * a / 2)%nat with a by elia.
        cbn [Ptr.parents map]. rewrite <- app_assoc. reflexivity.
    + (* the current node is the right one of this pair *)
      subst c. exists l.
      assert (Nat.even (2 * a + 1) = false) as Ev.
      { rewrite <- Nat.negb_odd.
        replace (Nat.odd (2 * a + 1)) with true; [reflexivity |].
        symmetry. apply Nat.odd_spec. exists a. reflexivity. }
      rewrite Ev. split.
      * replace (2 * a + 1 - 1)%nat with (length pre) by lia.
        apply nth_error_middle.
      * replace (len pre =? Z.of_nat (2 * a + 1)) with false
          by (symmetry; apply Z.eqb_neq; unfold len; lia).
        replace (len pre + 1 =? Z.of_nat (2 * a + 1)) with true
          by (symmetry; apply Z.eqb_eq; unfold len; lia).
        cbn [orb]. rewrite Hl, Hr. cbn [bind].
        destruct l as [l |]; cbn [Ptr.deref bind]; [| reflexivity].
        rewrite Hsh, Hlen, Hq.
        rewrite (Ptr_proofPairLoop_other fuel _ suf _ _ _ (b - 1)%nat)
          by (try rewrite <- Hlen; unfold len; lia).
        replace ((2 * a + 1) / 2)%nat with a by elia.
        cbn [Ptr.parents map]. rewrite <- app_assoc. reflexivity.
    + (* the current node lies further right *)
      replace (len pre =? Z.of_nat c) with false
        by (symmetry; apply Z.eqb_neq; unfold len; lia).
      replace (len pre + 1 =? Z.of_nat c) with false
        by (symmetry; apply Z.eqb_neq; unfold len; lia).
      cbn [orb bind]. rewrite Hl, Hr. cbn [bind].
      rewrite Hsh, Hlen.
      destruct (IH (pre ++ [l; r]) suf
                   (level ++ [Some (NewMerkleNode l r [])]) proof c
                   (a + 1)%nat (b - 1)%nat) as (sib & Hsib & Hrun).
      * rewrite length_app. cbn [length]. lia.
      * lia.
      * lia.
      * lia.
      * exists sib. split; [exact Hsib |].
        rewrite Hrun. destruct sib; [| reflexivity].
        cbn [Ptr.parents map]. rewrite <- app_assoc. reflexivity.
Qed.

Lemma length_parents (nodes : list (option MerkleNode)) :
  length (Ptr.parents nodes) = (length nodes / 2)%nat.
Proof.
  induction nodes as [| a | a b l IH] using list_pair_ind;
    [reflexivity | reflexivity |].
  cbn [Ptr.parents length]. rewrite IH.
  change (S (S (length l))) with (2 + length l)%nat. elia.
Qed.

Lemma Ptr_padLeaves_eq (nodes : list (option MerkleNode)) :
  Ptr.padLeaves nodes = Ret (Ptr.padded nodes)
  /\ Nat.even (length (Ptr.padded nodes)) = true.
Proof.
  unfold Ptr.padLeaves, Ptr.padded.
  destruct (Nat.odd (length nodes)) eqn:O.
  - replace (negb (Z.rem (len nodes) 2 =? 0)) with true.
    2: { symmetry. apply negb_true_iff, Z.eqb_neq.
         apply Nat.odd_spec in O. destruct O as [k O]. unfold len. elia. }
    destruct (exists_last (l := nodes)) as (s & a & ->);
      [intros ->; discriminate |].
    rewrite last_last. split.
    + replace (len (s ++ [a]) - 1) with (len s)
        by (rewrite len_app; unfold len; cbn [length]; lia).
      rewrite index_middle. reflexivity.
    + rewrite length_app. cbn [length]. rewrite Nat.add_1_r, Nat.even_succ.
      exact O.
  - replace (negb (Z.rem (len nodes) 2 =? 0)) with false.
    2: { symmetry. apply negb_false_iff, Z.eqb_eq.
         rewrite <- Nat.negb_even in O. apply negb_false_iff in O.
         apply Nat.even_spec in O. destruct O as [k O]. unfold len. elia. }
    split; [reflexivity |].
    rewrite <- Nat.negb_even in O. apply negb_false_iff in O. exact O.
Qed.

Lemma level_ok_paddedLevel (level : list MerkleNode) :
  level <> [] -> level_ok (paddedLevel level).
Proof.
  intros NE. unfold level_ok.
  destruct (paddedLevel_cases level) as [[-> O] | (a & _ & -> & O & G)].
  - apply andb_false_iff in O. destruct O as [O | O].
    + destruct level as [| x [| y l]]; [congruence | left; reflexivity |].
      right. rewrite <- Nat.negb_odd, O. split; [reflexivity |].
      cbn [length]. lia.
    + apply Nat.ltb_ge in O. left.
      destruct level as [| x [| y l]]; [congruence | reflexivity |].
      cbn [length] in O. lia.
  - right. rewrite length_app. cbn [length].
    rewrite Nat.add_1_r, Nat.even_succ, O. split; [reflexivity | lia].
Qed.

Lemma Ptr_proofLoop_S (fuel : nat) (nodes : list (option MerkleNode))
  (proof : MerkleProof) (cur : Z) :
  1 < len nodes ->
  Ptr.proofLoop (S fuel) nodes proof cur
  = ('(proof, cur, level) <-
       Ptr.proofPairLoop (length nodes) nodes 0 proof cur [] ;;
     level <- Ptr.padLevel level ;;
     Ptr.proofLoop fuel level proof cur).
Proof.
  intros L. cbn [Ptr.proofLoop].
  replace (1 <? len nodes) with true by (symmetry; apply Z.ltb_lt; exact L).
  reflexivity.
Qed.

(** The rest of [GenerateProof] after the leaf level: the nodes are the
    parents just made, none of them nil. *)
Lemma Ptr_after_leaf_level (fuel : nat) (lvl : list MerkleNode)
  (proof : MerkleProof) (cur : Z) :
  lvl <> [] -> (length (paddedLevel lvl) <= fuel)%nat ->
  length (Hashes proof) = length (Positions proof) ->
  exists proof',
    (level <- Ptr.padLevel (map Some lvl) ;;
     Ptr.proofLoop fuel level proof cur) = Ret proof'
    /\ len (Hashes proof') = len (Positions proof').
Proof.
  intros NE Lf Lp. rewrite Ptr_padLevel_Some, padLevel_eq. cbn [bind].
  rewrite Ptr_proofLoop_Some.
  destruct (proofLoop_returns fuel (paddedLevel lvl) proof cur
              (or_intror (level_ok_paddedLevel lvl NE)) Lf) as (proof' & E).
  exists proof'. split; [exact E |].
  apply proofLoop_lengths in E; [| exact Lp]. unfold len. congruence.
Qed.

(** X12. [GenerateProof] on any tree, made by hand or built, nil pointers
    or not, and any index within [Transactions]: when the neighbour of the
    indexed leaf, in the leaves padded to an even count, is nil, the call
    panics on reading its hash; in every other case it returns a proof with
    as many positions as hashes. On a tree without nil pointers it is
    [GenerateProof] on the tree of values. *)
Theorem GenerateProof_any_tree (float64 : Type) (mt : Ptr.MerkleTree float64)
  (i : Z) :
  0 <= i < len (Ptr.Transactions mt) ->
  match nth_error (Ptr.padded (Ptr.Leaves mt))
          (Z.to_nat (if Z.even i then i + 1 else i - 1)) with
  | Some None =>
      Ptr.GenerateProof (Some mt) i
      = Panic "invalid memory address or nil pointer dereference"
  | _ =>
      exists proof,
        Ptr.GenerateProof (Some mt) i = Ret proof
        /\ len (Hashes proof) = len (Positions proof)
  end
  /\ forall mt0 : MerkleTree float64,
       mt = withPointers mt0 ->
       Ptr.GenerateProof (Some mt) i = GenerateProof mt0 i.
Proof.
  intros Hi.
  split; [| intros mt0 ->; apply Ptr_GenerateProof_withPointers].
  unfold Ptr.GenerateProof.
  replace (i <? 0) with false by (symmetry; apply Z.ltb_ge; lia).
  cbn [Ptr.deref bind].
  replace (len (Ptr.Transactions mt) <=? i) with false
    by (symmetry; apply Z.leb_gt; lia).
  destruct (Ptr_padLeaves_eq (Ptr.Leaves mt)) as [-> Ev]. cbn [bind].
  set (nodes := Ptr.padded (Ptr.Leaves mt)) in *.
  apply Nat.even_spec in Ev. destruct Ev as [b Lb].
  assert (Z.to_nat (if Z.even i then i + 1 else i - 1)
          = (if Nat.even (Z.to_nat i) then Z.to_nat i + 1 else Z.to_nat i - 1)%nat)
    as Es.
  { rewrite even_to_nat by lia. destruct (Z.even i) eqn:E; [lia |].
    assert (i <> 0) by (intros ->; discriminate). lia. }
  rewrite Es.
  destruct b as [| b].
  { destruct nodes; [| discriminate]. cbn [length Ptr.proofLoop len Z.of_nat].
    replace (nth_error (@nil (option MerkleNode)) _) with (@None (option MerkleNode))
      by (destruct (if Nat.even _ then _ else _)%nat; reflexivity).
    exists {| Hashes := []; Positions := [] |}. split; reflexivity. }
  replace (Ptr.proofLoop (length nodes)) with (Ptr.proofLoop (S (2 * S b - 1)))
    by (f_equal; lia).
  rewrite Ptr_proofLoop_S by (unfold len; lia).
  assert (Ptr.parents nodes <> []) as NE.
  { intros E. apply (f_equal (@length _)) in E.
    rewrite length_parents, Lb in E. cbn [length] in E.
    replace (2 * S b / 2)%nat with (S b) in E by elia. discriminate. }
  assert (length (paddedLevel (Ptr.parents nodes)) <= 2 * S b - 1)%nat as Lf.
  { pose proof (length_parents nodes) as Lp. rewrite Lb in Lp.
    replace (2 * S b / 2)%nat with (S b) in Lp by elia.
    destruct (paddedLevel_cases (Ptr.parents nodes))
      as [[-> _] | (a & _ & -> & _ & G)];
      rewrite ?length_app; cbn [length]; lia. }
  destruct (Z_lt_ge_dec i (len nodes)) as [In_l | Out].
  - destruct (Ptr_proofPairLoop_found (length nodes) [] nodes []
                {| Hashes := []; Positions := [] |} (Z.to_nat i) 0 (S b))
      as (sib & Hsib & Hrun); [reflexivity | exact Lb | lia | unfold len in *; lia |].
    cbn [app] in Hsib, Hrun. change (len (@nil (option MerkleNode))) with 0 in Hrun.
    rewrite Z2Nat.id in Hrun by lia.
    rewrite Hsib, Hrun. destruct sib as [s |]; cbn [bind]; [| reflexivity].
    apply Ptr_after_leaf_level; [exact NE | | reflexivity].
    rewrite Lb in *. lia.
  - pose proof (Ptr_proofPairLoop_other (length nodes) [] nodes []
                  {| Hashes := []; Positions := [] |} i (S b) Lb ltac:(lia)) as Hrun.
    cbn [app] in Hrun. change (len (@nil (option MerkleNode))) with 0 in Hrun.
    rewrite Hrun by (right; unfold len in *; lia). cbn [bind].
    replace (nth_error nodes _) with (@None (option MerkleNode)).
    2: { symmetry. apply nth_error_None. unfold len in *.
         destruct (Nat.even (Z.to_nat i)) eqn:E; [lia |].
         assert (Z.to_nat i <> length nodes); [| lia].
         intros E'. rewrite E', Lb in E.
         assert (Nat.even (2 * S b) = true) by (apply Nat.even_spec; exists (S b); reflexivity).
         congruence. }
    apply Ptr_after_leaf_level; [exact NE | | reflexivity].
    rewrite Lb in *. lia.
Qed.

Lemma GenerateProof_any_tree_witness :
  (Ptr.GenerateProof (Some nilLeafTree) 0
   = Panic "invalid memory address or nil pointer dereference"
   /\ forall mt0 : MerkleTree string,
        nilLeafTree = withPointers mt0 ->
        Ptr.GenerateProof (Some nilLeafTree) 0 = GenerateProof mt0 0)
  /\ ((exists proof,
         Ptr.GenerateProof (Some nilLeafTree) 2 = Ret proof
         /\ len (Hashes proof) = len (Positions proof))
      /\ forall mt0 : MerkleTree string,
           nilLeafTree = withPointers mt0 ->
           Ptr.GenerateProof (Some nilLeafTree) 2 = GenerateProof mt0 2).
Proof.
  split.
  - apply (GenerateProof_any_tree string nilLeafTree 0).
    unfold len. cbn [nilLeafTree Ptr.Transactions length]. lia.
  - apply (GenerateProof_any_tree string nilLeafTree 2).
    unfold len. cbn [nilLeafTree Ptr.Transactions length]. lia.
Defined.


(** X13. The first entry of a generated proof is the digest of the
    neighbouring transaction: the next one for an even index, with the
    side flag true, the previous one for an odd index, with the flag false;
    for the last transaction of an odd-length list it is that
    transaction's own digest, the flag true. *)
Theorem first_proof_entry (float64 : Type) (format2f : float64 -> string)
  (transactions : list (Transaction float64)) (i : Z) :
  0 <= i < len transactions ->
  exists mt proof hs ps tx',
    NewMerkleTree format2f transactions = Ret mt
    /\ GenerateProof mt i = Ret proof
    /\ Hashes proof = Transaction_Hash format2f tx' :: hs
    /\ Positions proof = Z.even i :: ps
    /\ nth_error transactions
         (Z.to_nat (if Z.even i
                    then if i + 1 <? len transactions then i + 1 else i
                    else i - 1))
       = Some tx'.
Proof.
  intros Hi.
  destruct (built_proof float64 format2f transactions i Hi)
    as (root & hs & ps & tx & Hnew & Hproof & Hpath & Htx & _).
  set (L := map (leafOf format2f) transactions) in *.
  assert (length L = length transactions) as LL by apply length_map.
  pose proof (even_to_nat i ltac:(lia)) as Ev.
  unfold len in Hi.
  inversion Hpath as [r E0 | nodes c sib hs' ps' r G Hsib Hrest]; subst.
  - exfalso.
    destruct (paddedLeaves_cases L) as [[E O] | (a & _ & E & _)];
      rewrite E in E0.
    + rewrite <- E0 in O. discriminate.
    + apply (f_equal (@length MerkleNode)) in E0.
      rewrite length_app in E0. cbn [length] in E0. lia.
  - rewrite Ev in *.
    assert (exists tx',
               nth_error transactions
                 (Z.to_nat (if Z.even i
                            then if i + 1 <? len transactions then i + 1 else i
                            else i - 1)) = Some tx'
               /\ Hash sib = Transaction_Hash format2f tx') as (tx' & Htx' & Hh).
    { destruct (Z.even i) eqn:Ei.
      - destruct (Z.ltb_spec (i + 1) (len transactions)) as [Lt | Ge];
          unfold len in *.
        + rewrite nth_error_paddedLeaves in Hsib by lia.
          unfold L in Hsib. rewrite nth_error_map in Hsib.
          replace (Z.to_nat (i + 1)) with (Z.to_nat i + 1)%nat by lia.
          destruct (nth_error transactions (Z.to_nat i + 1)) as [tx' |];
            [| discriminate].
          injection Hsib as <-. exists tx'. auto.
        + exists tx. split; [exact Htx |].
          assert (transactions <> []) as NE
              by (intros ->; cbn [length] in Hi; lia).
          destruct (exists_last NE) as (init & t & ->).
          rewrite length_app in *. cbn [length] in *.
          assert (length init = Z.to_nat i) as Li by lia.
          rewrite <- Li, nth_error_middle in Htx. injection Htx as <-.
          unfold L in Hsib. rewrite map_app in Hsib. cbn [map] in Hsib.
          destruct (paddedLeaves_odd_snoc (map (leafOf format2f) init)
                      (leafOf format2f t)) as [P1 _];
            [rewrite length_map, Li; exact Ev |].
          rewrite P1 in Hsib.
          replace (map (leafOf format2f) init ++ [leafOf format2f t; leafOf format2f t])
            with ((map (leafOf format2f) init ++ [leafOf format2f t])
                    ++ leafOf format2f t :: []) in Hsib
            by (rewrite <- app_assoc; reflexivity).
          replace (Z.to_nat i + 1)%nat
            with (length (map (leafOf format2f) init ++ [leafOf format2f t]))
            in Hsib by (rewrite length_app, length_map; cbn [length]; lia).
          rewrite nth_error_middle in Hsib. injection Hsib as <-. reflexivity.
      - assert (0 < i) by (destruct (Z.eq_dec i 0) as [-> |]; [discriminate | lia]).
        rewrite nth_error_paddedLeaves in Hsib by lia.
        unfold L in Hsib. rewrite nth_error_map in Hsib.
        replace (Z.to_nat (i - 1)) with (Z.to_nat i - 1)%nat by lia.
        destruct (nth_error transactions (Z.to_nat i - 1)) as [tx' |];
          [| discriminate].
        injection Hsib as <-. exists tx'. auto. }
    eexists _, _, hs', ps', tx'. split; [exact Hnew |].
    split; [exact Hproof |]. cbn [Hashes Positions].
    rewrite Hh. auto.
Qed.

Lemma first_proof_entry_witness :
  exists mt proof hs ps tx',
    NewMerkleTree printed [tx1; tx2; tx3] = Ret mt
    /\ GenerateProof mt 2 = Ret proof
    /\ Hashes proof = Transaction_Hash printed tx' :: hs
    /\ Positions proof = Z.even 2 :: ps
    /\ nth_error [tx1; tx2; tx3]
         (Z.to_nat (if Z.even 2
                    then if 2 + 1 <? len [tx1; tx2; tx3] then 2 + 1 else 2
                    else 2 - 1))
       = Some tx'.
Proof.
  apply (first_proof_entry string printed [tx1; tx2; tx3] 2).
  unfold len. cbn [length]. lia.
Defined.

(** ** Transaction.String *)

Lemma length_append (a b : string) :
  String.length (a ++ b) = (String.length a + String.length b)%nat.
Proof.
  induction a as [| c a IH]; cbn [String.append String.length];
    [reflexivity | rewrite IH; reflexivity].
Qed.

Lemma append_assoc (a b c : string) : ((a ++ b) ++ c = a ++ (b ++ c))%string.
Proof.
  induction a as [| x a IH]; cbn [String.append]; [reflexivity | rewrite IH; reflexivity].
Qed.

(** X14. The text that [Transaction.Hash] hashes does not keep its fields
    apart: a colon may belong to [ID] or to [From]. The transactions with
    [ID] "a:b", [From] "c" and with [ID] "a", [From] "b:c" differ, have the
    same [String] and the same [Hash], and either of them at the same place
    of a list gives the same root and the same leaves. *)
Theorem Transaction_String_ambiguous (float64 : Type)
  (format2f : float64 -> string) (a b c to : string) (amount : float64)
  (before after : list (Transaction float64)) :
  let t1 := mkTransaction (a ++ ":" ++ b)%string c to amount in
  let t2 := mkTransaction a (b ++ ":" ++ c)%string to amount in
  t1 <> t2
  /\ Transaction_String format2f t1 = Transaction_String format2f t2
  /\ Transaction_Hash format2f t1 = Transaction_Hash format2f t2
  /\ exists mt1 mt2,
       NewMerkleTree format2f (before ++ t1 :: after) = Ret mt1
       /\ NewMerkleTree format2f (before ++ t2 :: after) = Ret mt2
       /\ Root mt1 = Root mt2 /\ Leaves mt1 = Leaves mt2
       /\ GetRootHash mt1 = GetRootHash mt2.
Proof.
  intros t1 t2.
  assert (Transaction_String format2f t1 = Transaction_String format2f t2) as Es.
  { unfold Transaction_String, t1, t2. cbn [ID From To Amount].
    rewrite !append_assoc. reflexivity. }
  assert (Transaction_Hash format2f t1 = Transaction_Hash format2f t2) as Eh.
  { unfold Transaction_Hash. rewrite Es. reflexivity. }
  split; [| split; [exact Es | split; [exact Eh |]]].
  - intros E. apply (f_equal ID) in E. unfold t1, t2 in E. cbn [ID] in E.
    apply (f_equal String.length) in E. rewrite !length_append in E.
    cbn [String.length] in E. lia.
  - assert (map (leafOf format2f) (before ++ t1 :: after)
            = map (leafOf format2f) (before ++ t2 :: after)) as El.
    { rewrite !map_app. cbn [map]. unfold leafOf at 2 4. rewrite Eh.
      reflexivity. }
    destruct (NewMerkleTree_spec float64 format2f (before ++ t1 :: after))
      as (root1 & H1 & _); [destruct before; discriminate |].
    destruct (NewMerkleTree_spec float64 format2f (before ++ t2 :: after))
      as (root2 & H2 & _); [destruct before; discriminate |].
    assert (root1 = root2) as ->.
    { pose proof H1 as H. pose proof H2 as H'.
      unfold NewMerkleTree in H, H'. rewrite leafLoop_eq in H, H'.
      rewrite El in H.
      destruct (len (before ++ t1 :: after) =? 0); [discriminate |].
      destruct (len (before ++ t2 :: after) =? 0); [discriminate |].
      destruct (padLeaves _) as [nodes | | |]; cbn [bind] in H, H';
        try discriminate.
      destruct (buildLoop _ _) as [top | | |]; cbn [bind] in H, H';
        try discriminate.
      destruct (index top 0); cbn [bind] in H, H'; try discriminate.
      congruence. }
    eexists _, _. split; [exact H1 |]. split; [exact H2 |].
    unfold GetRootHash. cbn [Root Leaves]. rewrite El. auto.
Qed.

(** ** Soundness of VerifyProof on a built tree *)

Lemma Under_Perfect (root n : MerkleNode) (k : nat) :
  Under root n k ->
  forall D, Perfect D root -> exists D', D = (k + D')%nat /\ Perfect D' n.
Proof.
  induction 1 as [| n l k U IH E | n r k U IH E]; intros D P.
  - exists D. auto.
  - destruct (IH D P) as (D' & -> & Pn).
    destruct Pn as [h | d l' r' h Pl Pr]; cbn [Left] in E; [discriminate |].
    injection E as <-. exists d. split; [lia | exact Pl].
  - destruct (IH D P) as (D' & -> & Pn).
    destruct Pn as [h | d l' r' h Pl Pr]; cbn [Right] in E; [discriminate |].
    injection E as <-. exists d. split; [lia | exact Pr].
Qed.

Lemma Under_Perfect_internal (root n : MerkleNode) (k D : nat) :
  Under root n k -> Perfect D root -> (k < D)%nat ->
  exists l r h, n = {| Left := Some l; Right := Some r; Hash := h |}.
Proof.
  intros U P L.
  destruct (Under_Perfect _ _ _ U _ P) as (D' & -> & Pn).
  destruct Pn as [h | d l r h Pl Pr]; [lia |]. exists l, r, h. reflexivity.
Qed.

(** A climb from a digest-sized value that ends on the hash of the root of
    a perfect tree, in no more steps than the tree is deep, went through the
    hashes of nodes of that tree, one level per entry, or one of the inputs
    it hashed collides with what a node of the tree hashed. *)
Lemma climb_under (leaves : list MerkleNode) (root : MerkleNode) (D : nat)
  (hs : list (list byte)) :
  Forall sized leaves ->
  Forall (fun n => Left n = None) leaves ->
  TreeOver leaves root -> Perfect D root ->
  forall (ps : list bool) (d : list byte),
    length d = Size ->
    (length hs <= length ps)%nat -> (length hs <= D)%nat ->
    climb d hs ps = Hash root ->
    (exists n, Under root n (length hs) /\ TreeOver leaves n /\ Hash n = d)
    \/ exists (l r : MerkleNode) (k : nat) (x : list byte),
         Under root (NewMerkleNode (Some l) (Some r) []) k
         /\ In x (combinedOf d hs ps)
         /\ collide (Hash l ++ Hash r) x.
Proof.
  intros Hs Hl T P.
  induction hs as [| s hs IH]; intros ps d Ld L LD E.
  - left. exists root. cbn [length].
    assert (d = Hash root) as -> by (destruct ps; exact E).
    repeat split; [constructor | exact T].
  - destruct ps as [| p ps]; cbn [length] in L, LD; [lia |].
    cbn [climb] in E. cbn [combinedOf].
    set (comb := if p then d ++ s else s ++ d) in *.
    destruct (IH ps (Sum256 comb) (length_Sum256 _) ltac:(lia) ltac:(lia) E)
      as [(n & U & Tn & Hn) | (l & r & k & x & U & Hx & C)];
      [| right; exists l, r, k, x; split; [exact U |];
         split; [right; exact Hx | exact C]].
    destruct (Under_Perfect_internal _ _ _ _ U P ltac:(lia))
      as (l & r & h & ->).
    inversion Tn as [n' In_n | l' r' h' Tl Tr Eh]; subst.
    { rewrite Forall_forall in Hl. specialize (Hl _ In_n). discriminate. }
    cbn [Hash] in Hn.
    change {| Left := Some l; Right := Some r;
              Hash := Sum256 (Hash l ++ Hash r) |}
      with (NewMerkleNode (Some l) (Some r) []) in U.
    destruct (list_eq_dec Byte.byte_eq_dec (Hash l ++ Hash r) comb)
      as [Ec | N];
      [| right; exists l, r, (length hs), comb; split; [exact U |];
         split; [left; reflexivity | split; [exact N | exact Hn]]].
    pose proof (TreeOver_sized _ _ Tl Hs) as Sl.
    pose proof (TreeOver_sized _ _ Tr Hs) as Sr.
    unfold sized in Sl, Sr. left. subst comb. destruct p.
    + apply app_inj_length in Ec; [| congruence]. destruct Ec as [El _].
      exists l. cbn [length]. repeat split;
        [eapply Under_left; [exact U | reflexivity] | exact Tl | exact El].
    + assert (length (Hash l) = length s) as Ls.
      { apply (f_equal (@length byte)) in Ec. rewrite !length_app in Ec. lia. }
      apply app_inj_length in Ec; [| exact Ls]. destruct Ec as [_ Er].
      exists r. cbn [length]. repeat split;
        [eapply Under_right; [exact U | reflexivity] | exact Tr | exact Er].
Qed.

(** X23. Soundness of inclusion. On a built tree, if a digest of 32 bytes
    verifies against the root hash with a proof of the full length,
    ceil(log2(max(n, 2))) entries, all slices well placed, then it is the
    hash of one of the transactions, or one of the inputs the run hashed
    collides under SHA-256 with what a node of the tree hashed. *)
Theorem VerifyProof_sound (float64 : Type) (format2f : float64 -> string)
  (transactions : list (Transaction float64)) (mt : MerkleTree float64)
  (root : MerkleNode) (m : Mem.memory) (txHash rootHash : Mem.slice)
  (proof : Mem.MerkleProof) :
  NewMerkleTree format2f transactions = Ret mt ->
  Root mt = Some root ->
  Mem.placed m txHash (Mem.Hashes proof) rootHash ->
  Mem.load m rootHash = Hash root ->
  Mem.slen txHash = 32%nat ->
  len (Mem.Hashes proof) = Z.log2_up (Z.max (len transactions) 2) ->
  Mem.VerifyProof m txHash (Some proof) rootHash = Ret true ->
  (exists tx, In tx transactions
              /\ Mem.load m txHash = Transaction_Hash format2f tx)
  \/ exists (l r : MerkleNode) (k : nat) (x : list byte),
       Under root (NewMerkleNode (Some l) (Some r) []) k
       /\ In x (combinedOf (Mem.load m txHash)
                  (map (Mem.load m) (Mem.Hashes proof)) (Mem.Positions proof))
       /\ collide (Hash l ++ Hash r) x.
Proof.
  intros Hnew Hroot Pl Er Ld Llen V.
  destruct proof as [hashes positions]. cbn [Mem.Hashes Mem.Positions] in *.
  rewrite placed_VerifyProof in V by exact Pl.
  assert (length (Mem.load m txHash) = Size) as Ld'
      by (rewrite length_load by apply Pl; exact Ld).
  assert (transactions <> []) as NE by (intros ->; discriminate).
  destruct (built_depth float64 format2f transactions NE)
    as (root' & hs0 & ps0 & E & Hpath & Hd).
  rewrite E in Hnew. injection Hnew as <-. cbn [Root] in Hroot.
  injection Hroot as ->.
  set (leaves := map (leafOf format2f) transactions) in *.
  assert (Forall sized leaves) as Hs by apply sized_leaves.
  assert (Forall (fun n => Left n = None) leaves) as Hl.
  { apply Forall_forall. intros n Hn. apply in_map_iff in Hn.
    destruct Hn as (tx & <- & _). reflexivity. }
  assert (TreeOver leaves root) as T.
  { apply (Path_TreeOver _ _ _ _ _ _ Hpath), Forall_paddedLeaves.
    apply Forall_forall. intros n Hn. apply TreeOver_leaf, Hn. }
  assert (Perfect (length hs0) root) as P.
  { apply (Path_Perfect _ _ _ _ _ Hpath 0), Forall_paddedLeaves.
    apply Forall_forall. intros n Hn. apply in_map_iff in Hn.
    destruct Hn as (tx & <- & _). apply Perfect_leaf. }
  apply VerifyProof_true_inv in V. cbn [Hashes Positions] in V.
  destruct V as [Lp Ec]. rewrite Er in Ec.
  assert (length (map (Mem.load m) hashes) = length hs0) as Lh.
  { rewrite length_map. unfold len in *. lia. }
  destruct (climb_under leaves root (length hs0) (map (Mem.load m) hashes)
              Hs Hl T P positions (Mem.load m txHash) Ld' Lp ltac:(lia) Ec)
    as [(n & U & Tn & Hn) | C]; [left | right; exact C].
  destruct (Under_Perfect _ _ _ U _ P) as (D' & ED & Pn).
  assert (D' = 0%nat) as -> by lia.
  inversion Pn as [h E0 |]. subst n.
  inversion Tn as [n' In_n E2 |]. subst n'.
  apply in_map_iff in In_n. destruct In_n as (tx & Etx & Htx).
  exists tx. split; [exact Htx |].
  rewrite <- Hn, <- Etx. reflexivity.
Qed.

Lemma VerifyProof_sound_witness :
  (exists tx, In tx [tx1; tx2; tx3]
              /\ Mem.load provenMemory (Mem.whole provenMemory 0)
                 = Transaction_Hash printed tx)
  \/ exists (l r : MerkleNode) (k : nat) (x : list byte),
       Under (rootNodeOf (treeOf [tx1; tx2; tx3]))
         (NewMerkleNode (Some l) (Some r) []) k
       /\ In x (combinedOf (Mem.load provenMemory (Mem.whole provenMemory 0))
                  (map (Mem.load provenMemory) provenHashes)
                  (Positions (proofOf (treeOf [tx1; tx2; tx3]) 1)))
       /\ collide (Hash l ++ Hash r) x.
Proof.
  apply (VerifyProof_sound string printed [tx1; tx2; tx3]
           (treeOf [tx1; tx2; tx3]) (rootNodeOf (treeOf [tx1; tx2; tx3]))
           provenMemory (Mem.whole provenMemory 0) (Mem.whole provenMemory 1)
           {| Mem.Hashes := provenHashes;
              Mem.Positions := Positions (proofOf (treeOf [tx1; tx2; tx3]) 1) |}).
  - vm_compute. reflexivity.
  - vm_compute. reflexivity.
  - vm_compute. repeat split; repeat constructor; lia.
  - vm_compute. reflexivity.
  - vm_compute. reflexivity.
  - vm_compute. reflexivity.
  - vm_compute. reflexivity.
Defined.

(** ** Hashes of the ledger *)

Lemma prefix_length (a b : string) :
  String.prefix a b = true -> (String.length a <= String.length b)%nat.
Proof.
  revert b. induction a as [| x a IH]; intros b H; cbn [String.length]; [lia |].
  destruct b as [| y b]; cbn [String.prefix] in H; [discriminate |].
  destruct (ascii_dec x y); [| discriminate].
  apply IH in H. cbn [String.length]. lia.
Qed.

Lemma length_zeros (n : nat) :
  String.length (String.concat EmptyString (repeat "0"%string n)) = n.
Proof.
  induction n as [| n IH]; [reflexivity |].
  cbn [repeat]. destruct n as [| n]; [reflexivity |].
  cbn [repeat String.concat] in *. rewrite !length_append, IH.
  reflexivity.
Qed.

Lemma length_0x_hex (data : list byte) :
  String.length ("0x" ++ Hex.EncodeToString (Sum256 data)) = 66%nat.
Proof.
  rewrite length_append, length_EncodeToString, length_Sum256. reflexivity.
Qed.

Lemma sliceTo_in_range (s : string) (n : nat) :
  (n <= String.length s)%nat -> sliceTo s n = Ret (substring 0 n s).
Proof.
  intros L. unfold sliceTo.
  replace (n <=? String.length s)%nat with true
    by (symmetry; apply Nat.leb_le, L).
  reflexivity.
Qed.

(** X15. [computeTxHash] and [hashBlock] return ["0x"] followed by the 64
    hexadecimal characters of a SHA-256 sum, 66 characters in all, whatever
    the transaction or block; the slices [[:16]] and [[:20]] that
    [PrintStatement] and [printChain] take of them are within bounds. *)
Theorem ledger_hash_text (float64 time_Time : Type)
  (formatf : float64 -> string) (formatRFC3339Nano : time_Time -> string)
  (t : Ledger.Transaction float64 time_Time)
  (b : Ledger.Block float64 time_Time) :
  (exists sum,
      length sum = 32%nat
      /\ Ledger.computeTxHash formatf formatRFC3339Nano t
         = ("0x" ++ Hex.EncodeToString sum)%string)
  /\ (exists sum,
         length sum = 32%nat
         /\ Ledger.hashBlock formatRFC3339Nano b
            = ("0x" ++ Hex.EncodeToString sum)%string)
  /\ String.length (Ledger.computeTxHash formatf formatRFC3339Nano t) = 66%nat
  /\ String.length (Ledger.hashBlock formatRFC3339Nano b) = 66%nat
  /\ (exists s, sliceTo (Ledger.computeTxHash formatf formatRFC3339Nano t) 16
                = Ret s)
  /\ (exists s, sliceTo (Ledger.hashBlock formatRFC3339Nano b) 20 = Ret s).
Proof.
  unfold Ledger.computeTxHash, Ledger.hashBlock.
  split; [eexists; split; [apply length_Sum256 | reflexivity] |].
  split; [eexists; split; [apply length_Sum256 | reflexivity] |].
  rewrite !length_0x_hex. do 2 (split; [reflexivity |]).
  split; eexists; apply sliceTo_in_range; rewrite length_0x_hex; lia.
Qed.

(** ** MineBlock *)

(** X16. [MineBlock] with a negative difficulty panics in
    [strings.Repeat], before it looks at the block. *)
Theorem MineBlock_negative_difficulty (float64 time_Time : Type)
  (formatRFC3339Nano : time_Time -> string) (fuel : nat)
  (b : Ledger.Block float64 time_Time) (difficulty : Z) :
  difficulty < 0 ->
  Ledger.MineBlock formatRFC3339Nano fuel b difficulty
  = Panic "strings: negative Repeat count".
Proof.
  intros H. unfold Ledger.MineBlock, Ledger.Repeat.
  replace (difficulty <? 0) with true by (symmetry; apply Z.ltb_lt, H).
  reflexivity.
Qed.

Lemma MineBlock_negative_difficulty_witness :
  Ledger.MineBlock stamped 10 block0 (-1)
  = Panic "strings: negative Repeat count".
Proof.
  apply MineBlock_negative_difficulty. lia.
Defined.

Lemma mineLoop_long_target (float64 time_Time : Type)
  (formatRFC3339Nano : time_Time -> string) (fuel : nat) :
  forall (b : Ledger.Block float64 time_Time) (target : string),
    (66 < String.length target)%nat ->
    Ledger.mineLoop formatRFC3339Nano fuel b target = OutOfFuel.
Proof.
  induction fuel as [| fuel IH]; intros b target L; [reflexivity |].
  cbn [Ledger.mineLoop].
  destruct (String.prefix target (Ledger.hashBlock formatRFC3339Nano b)) eqn:P.
  - apply prefix_length in P. unfold Ledger.hashBlock in P.
    rewrite length_0x_hex in P. lia.
  - apply IH, L.
Qed.

(** X17. [MineBlock] with a difficulty above 64 never returns: a hash has
    64 hexadecimal characters, so no nonce gives that many leading zeros and
    the loop goes on beyond any number of turns. *)
Theorem MineBlock_difficulty_above_64 (float64 time_Time : Type)
  (formatRFC3339Nano : time_Time -> string) (fuel : nat)
  (b : Ledger.Block float64 time_Time) (difficulty : Z) :
  64 < difficulty ->
  Ledger.MineBlock formatRFC3339Nano fuel b difficulty = OutOfFuel.
Proof.
  intros H. unfold Ledger.MineBlock, Ledger.Repeat.
  replace (difficulty <? 0) with false by (symmetry; apply Z.ltb_ge; lia).
  cbn [bind]. apply mineLoop_long_target.
  rewrite length_append, length_zeros. cbn [String.length]. lia.
Qed.

Lemma MineBlock_difficulty_above_64_witness :
  Ledger.MineBlock stamped 1000 block0 65 = OutOfFuel.
Proof.
  apply MineBlock_difficulty_above_64. lia.
Defined.

Lemma setNonce_same (float64 time_Time : Type)
  (b : Ledger.Block float64 time_Time) :
  Ledger.setNonce b (Ledger.Nonce b) = b.
Proof. destruct b. reflexivity. Qed.

(** What the loop of [MineBlock] returns: the block with the first nonce,
    counting up from its own modulo 2^64, whose hash starts with the
    target. *)
Lemma mineLoop_spec (float64 time_Time : Type)
  (formatRFC3339Nano : time_Time -> string) (fuel : nat) :
  forall (b b' : Ledger.Block float64 time_Time) (target : string),
    0 <= Ledger.Nonce b < 2 ^ 64 ->
    Ledger.mineLoop formatRFC3339Nano fuel b target = Ret b' ->
    exists k : nat,
      (k < fuel)%nat
      /\ b' = Ledger.setHash
                (Ledger.setNonce b ((Ledger.Nonce b + Z.of_nat k) mod 2 ^ 64))
                (Ledger.hashBlock formatRFC3339Nano
                   (Ledger.setNonce b ((Ledger.Nonce b + Z.of_nat k) mod 2 ^ 64)))
      /\ String.prefix target (Ledger.Block_Hash b') = true
      /\ forall j : nat,
           (j < k)%nat ->
           String.prefix target
             (Ledger.hashBlock formatRFC3339Nano
                (Ledger.setNonce b ((Ledger.Nonce b + Z.of_nat j) mod 2 ^ 64)))
           = false.
Proof.
  induction fuel as [| fuel IH]; intros b b' target Hn H; [discriminate |].
  cbn [Ledger.mineLoop] in H.
  destruct (String.prefix target (Ledger.hashBlock formatRFC3339Nano b)) eqn:P.
  - injection H as <-. exists 0%nat.
    rewrite Z.add_0_r, Z.mod_small, setNonce_same by lia.
    repeat split; [lia | exact P | intros j Hj; lia].
  - destruct (IH (Ledger.setNonce b ((Ledger.Nonce b + 1) mod 2 ^ 64)) b' target)
      as (k & Hk & Eb & Hp & Hmin);
      [cbn [Ledger.setNonce Ledger.Nonce]; apply Z.mod_pos_bound; lia
      | exact H |].
    cbn [Ledger.setNonce Ledger.Nonce Ledger.Index Ledger.Timestamp
         Ledger.PrevHash Ledger.Block_Hash Ledger.Block_Transactions] in Eb, Hmin.
    assert (forall j : nat,
               ((Ledger.Nonce b + 1) mod 2 ^ 64 + Z.of_nat j) mod 2 ^ 64
               = (Ledger.Nonce b + Z.of_nat (S j)) mod 2 ^ 64) as Ej.
    { intros j. rewrite Z.add_mod_idemp_l by lia. f_equal. lia. }
    exists (S k). split; [lia |]. split; [| split; [exact Hp |]].
    + rewrite Eb, Ej. reflexivity.
    + intros [| j] Hj.
      * rewrite Z.add_0_r, Z.mod_small, setNonce_same by lia. exact P.
      * rewrite <- Ej. apply (Hmin j). lia.
Qed.

(** X18. When [MineBlock] returns, the block has kept its index,
    timestamp, previous hash and transactions; its hash is [hashBlock] of
    the block itself and starts with ["0x"] and [difficulty] zeros; and its
    nonce is the first one, counting up from the nonce it came with (modulo
    2^64), whose hash does. *)
Theorem MineBlock_returns_mined (float64 time_Time : Type)
  (formatRFC3339Nano : time_Time -> string) (fuel : nat)
  (b b' : Ledger.Block float64 time_Time) (difficulty : Z) :
  0 <= Ledger.Nonce b < 2 ^ 64 ->
  Ledger.MineBlock formatRFC3339Nano fuel b difficulty = Ret b' ->
  exists (k : nat) (zeros : string),
    0 <= difficulty
    /\ zeros = String.concat EmptyString (repeat "0"%string (Z.to_nat difficulty))
    /\ Ledger.Index b' = Ledger.Index b
    /\ Ledger.Timestamp b' = Ledger.Timestamp b
    /\ Ledger.PrevHash b' = Ledger.PrevHash b
    /\ Ledger.Block_Transactions b' = Ledger.Block_Transactions b
    /\ Ledger.Nonce b' = (Ledger.Nonce b + Z.of_nat k) mod 2 ^ 64
    /\ Ledger.Block_Hash b' = Ledger.hashBlock formatRFC3339Nano b'
    /\ String.prefix ("0x" ++ zeros) (Ledger.Block_Hash b') = true
    /\ forall j : nat,
         (j < k)%nat ->
         String.prefix ("0x" ++ zeros)
           (Ledger.hashBlock formatRFC3339Nano
              (Ledger.setNonce b ((Ledger.Nonce b + Z.of_nat j) mod 2 ^ 64)))
         = false.
Proof.
  intros Hn H. unfold Ledger.MineBlock, Ledger.Repeat in H.
  destruct (Z.ltb_spec difficulty 0) as [? | Hd]; [discriminate |].
  cbn [bind] in H.
  destruct (mineLoop_spec _ _ _ _ _ _ _ Hn H) as (k & _ & -> & Hp & Hmin).
  exists k, (String.concat EmptyString (repeat "0"%string (Z.to_nat difficulty))).
  repeat split; try assumption.
Qed.

Lemma MineBlock_returns_mined_witness :
  exists (k : nat) (zeros : string),
    0 <= 1
    /\ zeros = String.concat EmptyString (repeat "0"%string (Z.to_nat 1))
    /\ Ledger.Index (mined 200 block0 1) = Ledger.Index block0
    /\ Ledger.Timestamp (mined 200 block0 1) = Ledger.Timestamp block0
    /\ Ledger.PrevHash (mined 200 block0 1) = Ledger.PrevHash block0
    /\ Ledger.Block_Transactions (mined 200 block0 1)
       = Ledger.Block_Transactions block0
    /\ Ledger.Nonce (mined 200 block0 1)
       = (Ledger.Nonce block0 + Z.of_nat k) mod 2 ^ 64
    /\ Ledger.Block_Hash (mined 200 block0 1)
       = Ledger.hashBlock stamped (mined 200 block0 1)
    /\ String.prefix ("0x" ++ zeros) (Ledger.Block_Hash (mined 200 block0 1))
       = true
    /\ forall j : nat,
         (j < k)%nat ->
         String.prefix ("0x" ++ zeros)
           (Ledger.hashBlock stamped
              (Ledger.setNonce block0
                 ((Ledger.Nonce block0 + Z.of_nat j) mod 2 ^ 64)))
         = false.
Proof.
  apply (MineBlock_returns_mined string string stamped 200 block0
           (mined 200 block0 1) 1).
  - cbn. lia.
  - vm_compute. reflexivity.
Defined.

Example mined_block0 :
  Ledger.MineBlock stamped 200 block0 1
  = Ret (Ledger.setHash (Ledger.setNonce block0 5)
           "0x02d43491eb782ad5510b99fbf37af3d6d44d4457d4260be605f6c5dbcba5d372").
Proof. vm_compute. reflexivity. Qed.

Lemma wrapInt_small (z : Z) : - 2 ^ 63 <= z < 2 ^ 63 -> Ledger.wrapInt z = z.
Proof.
  intros H. unfold Ledger.wrapInt. rewrite Z.mod_small; lia.
Qed.

(** X19. A block returned by [NewGenesisBlock] has index 0, the all-zero
    previous hash and no transactions; a block returned by [NewBlock] has
    the given transactions and timestamp, the hash of [prev] as its previous
    hash and the index of [prev] plus one (wrapped to 64 bits); each has as
    its hash [hashBlock] of itself, starting with ["0x"] and [difficulty]
    zeros. *)
Theorem NewBlock_links (float64 time_Time : Type)
  (formatRFC3339Nano : time_Time -> string) (fuel fuel' : nat)
  (now now' : time_Time) (difficulty : Z)
  (g prev b : Ledger.Block float64 time_Time)
  (txs : list (Ledger.Transaction float64 time_Time)) :
  Ledger.NewGenesisBlock formatRFC3339Nano fuel now difficulty = Ret g ->
  Ledger.NewBlock formatRFC3339Nano fuel' now' prev txs difficulty = Ret b ->
  let target :=
    ("0x" ++ String.concat EmptyString
               (repeat "0"%string (Z.to_nat difficulty)))%string in
  (Ledger.Index g = 0
   /\ Ledger.PrevHash g
      = "0x0000000000000000000000000000000000000000000000000000000000000000"%string
   /\ Ledger.Timestamp g = now
   /\ Ledger.Block_Transactions g = []
   /\ Ledger.Block_Hash g = Ledger.hashBlock formatRFC3339Nano g
   /\ String.prefix target (Ledger.Block_Hash g) = true)
  /\ (Ledger.Index b = Ledger.wrapInt (Ledger.Index prev + 1)
      /\ (- 2 ^ 63 <= Ledger.Index prev < 2 ^ 63 - 1 ->
          Ledger.Index b = Ledger.Index prev + 1)
      /\ Ledger.PrevHash b = Ledger.Block_Hash prev
      /\ Ledger.Timestamp b = now'
      /\ Ledger.Block_Transactions b = txs
      /\ Ledger.Block_Hash b = Ledger.hashBlock formatRFC3339Nano b
      /\ String.prefix target (Ledger.Block_Hash b) = true).
Proof.
  intros Hg Hb target. unfold Ledger.NewGenesisBlock in Hg.
  unfold Ledger.NewBlock in Hb.
  unfold Ledger.MineBlock, Ledger.Repeat in Hg, Hb.
  destruct (difficulty <? 0); [discriminate |]. cbn [bind] in Hg, Hb.
  apply mineLoop_spec in Hg; [| cbn [Ledger.Nonce]; lia].
  apply mineLoop_spec in Hb; [| cbn [Ledger.Nonce]; lia].
  destruct Hg as (k & _ & -> & Hp & _). destruct Hb as (k' & _ & -> & Hp' & _).
  split.
  - repeat split; assumption.
  - repeat split; try assumption.
    intros Hr. cbn [Ledger.setHash Ledger.setNonce Ledger.Index].
    apply wrapInt_small. lia.
Qed.

Lemma NewBlock_links_witness :
  (Ledger.Index genesis1 = 0
   /\ Ledger.PrevHash genesis1
      = "0x0000000000000000000000000000000000000000000000000000000000000000"%string
   /\ Ledger.Timestamp genesis1 = "2024-01-01T00:00:00Z"%string
   /\ Ledger.Block_Transactions genesis1 = []
   /\ Ledger.Block_Hash genesis1 = Ledger.hashBlock stamped genesis1
   /\ String.prefix
        ("0x" ++ String.concat EmptyString (repeat "0"%string (Z.to_nat 1)))
        (Ledger.Block_Hash genesis1) = true)
  /\ (Ledger.Index block1 = Ledger.wrapInt (Ledger.Index genesis1 + 1)
      /\ (- 2 ^ 63 <= Ledger.Index genesis1 < 2 ^ 63 - 1 ->
          Ledger.Index block1 = Ledger.Index genesis1 + 1)
      /\ Ledger.PrevHash block1 = Ledger.Block_Hash genesis1
      /\ Ledger.Timestamp block1 = "2024-01-01T01:00:00Z"%string
      /\ Ledger.Block_Transactions block1 = []
      /\ Ledger.Block_Hash block1 = Ledger.hashBlock stamped block1
      /\ String.prefix
           ("0x" ++ String.concat EmptyString (repeat "0"%string (Z.to_nat 1)))
           (Ledger.Block_Hash block1) = true).
Proof.
  apply (NewBlock_links string string stamped 200 200
           "2024-01-01T00:00:00Z"%string "2024-01-01T01:00:00Z"%string 1
           genesis1 genesis1 block1 []).
  - vm_compute. reflexivity.
  - vm_compute. reflexivity.
Defined.

(** ** What the hash of a block covers *)

Lemma hashBlock_tx_hashes (float64 time_Time : Type)
  (txs : list (Ledger.Transaction float64 time_Time)) :
  forall (txs' : list (Ledger.Transaction float64 time_Time)) (h : list byte),
    map Ledger.Hash txs = map Ledger.Hash txs' ->
    fold_left (fun h tx => h ++ bytes (Ledger.Hash tx)) txs h
    = fold_left (fun h tx => h ++ bytes (Ledger.Hash tx)) txs' h.
Proof.
  induction txs as [| tx txs IH]; intros [| tx' txs'] h E;
    cbn [map] in E; try discriminate; [reflexivity |].
  injection E as E1 E2. cbn [fold_left]. rewrite E1. apply IH, E2.
Qed.

Lemma mineLoop_tx_hashes (float64 time_Time : Type)
  (formatRFC3339Nano : time_Time -> string) (target : string) (fuel : nat) :
  forall (index nonce : Z) (timestamp : time_Time) (prevHash hash hash' : string)
         (txs txs' : list (Ledger.Transaction float64 time_Time))
         (b : Ledger.Block float64 time_Time),
    map Ledger.Hash txs = map Ledger.Hash txs' ->
    Ledger.mineLoop formatRFC3339Nano fuel
      (Ledger.mkBlock index timestamp nonce prevHash hash txs) target = Ret b ->
    Ledger.mineLoop formatRFC3339Nano fuel
      (Ledger.mkBlock index timestamp nonce prevHash hash' txs') target
    = Ret (Ledger.mkBlock (Ledger.Index b) (Ledger.Timestamp b)
             (Ledger.Nonce b) (Ledger.PrevHash b) (Ledger.Block_Hash b) txs').
Proof.
  induction fuel as [| fuel IH];
    intros index nonce timestamp prevHash hash hash' txs txs' b E H;
    [discriminate |].
  cbn [Ledger.mineLoop] in *.
  assert (Ledger.hashBlock formatRFC3339Nano
            (Ledger.mkBlock index timestamp nonce prevHash hash' txs')
          = Ledger.hashBlock formatRFC3339Nano
              (Ledger.mkBlock index timestamp nonce prevHash hash txs)) as ->.
  { unfold Ledger.hashBlock.
    cbn [Ledger.Index Ledger.Nonce Ledger.PrevHash Ledger.Timestamp
         Ledger.Block_Transactions].
    rewrite (hashBlock_tx_hashes _ _ txs txs' _ E). reflexivity. }
  destruct (String.prefix target _).
  - injection H as <-. reflexivity.
  - cbn [Ledger.setNonce Ledger.Index Ledger.Timestamp Ledger.Nonce
         Ledger.PrevHash Ledger.Block_Hash Ledger.Block_Transactions] in *.
    apply (IH _ _ _ _ _ _ _ _ _ E H).
Qed.

(** X28. The hash of a block covers a transaction through its [Hash] text
    only: when [NewBlock] returns a block for some transactions, it returns
    for any transactions with the same hash texts, in the same order, a
    block with the same index, timestamp, nonce, previous hash and hash. *)
Theorem NewBlock_covers_hash_texts_only (float64 time_Time : Type)
  (formatRFC3339Nano : time_Time -> string) (fuel : nat) (now : time_Time)
  (prev b : Ledger.Block float64 time_Time)
  (txs txs' : list (Ledger.Transaction float64 time_Time)) (difficulty : Z) :
  map Ledger.Hash txs = map Ledger.Hash txs' ->
  Ledger.NewBlock formatRFC3339Nano fuel now prev txs difficulty = Ret b ->
  Ledger.NewBlock formatRFC3339Nano fuel now prev txs' difficulty
  = Ret (Ledger.mkBlock (Ledger.Index b) (Ledger.Timestamp b)
           (Ledger.Nonce b) (Ledger.PrevHash b) (Ledger.Block_Hash b) txs').
Proof.
  intros E H. unfold Ledger.NewBlock, Ledger.MineBlock in *.
  destruct (Ledger.Repeat "0" difficulty) as [zeros | | |];
    cbn [bind] in *; try discriminate.
  apply (mineLoop_tx_hashes _ _ _ _ _ _ _ _ _ _ _ _ _ _ E H).
Qed.

Lemma NewBlock_covers_hash_texts_only_witness :
  Ledger.NewBlock stamped 200 "2024-01-01T02:00:00Z"%string block1
    [depositAltered] 1
  = Ret (Ledger.mkBlock (Ledger.Index block2) (Ledger.Timestamp block2)
           (Ledger.Nonce block2) (Ledger.PrevHash block2)
           (Ledger.Block_Hash block2) [depositAltered]).
Proof.
  apply (NewBlock_covers_hash_texts_only string string stamped 200
           "2024-01-01T02:00:00Z"%string block1 block2
           [deposit] [depositAltered] 1).
  - reflexivity.
  - vm_compute. reflexivity.
Defined.

(** ** The account *)

(** X20. [ApplyTransaction] is all or nothing. It returns an error, and
    leaves the account as it was, exactly when the type is neither credit
    nor debit, or the type is debit and the amount is greater than the
    balance. Otherwise it returns no error, adds or subtracts the amount,
    appends the transaction to the existing ones and keeps address and
    owner. *)
Theorem ApplyTransaction_all_or_nothing (float64 time_Time : Type)
  (fadd fsub : float64 -> float64 -> float64)
  (fgt : float64 -> float64 -> bool)
  (a : Ledger.Account float64 time_Time)
  (t : Ledger.Transaction float64 time_Time) :
  (exists msg,
      Ledger.ApplyTransaction fadd fsub fgt a t = (a, Some msg)
      /\ ((Ledger.Type_ t = Ledger.Debit
           /\ fgt (Ledger.Amount t) (Ledger.Balance a) = true
           /\ msg = ("insufficient funds for tx " ++ Ledger.itoa (Ledger.ID t))%string)
          \/ (Ledger.Type_ t <> Ledger.Credit /\ Ledger.Type_ t <> Ledger.Debit
              /\ msg = ("unknown transaction type: " ++ Ledger.Type_ t)%string)))
  \/ (exists a',
         Ledger.ApplyTransaction fadd fsub fgt a t = (a', None)
         /\ Ledger.Address a' = Ledger.Address a
         /\ Ledger.Owner a' = Ledger.Owner a
         /\ Ledger.Account_Transactions a' = Ledger.Account_Transactions a ++ [t]
         /\ ((Ledger.Type_ t = Ledger.Credit
              /\ Ledger.Balance a' = fadd (Ledger.Balance a) (Ledger.Amount t))
             \/ (Ledger.Type_ t = Ledger.Debit
                 /\ fgt (Ledger.Amount t) (Ledger.Balance a) = false
                 /\ Ledger.Balance a'
                    = fsub (Ledger.Balance a) (Ledger.Amount t)))).
Proof.
  unfold Ledger.ApplyTransaction.
  destruct (String.eqb_spec (Ledger.Type_ t) Ledger.Credit) as [Ec | Nc].
  - right. eexists. split; [reflexivity |]. cbn.
    do 3 (split; [reflexivity |]). left. split; [exact Ec | reflexivity].
  - destruct (String.eqb_spec (Ledger.Type_ t) Ledger.Debit) as [Ed | Nd].
    + destruct (fgt (Ledger.Amount t) (Ledger.Balance a)) eqn:G.
      * left. eexists. split; [reflexivity |]. left.
        split; [exact Ed |]. split; reflexivity.
      * right. eexists. split; [reflexivity |]. cbn.
        do 3 (split; [reflexivity |]). right.
        split; [exact Ed |]. split; reflexivity.
    + left. eexists. split; [reflexivity |]. right.
      split; [exact Nc |]. split; [exact Nd | reflexivity].
Qed.

(** A call of [ApplyTransaction] fails and changes nothing, or appends the
    transaction. *)
Lemma ApplyTransaction_frame (float64 time_Time : Type)
  (fadd fsub : float64 -> float64 -> float64)
  (fgt : float64 -> float64 -> bool)
  (a : Ledger.Account float64 time_Time)
  (t : Ledger.Transaction float64 time_Time) :
  (exists msg, Ledger.ApplyTransaction fadd fsub fgt a t = (a, Some msg))
  \/ (exists a',
         Ledger.ApplyTransaction fadd fsub fgt a t = (a', None)
         /\ Ledger.Address a' = Ledger.Address a
         /\ Ledger.Owner a' = Ledger.Owner a
         /\ Ledger.Account_Transactions a'
            = Ledger.Account_Transactions a ++ [t]).
Proof.
  unfold Ledger.ApplyTransaction.
  destruct (String.eqb (Ledger.Type_ t) Ledger.Credit);
    [| destruct (String.eqb (Ledger.Type_ t) Ledger.Debit);
       [destruct (fgt (Ledger.Amount t) (Ledger.Balance a)) |]];
    ((left; eexists; reflexivity)
     || (right; eexists; repeat split; reflexivity)).
Qed.

Lemma apply_inner (float64 time_Time : Type)
  (fadd fsub : float64 -> float64 -> float64)
  (fgt : float64 -> float64 -> bool)
  (txs : list (Ledger.Transaction float64 time_Time)) :
  forall (a : Ledger.Account float64 time_Time) (out : list string),
  exists a' applied errors,
    fold_left
      (fun '(a, out) tx =>
         match Ledger.ApplyTransaction fadd fsub fgt a tx with
         | (a, Some err) => (a, out ++ [("error applying tx: " ++ err)%string])
         | (a, None) => (a, out)
         end) txs (a, out)
    = (a', out ++ errors)
    /\ Ledger.Account_Transactions a' = Ledger.Account_Transactions a ++ applied
    /\ Ledger.Address a' = Ledger.Address a
    /\ Ledger.Owner a' = Ledger.Owner a
    /\ Subseq applied txs
    /\ (length applied + length errors = length txs)%nat.
Proof.
  induction txs as [| tx txs IH]; intros a out.
  - exists a, [], []. cbn [fold_left]. rewrite !app_nil_r.
    repeat split; constructor.
  - cbn [fold_left].
    destruct (ApplyTransaction_frame _ _ fadd fsub fgt a tx)
      as [(msg & E) | (a1 & E & Ha & Ho & Ht)]; rewrite E.
    + destruct (IH a (out ++ [("error applying tx: " ++ msg)%string]))
        as (a' & applied & errors & Ef & Et & Ha & Ho & Hs & Hl).
      exists a', applied, (("error applying tx: " ++ msg)%string :: errors).
      rewrite Ef, <- app_assoc. repeat split; try assumption.
      * apply Subseq_skip, Hs.
      * cbn [length]. lia.
    + destruct (IH a1 out)
        as (a' & applied & errors & Ef & Et & Ha' & Ho' & Hs & Hl).
      exists a', (tx :: applied), errors.
      rewrite Ef. repeat split; try congruence.
      * rewrite Et, Ht, <- app_assoc. reflexivity.
      * apply Subseq_keep, Hs.
      * cbn [length]. lia.
Qed.

Lemma Subseq_app {A : Type} (s1 t1 s2 t2 : list A) :
  Subseq s1 t1 -> Subseq s2 t2 -> Subseq (s1 ++ s2) (t1 ++ t2).
Proof.
  intros H1 H2. induction H1; cbn [app];
    [exact H2 | apply Subseq_skip, IHSubseq | apply Subseq_keep, IHSubseq].
Qed.

Lemma apply_outer (float64 time_Time : Type)
  (fadd fsub : float64 -> float64 -> float64)
  (fgt : float64 -> float64 -> bool)
  (chain : list (Ledger.Block float64 time_Time)) :
  forall (a : Ledger.Account float64 time_Time) (out : list string),
  exists a' applied errors,
    fold_left
      (fun st b =>
         fold_left
           (fun '(a, out) tx =>
              match Ledger.ApplyTransaction fadd fsub fgt a tx with
              | (a, Some err) => (a, out ++ [("error applying tx: " ++ err)%string])
              | (a, None) => (a, out)
              end) (Ledger.Block_Transactions b) st)
      chain (a, out)
    = (a', out ++ errors)
    /\ Ledger.Account_Transactions a' = Ledger.Account_Transactions a ++ applied
    /\ Ledger.Address a' = Ledger.Address a
    /\ Ledger.Owner a' = Ledger.Owner a
    /\ Subseq applied (flat_map Ledger.Block_Transactions chain)
    /\ (length applied + length errors
        = length (flat_map Ledger.Block_Transactions chain))%nat.
Proof.
  induction chain as [| b chain IH]; intros a out.
  - exists a, [], []. cbn [fold_left flat_map]. rewrite !app_nil_r.
    repeat split; constructor.
  - cbn [fold_left flat_map].
    destruct (apply_inner _ _ fadd fsub fgt (Ledger.Block_Transactions b) a out)
      as (a1 & ap1 & er1 & E1 & T1 & A1 & O1 & S1 & L1).
    rewrite E1.
    destruct (IH a1 (out ++ er1))
      as (a' & ap2 & er2 & E2 & T2 & A2 & O2 & S2 & L2).
    exists a', (ap1 ++ ap2), (er1 ++ er2).
    rewrite E2, <- app_assoc. repeat split; try congruence.
    + rewrite T2, T1, <- app_assoc. reflexivity.
    + apply Subseq_app; assumption.
    + rewrite !length_app. lia.
Qed.

(** X21. The replay loop of [main] records or reports every transaction
    of the chain: the account ends with the transactions it had, followed
    by those of the chain that were applied, in the order of the chain;
    each of the others printed one error line; address and owner are
    kept. *)
Theorem applyChain_records_or_reports (float64 time_Time : Type)
  (fadd fsub : float64 -> float64 -> float64)
  (fgt : float64 -> float64 -> bool)
  (a : Ledger.Account float64 time_Time)
  (chain : list (Ledger.Block float64 time_Time)) :
  exists a' applied errors,
    Ledger.applyChain fadd fsub fgt a chain = (a', errors)
    /\ Ledger.Account_Transactions a' = Ledger.Account_Transactions a ++ applied
    /\ Subseq applied (flat_map Ledger.Block_Transactions chain)
    /\ (length applied + length errors
        = length (flat_map Ledger.Block_Transactions chain))%nat
    /\ Ledger.Address a' = Ledger.Address a
    /\ Ledger.Owner a' = Ledger.Owner a.
Proof.
  destruct (apply_outer _ _ fadd fsub fgt chain a [])
    as (a' & applied & errors & E & T & A & O & S & L).
  exists a', applied, errors. unfold Ledger.applyChain.
  rewrite E. repeat split; assumption.
Qed.

(** ** printChain and PrintStatement *)

Lemma sliceTo_cases (s : string) (n : nat) :
  ((n <= String.length s)%nat /\ sliceTo s n = Ret (substring 0 n s))
  \/ ((String.length s < n)%nat
      /\ sliceTo s n = Panic "slice bounds out of range").
Proof.
  unfold sliceTo. destruct (Nat.leb_spec n (String.length s)); auto.
Qed.

Lemma printChainTxs_cases (float64 time_Time : Type)
  (format2f : float64 -> string)
  (txs : list (Ledger.Transaction float64 time_Time)) :
  forall out,
    (Forall (fun tx => (10 <= String.length (Ledger.From tx))%nat
                       /\ (10 <= String.length (Ledger.To tx))%nat) txs
     /\ exists out', Ledger.printChainTxs format2f txs out = Ret out')
    \/ (~ Forall (fun tx => (10 <= String.length (Ledger.From tx))%nat
                            /\ (10 <= String.length (Ledger.To tx))%nat) txs
        /\ Ledger.printChainTxs format2f txs out
           = Panic "slice bounds out of range").
Proof.
  induction txs as [| tx txs IH]; intros out; cbn [Ledger.printChainTxs].
  - left. split; [constructor | eexists; reflexivity].
  - unfold Ledger.printChainTx.
    destruct (sliceTo_cases (Ledger.From tx) 10) as [[LF ->] | [LF ->]];
      cbn [bind];
      [| right; split; [intros F; inversion F; lia | reflexivity]].
    destruct (sliceTo_cases (Ledger.To tx) 10) as [[LT ->] | [LT ->]];
      cbn [bind];
      [| right; split; [intros F; inversion F; lia | reflexivity]].
    match goal with
    | |- context [Ledger.printChainTxs _ _ ?o] =>
        destruct (IH o) as [[F R] | [F R]]
    end.
    + left. split; [constructor; [split |]; assumption | exact R].
    + right. split; [intros F'; inversion F'; contradiction | exact R].
Qed.

Lemma printChainBlocks_cases (float64 time_Time : Type)
  (format2f : float64 -> string) (formatRFC3339 : time_Time -> string)
  (chain : list (Ledger.Block float64 time_Time)) :
  let ok (b : Ledger.Block float64 time_Time) :=
    (20 <= String.length (Ledger.PrevHash b))%nat
    /\ (20 <= String.length (Ledger.Block_Hash b))%nat
    /\ Forall (fun tx => (10 <= String.length (Ledger.From tx))%nat
                         /\ (10 <= String.length (Ledger.To tx))%nat)
         (Ledger.Block_Transactions b) in
  forall out,
    (Forall ok chain
     /\ exists out',
         Ledger.printChainBlocks format2f formatRFC3339 chain out = Ret out')
    \/ (~ Forall ok chain
        /\ Ledger.printChainBlocks format2f formatRFC3339 chain out
           = Panic "slice bounds out of range").
Proof.
  intros ok.
  induction chain as [| b chain IH]; intros out; cbn [Ledger.printChainBlocks].
  - left. split; [constructor | eexists; reflexivity].
  - destruct (sliceTo_cases (Ledger.PrevHash b) 20) as [[LP ->] | [LP ->]];
      cbn [bind];
      [| right; split;
         [intros F; inversion F as [| ? ? (? & ? & ?)]; lia | reflexivity]].
    destruct (sliceTo_cases (Ledger.Block_Hash b) 20) as [[LH ->] | [LH ->]];
      cbn [bind];
      [| right; split;
         [intros F; inversion F as [| ? ? (? & ? & ?)]; lia | reflexivity]].
    match goal with
    | |- context [Ledger.printChainTxs _ _ ?o] =>
        destruct (printChainTxs_cases _ _ format2f
                    (Ledger.Block_Transactions b) o)
          as [[FT [o' ->]] | [FT ->]]
    end; cbn [bind];
      [| right; split;
         [intros F; inversion F as [| ? ? (? & ? & ?)]; contradiction
         | reflexivity]].
    destruct (IH (o' ++ nl)%string) as [[F R] | [F R]].
    + left. split; [constructor; [repeat split |]; assumption | exact R].
    + right. split; [intros F'; inversion F'; contradiction | exact R].
Qed.

(** X24. [printChain] returns exactly when every block of the chain has a
    previous hash and a hash of at least 20 characters and every
    transaction in it a sender and a receiver of at least 10 characters;
    on any other chain it panics with a slice out of range. *)
Theorem printChain_returns (float64 time_Time : Type)
  (format2f : float64 -> string) (formatRFC3339 : time_Time -> string)
  (chain : list (Ledger.Block float64 time_Time)) :
  let ok (b : Ledger.Block float64 time_Time) :=
    (20 <= String.length (Ledger.PrevHash b))%nat
    /\ (20 <= String.length (Ledger.Block_Hash b))%nat
    /\ Forall (fun tx => (10 <= String.length (Ledger.From tx))%nat
                         /\ (10 <= String.length (Ledger.To tx))%nat)
         (Ledger.Block_Transactions b) in
  (Forall ok chain <->
   exists out, Ledger.printChain format2f formatRFC3339 chain = Ret out)
  /\ (~ Forall ok chain ->
      Ledger.printChain format2f formatRFC3339 chain
      = Panic "slice bounds out of range").
Proof.
  intros ok. unfold Ledger.printChain.
  match goal with
  | |- context [Ledger.printChainBlocks _ _ _ ?o] =>
      destruct (printChainBlocks_cases _ _ format2f formatRFC3339 chain o)
        as [[F [o' R]] | [F R]]
  end; fold ok in F; rewrite R; cbn [bind].
  - split; [| contradiction].
    split; [intros _; eexists; reflexivity | intros _; exact F].
  - split; [| reflexivity].
    split; [contradiction | intros [o' E]; discriminate].
Qed.

Lemma printStatementTxs_cases (float64 time_Time : Type)
  (format2f : float64 -> string) (formatRFC3339 : time_Time -> string)
  (txs : list (Ledger.Transaction float64 time_Time)) :
  forall out,
    (Forall (fun t => (16 <= String.length (Ledger.Hash t))%nat) txs
     /\ exists out',
         Ledger.printStatementTxs format2f formatRFC3339 txs out = Ret out')
    \/ (~ Forall (fun t => (16 <= String.length (Ledger.Hash t))%nat) txs
        /\ Ledger.printStatementTxs format2f formatRFC3339 txs out
           = Panic "slice bounds out of range").
Proof.
  induction txs as [| t txs IH]; intros out; cbn [Ledger.printStatementTxs].
  - left. split; [constructor | eexists; reflexivity].
  - destruct (sliceTo_cases (Ledger.Hash t) 16) as [[LH ->] | [LH ->]];
      cbn [bind];
      [| right; split; [intros F; inversion F; lia | reflexivity]].
    match goal with
    | |- context [Ledger.printStatementTxs _ _ _ ?o] =>
        destruct (IH o) as [[F R] | [F R]]
    end.
    + left. split; [constructor; assumption | exact R].
    + right. split; [intros F'; inversion F'; contradiction | exact R].
Qed.

(** X25. [PrintStatement] returns exactly when the hash text of every
    recorded transaction has at least 16 characters; otherwise, for
    instance with a transaction whose hash was never set, it panics with a
    slice out of range. *)
Theorem PrintStatement_returns (float64 time_Time : Type)
  (format2f : float64 -> string) (formatRFC3339 : time_Time -> string)
  (a : Ledger.Account float64 time_Time) :
  let ok (t : Ledger.Transaction float64 time_Time) :=
    (16 <= String.length (Ledger.Hash t))%nat in
  (Forall ok (Ledger.Account_Transactions a) <->
   exists out, Ledger.PrintStatement format2f formatRFC3339 a = Ret out)
  /\ (~ Forall ok (Ledger.Account_Transactions a) ->
      Ledger.PrintStatement format2f formatRFC3339 a
      = Panic "slice bounds out of range").
Proof.
  intros ok. unfold Ledger.PrintStatement.
  match goal with
  | |- context [Ledger.printStatementTxs _ _ _ ?o] =>
      destruct (printStatementTxs_cases _ _ format2f formatRFC3339
                  (Ledger.Account_Transactions a) o)
        as [[F [o' R]] | [F R]]
  end; fold ok in F; rewrite R; cbn [bind].
  - split; [| contradiction].
    split; [intros _; eexists; reflexivity | intros _; exact F].
  - split; [| reflexivity].
    split; [contradiction | intros [o' E]; discriminate].
Qed.

Lemma Subseq_Forall {A : Type} (P : A -> Prop) (s t : list A) :
  Subseq s t -> Forall P t -> Forall P s.
Proof.
  intros S. induction S; intros F; [constructor | |];
    inversion F; subst; auto.
Qed.

Lemma mineLoop_keeps (float64 time_Time : Type)
  (formatRFC3339Nano : time_Time -> string) (fuel : nat) :
  forall (b b' : Ledger.Block float64 time_Time) (target : string),
    Ledger.mineLoop formatRFC3339Nano fuel b target = Ret b' ->
    String.length (Ledger.Block_Hash b') = 66%nat
    /\ Ledger.PrevHash b' = Ledger.PrevHash b
    /\ Ledger.Block_Transactions b' = Ledger.Block_Transactions b.
Proof.
  induction fuel as [| fuel IH]; intros b b' target H; [discriminate |].
  cbn [Ledger.mineLoop] in H.
  destruct (String.prefix target (Ledger.hashBlock formatRFC3339Nano b)).
  - injection H as <-. destruct b.
    cbn [Ledger.setHash Ledger.Block_Hash Ledger.PrevHash
         Ledger.Block_Transactions].
    split; [| split; reflexivity].
    unfold Ledger.hashBlock. apply length_0x_hex.
  - apply IH in H. destruct b. exact H.
Qed.

Lemma MineBlock_keeps (float64 time_Time : Type)
  (formatRFC3339Nano : time_Time -> string) (fuel : nat) (difficulty : Z)
  (b b' : Ledger.Block float64 time_Time) :
  Ledger.MineBlock formatRFC3339Nano fuel b difficulty = Ret b' ->
  String.length (Ledger.Block_Hash b') = 66%nat
  /\ Ledger.PrevHash b' = Ledger.PrevHash b
  /\ Ledger.Block_Transactions b' = Ledger.Block_Transactions b.
Proof.
  intros H. unfold Ledger.MineBlock, Ledger.Repeat in H.
  destruct (difficulty <? 0); [discriminate |]. cbn [bind] in H.
  apply mineLoop_keeps in H. exact H.
Qed.

(** X26. The chain that [main] builds, a genesis block and two blocks
    after it, each on the one before, is printed by [printChain] without a
    panic, whatever the difficulty and the times, when the sender and the
    receiver of every transaction have at least 10 characters. *)
Theorem printChain_of_built_chain (float64 time_Time : Type)
  (format2f : float64 -> string)
  (formatRFC3339Nano formatRFC3339 : time_Time -> string)
  (fuel0 fuel1 fuel2 : nat) (now0 now1 now2 : time_Time) (difficulty : Z)
  (genesis b1 b2 : Ledger.Block float64 time_Time)
  (txs1 txs2 : list (Ledger.Transaction float64 time_Time)) :
  Ledger.NewGenesisBlock formatRFC3339Nano fuel0 now0 difficulty = Ret genesis ->
  Ledger.NewBlock formatRFC3339Nano fuel1 now1 genesis txs1 difficulty = Ret b1 ->
  Ledger.NewBlock formatRFC3339Nano fuel2 now2 b1 txs2 difficulty = Ret b2 ->
  Forall (fun tx => (10 <= String.length (Ledger.From tx))%nat
                    /\ (10 <= String.length (Ledger.To tx))%nat)
    (txs1 ++ txs2) ->
  exists out,
    Ledger.printChain format2f formatRFC3339 [genesis; b1; b2] = Ret out.
Proof.
  intros H0 H1 H2 F. apply Forall_app in F. destruct F as [F1 F2].
  unfold Ledger.NewGenesisBlock in H0. unfold Ledger.NewBlock in H1, H2.
  apply MineBlock_keeps in H0, H1, H2.
  cbn [Ledger.PrevHash Ledger.Block_Transactions] in H0, H1, H2.
  destruct H0 as (L0 & P0 & T0), H1 as (L1 & P1 & T1), H2 as (L2 & P2 & T2).
  unfold Ledger.printChain.
  match goal with
  | |- context [Ledger.printChainBlocks _ _ _ ?o] =>
      destruct (printChainBlocks_cases _ _ format2f formatRFC3339
                  [genesis; b1; b2] o)
        as [[_ [o' R]] | [N _]]
  end.
  - rewrite R. cbn [bind]. eexists. reflexivity.
  - exfalso. apply N.
    repeat constructor; rewrite ?L0, ?P0, ?T0, ?L1, ?P1, ?T1, ?L2, ?P2, ?T2;
      cbn [String.length]; try lia; auto.
Qed.

Lemma printChain_of_built_chain_witness :
  exists out,
    Ledger.printChain printed stamped [genesis1; block1; block2] = Ret out.
Proof.
  apply (printChain_of_built_chain string string printed stamped stamped
           200 200 200 "2024-01-01T00:00:00Z"%string
           "2024-01-01T01:00:00Z"%string "2024-01-01T02:00:00Z"%string 1
           genesis1 block1 block2 [] [deposit]).
  - vm_compute. reflexivity.
  - vm_compute. reflexivity.
  - vm_compute. reflexivity.
  - repeat constructor.
Defined.

(** X27. After the replay loop of [main], [PrintStatement] returns: the
    account prints without a panic when the transactions it had and those
    of the chain all carry a hash set by [computeTxHash], whichever of
    them were applied. *)
Theorem PrintStatement_after_replay (float64 time_Time : Type)
  (fadd fsub : float64 -> float64 -> float64)
  (fgt : float64 -> float64 -> bool)
  (formatf format2f : float64 -> string)
  (formatRFC3339Nano formatRFC3339 : time_Time -> string)
  (a : Ledger.Account float64 time_Time)
  (chain : list (Ledger.Block float64 time_Time)) :
  Forall (fun t => exists raw,
              Ledger.Hash t = Ledger.computeTxHash formatf formatRFC3339Nano raw)
    (Ledger.Account_Transactions a
     ++ flat_map Ledger.Block_Transactions chain) ->
  exists out,
    Ledger.PrintStatement format2f formatRFC3339
      (fst (Ledger.applyChain fadd fsub fgt a chain)) = Ret out.
Proof.
  intros F. apply Forall_app in F. destruct F as [Fa Fc].
  destruct (apply_outer _ _ fadd fsub fgt chain a [])
    as (a' & applied & errors & E & T & _ & _ & S & _).
  unfold Ledger.applyChain. rewrite E. cbn [fst].
  unfold Ledger.PrintStatement.
  match goal with
  | |- context [Ledger.printStatementTxs _ _ _ ?o] =>
      destruct (printStatementTxs_cases _ _ format2f formatRFC3339
                  (Ledger.Account_Transactions a') o)
        as [[_ [o' R]] | [N _]]
  end.
  - rewrite R. cbn [bind]. eexists. reflexivity.
  - exfalso. apply N. rewrite T. apply Forall_app. split.
    + eapply Forall_impl; [| exact Fa].
      intros t [raw ->]. unfold Ledger.computeTxHash.
      rewrite length_0x_hex. lia.
    + eapply Forall_impl; [| exact (Subseq_Forall _ _ _ S Fc)].
      intros t [raw ->]. unfold Ledger.computeTxHash.
      rewrite length_0x_hex. lia.
Qed.

Lemma PrintStatement_after_replay_witness :
  exists out,
    Ledger.PrintStatement whole2f stamped
      (fst (Ledger.applyChain Z.add Z.sub Z.gtb devon handMade)) = Ret out.
Proof.
  apply (PrintStatement_after_replay Z string Z.add Z.sub Z.gtb wholef whole2f
           stamped stamped devon handMade).
  repeat constructor; eexists; reflexivity.
Defined.

(** ** hashTransaction *)

(** X22. [hashTransaction] hashes sender and receiver with nothing between
    them: moving characters from the end of [From] to the start of [To]
    gives another transaction with the same hash, which is always 32
    bytes. *)
Theorem hashTransaction_ambiguous (float64 : Type) (formatf : float64 -> string)
  (a c : string) (x : ascii) (b : string) (amount : float64) :
  let t1 := Sign.mkTransaction (a ++ String x b)%string c amount in
  let t2 := Sign.mkTransaction a (String x b ++ c)%string amount in
  t1 <> t2
  /\ Sign.hashTransaction formatf t1 = Sign.hashTransaction formatf t2
  /\ length (Sign.hashTransaction formatf t1) = 32%nat.
Proof.
  intros t1 t2. split; [| split].
  - intros E. apply (f_equal Sign.From) in E. unfold t1, t2 in E.
    cbn [Sign.From] in E. apply (f_equal String.length) in E.
    rewrite length_append in E. cbn [String.length] in E. lia.
  - unfold Sign.hashTransaction, t1, t2. cbn [Sign.From Sign.To Sign.Amount].
    rewrite !append_assoc. reflexivity.
  - apply length_Sum256.
Qed.
